(** * Flintrock EC2 back end (flintrock/ec2.py)

    A shallow embedding of the cluster entity, the role classifier, the
    state converger, the lifecycle operations, the block-device planner and
    the instance-acquisition phase of [launch], together with the
    properties the design document states about them.

    Conventions.
    - A boto3 [Instance] resource is modelled by the snapshot of the
      attributes the code reads ([id], [state['Name']], [tags]).
      [Instance] is the snapshot of an instance that has a list of tags;
      boto3 gives [tags = None] for an instance that has no tag at all,
      and [DescribedInstance] is the snapshot that keeps the attribute as
      boto3 gives it (module [Described]).
    - Every call that leaves the process (provider API, the generic
      [FlintrockCluster] hooks of [flintrock/core.py], [time.sleep],
      [click.confirm]) is appended to a trace; what it answers is decided by
      an [Environment] that sees the whole history of calls.
    - Python exceptions are values of [Exn]; unbounded [while] loops take a
      fuel argument and answer [OutOfFuel] when it runs out.
    - Console output and the clock reads of [@timeit] are not recorded. *)

From stdpp Require Import base strings list gmap sets pretty.

Open Scope string_scope.
Open Scope list_scope.

(** ** Exceptions and results *)

Inductive Exn : Type :=
| NothingToDo (msg : string)
| ClusterInvalidState (attempted_command state : string)
| Error (msg : string)
| Exception (msg : string)
| ClientError (code : string)
| IndexError
| KeyError (key : string)
| TypeError
| Abort
| KeyboardInterrupt
| SystemExit.

#[global] Instance Exn_eq_dec : EqDecision Exn.
Proof. solve_decision. Defined.

(** Result of a pure, fallible computation. *)
Inductive result (A : Type) : Type :=
| Ok (a : A)
| Raise (e : Exn).
Arguments Ok {A} a.
Arguments Raise {A} e.

(** ** Instances and clusters *)

Record Tag : Type := mkTag { Key : string; Value : string }.

Record Instance : Type := mkInstance {
  instance_id : string;
  instance_state : string;          (* instance.state['Name'] *)
  instance_tags : list Tag          (* instance.tags *)
}.

#[global] Instance Tag_eq_dec : EqDecision Tag.
Proof. solve_decision. Defined.

#[global] Instance Instance_eq_dec : EqDecision Instance.
Proof. solve_decision. Defined.

Record EC2Cluster : Type := mkCluster {
  name : string;
  region : string;
  vpc_id : string;
  master_instance : Instance;
  slave_instances : list Instance
}.

(** [EC2Cluster.instances] *)
Definition instances (self : EC2Cluster) : list Instance :=
  [master_instance self] ++ slave_instances self.

Definition instance_ids (self : EC2Cluster) : list string :=
  instance_id <$> instances self.

(** [EC2Cluster.state]: the set of distinct instance states; a set of
    length one answers its element ([pop]), anything else the sentinel. *)
Definition instance_states (self : EC2Cluster) : gset string :=
  list_to_set (instance_state <$> instances self).

Definition state (self : EC2Cluster) : string :=
  match elements (instance_states self) with
  | [s] => s
  | _ => "inconsistent"
  end.

(** ** Role classification: [_get_cluster_master_slaves] *)

(** The inner [for tag in instance.tags] loop. The two accumulators are the
    function's local variables; [break] ends the loop at the first master
    tag, a slave tag appends and goes on. *)
Fixpoint scan_tags (instance : Instance) (ts : list Tag)
    (master : option Instance) (slaves : list Instance)
  : result (option Instance * list Instance) :=
  match ts with
  | [] => Ok (master, slaves)
  | tag :: ts' =>
      if decide (Key tag = "flintrock-role") then
        if decide (Value tag = "master") then
          match master with
          | Some _ => Raise (Exception "More than one master found.")
          | None => Ok (Some instance, slaves)
          end
        else if decide (Value tag = "slave") then
          scan_tags instance ts' master (slaves ++ [instance])
        else scan_tags instance ts' master slaves
      else scan_tags instance ts' master slaves
  end.

(** The outer [for instance in instances] loop. *)
Fixpoint scan_instances (l : list Instance)
    (master : option Instance) (slaves : list Instance)
  : result (option Instance * list Instance) :=
  match l with
  | [] => Ok (master, slaves)
  | i :: l' =>
      match scan_tags i (instance_tags i) master slaves with
      | Ok (master', slaves') => scan_instances l' master' slaves'
      | Raise e => Raise e
      end
  end.

Definition _get_cluster_master_slaves (l : list Instance)
  : result (Instance * list Instance) :=
  match scan_instances l None [] with
  | Raise e => Raise e
  | Ok (None, _) => Raise (Exception "No master found.")
  | Ok (Some _, []) => Raise (Exception "No slaves found.")
  | Ok (Some m, ss) => Ok (m, ss)
  end.

(** [_compose_cluster] *)
Definition _compose_cluster (name region vpc_id : string) (l : list Instance)
  : result EC2Cluster :=
  match _get_cluster_master_slaves l with
  | Ok (m, ss) => Ok (mkCluster name region vpc_id m ss)
  | Raise e => Raise e
  end.

(** An instance carries the role tag with value [role]. *)
Definition tagged (role : string) (i : Instance) : Prop :=
  Exists (λ t, Key t = "flintrock-role" ∧ Value t = role) (instance_tags i).

#[global] Instance tagged_dec role i : Decision (tagged role i).
Proof. unfold tagged. apply _. Defined.

(** ** Role classification of instances as the provider describes them

    [instance.tags] is [None] for an instance that has no tag at all, and
    [for tag in instance.tags] then raises [TypeError]. The definitions
    above take the tag list of instances that have one; the ones below
    take the attribute as it is. *)

Record DescribedInstance : Type := mkDescribed {
  described_id : string;
  described_state : string;            (* instance.state['Name'] *)
  described_tags : option (list Tag)   (* instance.tags, possibly None *)
}.

(** The snapshot of a described instance that has tags. *)
Definition snapshot (instance : DescribedInstance) : Instance :=
  mkInstance (described_id instance) (described_state instance)
    (default [] (described_tags instance)).

Module Described.

(** The inner [for tag in instance.tags] loop, over the tags of an
    instance that has some. *)
Fixpoint scan_tags (instance : DescribedInstance) (ts : list Tag)
    (master : option DescribedInstance) (slaves : list DescribedInstance)
  : result (option DescribedInstance * list DescribedInstance) :=
  match ts with
  | [] => Ok (master, slaves)
  | tag :: ts' =>
      if decide (Key tag = "flintrock-role") then
        if decide (Value tag = "master") then
          match master with
          | Some _ => Raise (Exception "More than one master found.")
          | None => Ok (Some instance, slaves)
          end
        else if decide (Value tag = "slave") then
          scan_tags instance ts' master (slaves ++ [instance])
        else scan_tags instance ts' master slaves
      else scan_tags instance ts' master slaves
  end.

(** The outer [for instance in instances] loop: iterating over
    [instance.tags] raises [TypeError] when the attribute is [None]. *)
Fixpoint scan_instances (l : list DescribedInstance)
    (master : option DescribedInstance) (slaves : list DescribedInstance)
  : result (option DescribedInstance * list DescribedInstance) :=
  match l with
  | [] => Ok (master, slaves)
  | i :: l' =>
      match described_tags i with
      | None => Raise TypeError
      | Some ts =>
          match scan_tags i ts master slaves with
          | Ok (master', slaves') => scan_instances l' master' slaves'
          | Raise e => Raise e
          end
      end
  end.

Definition _get_cluster_master_slaves (l : list DescribedInstance)
  : result (DescribedInstance * list DescribedInstance) :=
  match scan_instances l None [] with
  | Raise e => Raise e
  | Ok (None, _) => Raise (Exception "No master found.")
  | Ok (Some _, []) => Raise (Exception "No slaves found.")
  | Ok (Some m, ss) => Ok (m, ss)
  end.

End Described.

(** The result of a classification, as snapshots. *)
Definition snapshots (r : result (DescribedInstance * list DescribedInstance))
  : result (Instance * list Instance) :=
  match r with
  | Ok (m, ss) => Ok (snapshot m, snapshot <$> ss)
  | Raise e => Raise e
  end.

(** ** Block devices and images *)

(** Values found in an ['Ebs'] dictionary. *)
Inductive ebs_value : Type :=
| EInt (n : Z)
| EStr (s : string)
| EBool (b : bool).

(** A block-device dictionary: the keys the planner reads or writes. *)
Record BlockDevice : Type := mkDevice {
  DeviceName : string;
  VirtualName : option string;
  Ebs : option (gmap string ebs_value)
}.

Record Image : Type := mkImage {
  root_device_type : string;
  root_device_name : string;
  block_device_mappings : list BlockDevice
}.

Record SecurityGroup : Type := mkGroup {
  group_id : string;
  group_name : string
}.

(** A spot instance request as returned by the provider;
    [Status_Code] is [r['Status']['Code']], ['InstanceId'] may be absent. *)
Record SpotRequest : Type := mkSpot {
  SpotInstanceRequestId : string;
  State : string;
  Status_Code : string;
  InstanceId : option string
}.

(** ** Calls that leave the process *)

Inductive Event : Type :=
| DescribeInstances (ids : list string)
| StartInstances (ids : list string)
| StopInstances (ids : list string)
| TerminateInstances (ids : list string)
| ModifyAttribute (id : string) (groups : list string)
| DescribeSecurityGroups (group vpc : string)
| DeleteSecurityGroup (group : string)
| DescribeImages (ami : string)
| RequestSpotInstances (price : string) (count : nat)
| DescribeSpotInstanceRequests (ids : list string)
| CancelSpotInstanceRequests (ids : list string)
| CreateInstances (count : nat)
| CreateTags (ids : list string) (role display_name : string)
| Sleep (seconds : nat)
| Confirm (count : nat)
| GenerateSshKeyPair
| ProvisionCluster (user identity_file : string)
| DestroyCheck
| SuperDestroy
| SuperStart (user identity_file : string)
| SuperStop.

#[global] Instance Event_eq_dec : EqDecision Event.
Proof. solve_decision. Defined.

(** What the outside world answers to a call, given the calls made before
    it. One field per shape of answer. *)
Record Environment : Type := mkEnv {
  answer_unit : list Event → Event → result unit;
  answer_instances : list Event → Event → result (list Instance);
  answer_groups : list Event → Event → result (list SecurityGroup);
  answer_images : list Event → Event → result (list Image);
  answer_spot : list Event → Event → result (list SpotRequest);
  answer_bool : list Event → Event → result bool
}.

(** ** Programs: local variables, a trace, exceptions and fuel *)

Inductive Outcome (A : Type) : Type :=
| Done (a : A)
| Raised (e : Exn)
| OutOfFuel.
Arguments Done {A} a.
Arguments Raised {A} e.
Arguments OutOfFuel {A}.

Record Frame (V : Type) : Type := mkFrame { vars : V; trace : list Event }.
Arguments mkFrame {V} vars trace.
Arguments vars {V} f.
Arguments trace {V} f.

Definition M (V A : Type) : Type := Frame V → Outcome A * Frame V.

Definition ret {V A} (a : A) : M V A := λ s, (Done a, s).

Definition bind {V A B} (m : M V A) (k : A → M V B) : M V B :=
  λ s, match m s with
       | (Done a, s') => k a s'
       | (Raised e, s') => (Raised e, s')
       | (OutOfFuel, s') => (OutOfFuel, s')
       end.

Definition raise {V A} (e : Exn) : M V A := λ s, (Raised e, s).

Definition out_of_fuel {V A} : M V A := λ s, (OutOfFuel, s).

Definition get {V} : M V V := λ s, (Done (vars s), s).

Definition put {V} (v : V) : M V unit := λ s, (Done tt, mkFrame v (trace s)).

Definition lift_result {V A} (r : result A) : M V A :=
  match r with
  | Ok a => ret a
  | Raise e => raise e
  end.

(** Issue a call: it is recorded whatever the answer is. *)
Definition call {V A} (answer : list Event → Event → result A) (ev : Event)
  : M V A :=
  λ s, let s' := mkFrame (vars s) (trace s ++ [ev]) in
       match answer (trace s) ev with
       | Ok a => (Done a, s')
       | Raise e => (Raised e, s')
       end.

(** Run a program over other local variables on the same trace. *)
Definition run_on {V V' A} (v : V') (m : M V' A) : M V (A * V') :=
  λ s, match m (mkFrame v (trace s)) with
       | (Done a, s') => (Done (a, vars s'), mkFrame (vars s) (trace s'))
       | (Raised e, s') => (Raised e, mkFrame (vars s) (trace s'))
       | (OutOfFuel, s') => (OutOfFuel, mkFrame (vars s) (trace s'))
       end.

Declare Scope prog_scope.
Delimit Scope prog_scope with prog.
Notation "'let*' x ':=' m 'in' k" := (bind m (λ x, k))
  (at level 10, x name, m at level 100, k at level 200) : prog_scope.
Notation "'let*' ' p ':=' m 'in' k" := (bind m (λ x, match x with p => k end))
  (at level 10, p pattern, m at level 100, k at level 200) : prog_scope.
Notation "m ';;;' k" := (bind m (λ _, k))
  (at level 100, k at level 200, right associativity) : prog_scope.

(** [l[0]] *)
Definition first_item {V A} (l : list A) : M V A :=
  match l with
  | x :: _ => ret x
  | [] => raise IndexError
  end.

(** [for x in l: body(x)] *)
Fixpoint for_each {V A} (l : list A) (body : A → M V unit) : M V unit :=
  match l with
  | [] => ret tt
  | x :: l' => bind (body x) (λ _, for_each l' body)
  end.

(** [except (Exception, KeyboardInterrupt)] *)
Definition Exception_or_KeyboardInterrupt (e : Exn) : bool :=
  match e with
  | SystemExit => false
  | _ => true
  end.

Section Operations.

Variable env : Environment.

Open Scope prog_scope.

(** Modelled from the spec: the generic hooks of [FlintrockCluster]
    ([destroy_check], [destroy], [start], [stop] in flintrock/core.py),
    [provision_cluster] and [generate_ssh_key_pair] (flintrock/ssh.py) are
    defined outside this file. The design document treats them as external
    collaborators that manage the service layer: a hook is a recorded call
    that returns or raises as the environment decides and leaves the
    instance references of the cluster as they are. *)
Definition hook {V} (ev : Event) : M V unit := call (answer_unit env) ev.

(** *** [EC2Cluster.wait_for_state] *)
Fixpoint wait_for_state (fuel : nat) (target : string) : M EC2Cluster unit :=
  let* self := get in
  if existsb (λ i, bool_decide (instance_state i ≠ target)) (instances self)
  then
    match fuel with
    | 0 => out_of_fuel
    | S fuel' =>
        let* l := call (answer_instances env)
                    (DescribeInstances (instance_ids self)) in
        let* '(m, ss) := lift_result (_get_cluster_master_slaves l) in
        put (mkCluster (name self) (region self) (vpc_id self) m ss);;;
        call (answer_unit env) (Sleep 3);;;
        wait_for_state fuel' target
    end
  else ret tt.

(** *** [EC2Cluster.destroy] *)
Definition destroy : M EC2Cluster unit :=
  hook DestroyCheck;;;
  hook SuperDestroy;;;
  let* self := get in
  let* groups := call (answer_groups env)
                   (DescribeSecurityGroups "flintrock" (vpc_id self)) in
  let* flintrock_base_group := first_item groups in
  for_each (instances self) (λ instance,
    call (answer_unit env)
      (ModifyAttribute (instance_id instance)
         [group_id flintrock_base_group]));;;
  let* groups' := call (answer_groups env)
                    (DescribeSecurityGroups ("flintrock-" +:+ name self)
                       (vpc_id self)) in
  let* cluster_group := first_item groups' in
  call (answer_unit env) (DeleteSecurityGroup (group_id cluster_group));;;
  call (answer_unit env) (TerminateInstances (instance_ids self)).

(** *** [EC2Cluster.start_check], [EC2Cluster.start] *)
Definition start_check : M EC2Cluster unit :=
  let* self := get in
  if decide (state self = "running") then
    raise (NothingToDo "Cluster is already running.")
  else if decide (state self ≠ "stopped") then
    raise (ClusterInvalidState "start" (state self))
  else ret tt.

Definition start (fuel : nat) (user identity_file : string)
  : M EC2Cluster unit :=
  start_check;;;
  let* self := get in
  call (answer_unit env) (StartInstances (instance_ids self));;;
  wait_for_state fuel "running";;;
  hook (SuperStart user identity_file).

(** *** [EC2Cluster.stop_check], [EC2Cluster.stop] *)
Definition stop_check : M EC2Cluster unit :=
  let* self := get in
  if decide (state self = "stopped") then
    raise (NothingToDo "Cluster is already stopped.")
  else if decide (state self ≠ "running") then
    raise (ClusterInvalidState "stop" (state self))
  else ret tt.

Definition stop (fuel : nat) : M EC2Cluster unit :=
  stop_check;;;
  hook SuperStop;;;
  let* self := get in
  call (answer_unit env) (StopInstances (instance_ids self));;;
  wait_for_state fuel "stopped".

End Operations.

(** ** Block-device planning: [get_ec2_block_device_mappings] *)

Definition min_root_device_size_gb : Z := 30.

(** [string.ascii_lowercase] *)
Definition ascii_lowercase : string := "abcdefghijklmnopqrstuvwxyz".

(** The dictionary built by one round of [for i in range(12)]. *)
Definition ephemeral_device (i : nat) : result BlockDevice :=
  match String.get (i + 1) ascii_lowercase with
  | Some c =>
      Ok (mkDevice ("/dev/sd" +:+ String c "")
                   (Some ("ephemeral" +:+ pretty i)) None)
  | None => Raise IndexError
  end.

Fixpoint ephemeral_devices (range : list nat) : result (list BlockDevice) :=
  match range with
  | [] => Ok []
  | i :: range' =>
      match ephemeral_device i with
      | Raise e => Raise e
      | Ok d =>
          match ephemeral_devices range' with
          | Raise e => Raise e
          | Ok ds => Ok (d :: ds)
          end
      end
  end.

(** The integer a dictionary value compares as in [value < 30]; a string
    does not compare with an integer. *)
Definition as_int (v : ebs_value) : result Z :=
  match v with
  | EInt n => Ok n
  | EBool b => Ok (if b then 1 else 0)%Z
  | EStr _ => Raise TypeError
  end.

(** The [if image.root_device_type == 'ebs'] block: the entries it appends. *)
Definition root_device_entries (image : Image) : result (list BlockDevice) :=
  if decide (root_device_type image = "ebs") then
    match filter (λ device, DeviceName device = root_device_name image)
            (block_device_mappings image) with
    | [] => Raise IndexError
    | root_device :: _ =>
        match Ebs root_device with
        | None => Raise (KeyError "Ebs")
        | Some ebs =>
            match ebs !! "VolumeSize" with
            | None => Raise (KeyError "VolumeSize")
            | Some size =>
                match as_int size with
                | Raise e => Raise e
                | Ok n =>
                    let ebs' :=
                      if decide (n < min_root_device_size_gb)%Z then
                        <["VolumeType" := EStr "gp2"]>
                          (<["VolumeSize" := EInt min_root_device_size_gb]> ebs)
                      else ebs in
                    match ebs' !! "Encrypted" with
                    | None => Raise (KeyError "Encrypted")
                    | Some _ =>
                        Ok [mkDevice (DeviceName root_device)
                              (VirtualName root_device)
                              (Some (delete "Encrypted" ebs'))]
                    end
                end
            end
        end
    end
  else Ok [].

Section Planner.

Variable env : Environment.

Open Scope prog_scope.

Definition get_ec2_block_device_mappings {V} (ami : string)
  : M V (list BlockDevice) :=
  let* images := call (answer_images env) (DescribeImages ami) in
  let* image := first_item images in
  let* root := lift_result (root_device_entries image) in
  let* ephemeral := lift_result (ephemeral_devices (seq 0 12)) in
  ret (root ++ ephemeral).

End Planner.

(** ** The acquisition and provisioning phase of [launch] *)

(** The arguments of [launch] this phase looks at. The launch
    specification (image, key, instance type, block devices, placement,
    security groups, subnet, profile) is handed on to the provider
    unchanged and decides no branch. [spot_price] is [Some] for a truthy
    price, rendered as [str(spot_price)]. *)
Record LaunchArgs : Type := mkLaunchArgs {
  cluster_name : string;
  num_slaves : nat;
  assume_yes : bool;
  launch_region : string;
  launch_vpc_id : string;
  launch_user : string;
  launch_identity_file : string;
  spot_price : option string
}.

(** The local variables the rollback handler reads. *)
Record LaunchVars : Type := mkLaunchVars {
  spot_requests : list SpotRequest;
  cluster_instances : list Instance
}.

Definition set_spot_requests (rs : list SpotRequest) : M LaunchVars unit :=
  bind get (λ v, put (mkLaunchVars rs (cluster_instances v))).

Definition set_cluster_instances (l : list Instance) : M LaunchVars unit :=
  bind get (λ v, put (mkLaunchVars (spot_requests v) l)).

(** [{r['Status']['Code'] for r in failed_requests}] *)
Definition failure_reasons (failed_requests : list SpotRequest) : gset string :=
  list_to_set (Status_Code <$> failed_requests).

(** The message of the error raised by the poll loop. A Python set is
    iterated in an unspecified order; the model iterates it as [elements]
    does. *)
Definition failure_message (failed_requests : list SpotRequest) : string :=
  let reasons := failure_reasons failed_requests in
  "The spot request failed for the following reason"
  +:+ (if decide (size reasons = 1) then "" else "s")
  +:+ ": " +:+ String.concat ", " (elements reasons).

(** [[r['InstanceId'] for r in spot_requests]] *)
Fixpoint granted_instance_ids (rs : list SpotRequest) : result (list string) :=
  match rs with
  | [] => Ok []
  | r :: rs' =>
      match InstanceId r with
      | None => Raise (KeyError "InstanceId")
      | Some i =>
          match granted_instance_ids rs' with
          | Raise e => Raise e
          | Ok l => Ok (i :: l)
          end
      end
  end.

Section Launch.

Variable env : Environment.
Variable args : LaunchArgs.

Open Scope prog_scope.

Definition num_instances : nat := num_slaves args + 1.

(** The [while pending_request_ids] loop. *)
Fixpoint poll_spot_requests (fuel : nat)
    (request_ids pending_request_ids : list string) : M LaunchVars unit :=
  match pending_request_ids with
  | [] => ret tt
  | _ :: _ =>
      match fuel with
      | 0 => out_of_fuel
      | S fuel' =>
          call (answer_unit env) (Sleep 30);;;
          let* rs := call (answer_spot env)
                       (DescribeSpotInstanceRequests request_ids) in
          set_spot_requests rs;;;
          let failed_requests :=
            filter (λ r, State r = "failed") rs in
          match failed_requests with
          | _ :: _ => raise (Error (failure_message failed_requests))
          | [] =>
              poll_spot_requests fuel' request_ids
                (SpotInstanceRequestId <$>
                   filter (λ r, State r = "open") rs)
          end
      end
  end.

(** The spot branch of [if spot_price]: one bid, the poll loop, then the
    lookup of the granted instances. *)
Definition acquire_spot (fuel : nat) (price : string) : M LaunchVars unit :=
  let* rs := call (answer_spot env)
               (RequestSpotInstances price num_instances) in
  set_spot_requests rs;;;
  let request_ids := SpotInstanceRequestId <$> rs in
  poll_spot_requests fuel request_ids request_ids;;;
  let* v := get in
  let* ids := lift_result (granted_instance_ids (spot_requests v)) in
  let* l := call (answer_instances env) (DescribeInstances ids) in
  set_cluster_instances l.

(** The on-demand branch: one bulk [create_instances] call. *)
Definition acquire_on_demand : M LaunchVars unit :=
  let* l := call (answer_instances env) (CreateInstances num_instances) in
  set_cluster_instances l.

(** The rest of the [try] body: settle delay, role tags, the cluster
    entity, convergence to running, provisioning. *)
Definition tag_and_provision (fuel : nat) : M LaunchVars unit :=
  call (answer_unit env) (Sleep 10);;;
  let* v := get in
  let* master := first_item (cluster_instances v) in
  let slaves := tail (cluster_instances v) in
  call (answer_unit env)
    (CreateTags [instance_id master] "master"
       (cluster_name args +:+ "-master"));;;
  call (answer_unit env)
    (CreateTags (instance_id <$> slaves) "slave"
       (cluster_name args +:+ "-slave"));;;
  hook env GenerateSshKeyPair;;;
  let cluster :=
    mkCluster (cluster_name args) (launch_region args) (launch_vpc_id args)
      master slaves in
  run_on cluster (wait_for_state env fuel "running");;;
  hook env
    (ProvisionCluster (launch_user args) (launch_identity_file args)).

(** The body of the [try]. *)
Definition launch_try (fuel : nat) : M LaunchVars unit :=
  match spot_price args with
  | Some price => acquire_spot fuel price
  | None => acquire_on_demand
  end;;;
  tag_and_provision fuel.

(** The body of the [except] clause up to, not including, the final
    [raise]. *)
Definition launch_rollback : M LaunchVars unit :=
  let* v := get in
  match spot_requests v with
  | _ :: _ =>
      let request_ids := SpotInstanceRequestId <$> spot_requests v in
      (if existsb (λ r, bool_decide (State r ≠ "active")) (spot_requests v)
       then call (answer_unit env) (CancelSpotInstanceRequests request_ids)
       else ret tt);;;
      let* rs := call (answer_spot env)
                   (DescribeSpotInstanceRequests request_ids) in
      set_spot_requests rs;;;
      let instance_ids := omap InstanceId rs in
      match instance_ids with
      | _ :: _ =>
          let* l := call (answer_instances env)
                      (DescribeInstances instance_ids) in
          set_cluster_instances l
      | [] => ret tt
      end
  | [] => ret tt
  end;;;
  let* v := get in
  match cluster_instances v with
  | _ :: _ =>
      let* yes :=
        (if negb (assume_yes args)
         then call (answer_bool env) (Confirm (length (cluster_instances v)))
         else ret false) in
      if assume_yes args || yes
      then call (answer_unit env)
             (TerminateInstances (instance_id <$> cluster_instances v))
      else ret tt
  | [] => ret tt
  end.

(** The [try ... except (Exception, KeyboardInterrupt) ... raise]
    statement of [launch]. *)
Definition launch_try_except (fuel : nat) : M LaunchVars unit :=
  λ s, match launch_try fuel s with
       | (Raised e, s') =>
           if Exception_or_KeyboardInterrupt e
           then (launch_rollback;;; raise e) s'
           else (Raised e, s')
       | r => r
       end.

(** The statement run from [spot_requests = []], [cluster_instances = []]. *)
Definition launch_acquire (fuel : nat) (history : list Event)
  : Outcome unit * Frame LaunchVars :=
  launch_try_except fuel (mkFrame (mkLaunchVars [] []) history).

End Launch.

(** * Specification vocabulary *)

(** ** Roles *)

Definition masters (l : list Instance) : list Instance :=
  filter (tagged "master") l.

Definition workers (l : list Instance) : list Instance :=
  filter (tagged "slave") l.

(** An instance is unclassified when it has no role tag, or only role tags
    whose value is neither master nor slave. *)
Definition unclassified (i : Instance) : Prop :=
  ∀ t, t ∈ instance_tags i → Key t = "flintrock-role" →
       Value t ≠ "master" ∧ Value t ≠ "slave".

(** ** Sample data *)

Definition running_master : Instance :=
  mkInstance "i-0" "running" [mkTag "flintrock-role" "master"].
Definition running_slave : Instance :=
  mkInstance "i-1" "running" [mkTag "flintrock-role" "slave"].
Definition stopped_slave : Instance :=
  mkInstance "i-2" "stopped" [mkTag "flintrock-role" "slave"].

Definition running_cluster : EC2Cluster :=
  mkCluster "test" "us-east-1" "vpc-1" running_master [running_slave].
Definition mixed_cluster : EC2Cluster :=
  mkCluster "test" "us-east-1" "vpc-1" running_master
    [running_slave; stopped_slave].

Definition bystander : Instance :=
  mkInstance "i-9" "stopped"
    [mkTag "Name" "db"; mkTag "flintrock-role" "gateway"].

(** A master and a worker as the provider describes them, and an instance
    of the same group that has no tag at all. *)
Definition described_master : DescribedInstance :=
  mkDescribed "i-0" "running" (Some [mkTag "flintrock-role" "master"]).
Definition described_slave : DescribedInstance :=
  mkDescribed "i-1" "running" (Some [mkTag "flintrock-role" "slave"]).
Definition untagged : DescribedInstance :=
  mkDescribed "i-7" "running" None.

(** ** Block-device planning *)

(** The root device entry of an image, its ['Ebs'] dictionary, and the
    root volume size and encryption flag it declares. *)
Definition root_device_of (image : Image) : option BlockDevice :=
  head (filter (λ d, DeviceName d = root_device_name image)
          (block_device_mappings image)).

Definition root_ebs (image : Image) : option (gmap string ebs_value) :=
  match root_device_of image with
  | Some d => Ebs d
  | None => None
  end.

Definition declared_root_size (image : Image) : option Z :=
  match root_ebs image with
  | Some ebs =>
      match ebs !! "VolumeSize" with
      | Some (EInt n) => Some n
      | _ => None
      end
  | None => None
  end.

Definition root_encryption_flag (image : Image) : option ebs_value :=
  match root_ebs image with
  | Some ebs => ebs !! "Encrypted"
  | None => None
  end.

(** The twelve ephemeral slots, written out. *)
Definition twelve_ephemeral_slots : list BlockDevice :=
  (λ p, mkDevice ("/dev/sd" +:+ p.2) (Some ("ephemeral" +:+ p.1)) None)
    <$> [("0", "b"); ("1", "c"); ("2", "d"); ("3", "e"); ("4", "f");
         ("5", "g"); ("6", "h"); ("7", "i"); ("8", "j"); ("9", "k");
         ("10", "l"); ("11", "m")].

(** A plan for a small disk-backed root: a 30 GB general-purpose SSD root
    entry without encryption flag, then the twelve ephemeral slots. *)
Definition small_root_plan (image : Image) (l : list BlockDevice) : Prop :=
  ∃ root ebs,
    l = root :: twelve_ephemeral_slots
    ∧ length l = 13
    ∧ DeviceName root = root_device_name image
    ∧ Ebs root = Some ebs
    ∧ ebs !! "VolumeSize" = Some (EInt 30)
    ∧ ebs !! "VolumeType" = Some (EStr "gp2")
    ∧ ebs !! "Encrypted" = None.

(** An environment in which every call succeeds with an empty answer,
    except the image lookup, which answers [images]. *)
Definition image_env (images : list Image) : Environment :=
  mkEnv (λ _ _, Ok tt) (λ _ _, Ok []) (λ _ _, Ok [])
        (λ _ _, Ok images) (λ _ _, Ok []) (λ _ _, Ok true).

(** An 8 GB disk-backed image with, and one without, an encryption flag. *)
Definition image_8gb : Image :=
  mkImage "ebs" "/dev/sda1"
    [mkDevice "/dev/sda1" None
       (Some (<["VolumeSize" := EInt 8]>
                (<["VolumeType" := EStr "standard"]>
                   (<["Encrypted" := EBool false]> ∅))))].

Definition image_8gb_no_flag : Image :=
  mkImage "ebs" "/dev/sda1"
    [mkDevice "/dev/sda1" None
       (Some (<["VolumeSize" := EInt 8]>
                (<["VolumeType" := EStr "standard"]> ∅)))].

(** ** State convergence and lifecycle *)

(** Every tracked instance reports exactly [target]. *)
Definition converged (target : string) (self : EC2Cluster) : Prop :=
  ∀ i, i ∈ instances self → instance_state i = target.

(** The calls the state converger makes. *)
Definition poll_event (e : Event) : Prop :=
  (∃ ids, e = DescribeInstances ids) ∨ e = Sleep 3.

Definition stopped_master : Instance :=
  mkInstance "i-0" "stopped" [mkTag "flintrock-role" "master"].

Definition stopped_worker : Instance :=
  mkInstance "i-1" "stopped" [mkTag "flintrock-role" "slave"].

Definition stopped_cluster : EC2Cluster :=
  mkCluster "test" "us-east-1" "vpc-1" stopped_master [stopped_worker].

(** A provider that reports the two instances of the sample cluster as
    [s] and lets every other call succeed. *)
Definition steady_env (s : string) : Environment :=
  mkEnv (λ _ _, Ok tt)
        (λ _ _, Ok [mkInstance "i-0" s [mkTag "flintrock-role" "master"];
                    mkInstance "i-1" s [mkTag "flintrock-role" "slave"]])
        (λ _ ev, match ev with
                 | DescribeSecurityGroups g _ => Ok [mkGroup ("sg-" +:+ g) g]
                 | _ => Ok []
                 end)
        (λ _ _, Ok []) (λ _ _, Ok []) (λ _ _, Ok true).

(** Orders of the calls of a lifecycle operation: the batched provider
    call, the polls of the state converger, and the generic hook. *)
Definition provider_converge_hook (provider_call hook : Event)
    (t : list Event) : Prop :=
  ∃ polls h, t = provider_call :: polls ++ h
             ∧ Forall poll_event polls
             ∧ (h = [] ∨ h = [hook]).

Definition hook_provider_converge (hook provider_call : Event)
    (t : list Event) : Prop :=
  ∃ rest, t = hook :: rest
          ∧ (rest = []
             ∨ ∃ polls, rest = provider_call :: polls
                        ∧ Forall poll_event polls).

(** The order the design document gives for a lifecycle operation that
    passed its guard, stated for [stop]. *)
Definition stop_calls_provider_first : Prop :=
  ∀ (env : Environment) (fuel : nat) (s s' : Frame EC2Cluster)
    (out : Outcome unit),
    state (vars s) = "running" →
    stop env fuel s = (out, s') →
    ∃ t, trace s' = trace s ++ t
         ∧ provider_converge_hook (StopInstances (instance_ids (vars s)))
             SuperStop t.

(** ** Teardown *)

(** Order of the calls [t] issued by [destroy] from frame [s]: whenever
    a group is deleted, every instance has before that been reattached to
    the base group alone (the first group the lookup of "flintrock"
    answered) and the cluster group has been looked up by its name;
    whenever instances are terminated, it is by one
    call for all instance ids, which is the last call, comes after the
    deletion of the cluster group and after no other terminate call. *)
Definition detach_delete_terminate (env : Environment)
    (s : Frame EC2Cluster) (t : list Event) : Prop :=
  (∀ pre g post, t = pre ++ DeleteSecurityGroup g :: post →
     ∃ base others,
       answer_groups env (trace s ++ [DestroyCheck; SuperDestroy])
         (DescribeSecurityGroups "flintrock" (vpc_id (vars s)))
       = Ok (base :: others)
       ∧ (∀ i, i ∈ instances (vars s) →
               ModifyAttribute (instance_id i) [group_id base] ∈ pre)
       ∧ DescribeSecurityGroups ("flintrock-" +:+ name (vars s))
           (vpc_id (vars s)) ∈ pre)
  ∧ (∀ pre ids post, t = pre ++ TerminateInstances ids :: post →
       ids = instance_ids (vars s)
       ∧ post = []
       ∧ (∃ g, DeleteSecurityGroup g ∈ pre)
       ∧ ∀ ids', TerminateInstances ids' ∉ pre).

Definition quiet (e : Event) : Prop :=
  (∀ g, e ≠ DeleteSecurityGroup g) ∧ (∀ ids, e ≠ TerminateInstances ids).

(** ** Spot acquisition and rollback *)

Definition failed_requests (rs : list SpotRequest) : list SpotRequest :=
  filter (λ r, State r = "failed") rs.

Definition has_failed (rs : list SpotRequest) : Prop :=
  ∃ r, r ∈ rs ∧ State r = "failed".


Definition not_spot_describe (e : Event) : Prop :=
  ¬ ∃ ids, e = DescribeSpotInstanceRequests ids.

(** The design document's statement on the rollback handler: whatever
    failure the [try] body raised is the failure [launch] ends with. *)
Definition original_failure_reraised : Prop :=
  ∀ (env : Environment) (args : LaunchArgs) (fuel : nat)
    (s s1 : Frame LaunchVars) (e : Exn),
    launch_try env args fuel s = (Raised e, s1) →
    Exception_or_KeyboardInterrupt e = true →
    ∃ s2, launch_try_except env args fuel s = (Raised e, s2).

(** From history [h] on, every call is answered without an exception. *)
Definition answers_from (env : Environment) (h : list Event) : Prop :=
  ∀ h' ev, h `prefix_of` h' →
    (∃ u, answer_unit env h' ev = Ok u)
    ∧ (∃ l, answer_instances env h' ev = Ok l)
    ∧ (∃ l, answer_spot env h' ev = Ok l)
    ∧ (∃ b, answer_bool env h' ev = Ok b).

(** An on-demand launch interrupted during the settle delay, whose
    terminate call is then refused by the provider. *)
Definition interrupted_env : Environment :=
  mkEnv (λ _ ev, match ev with
                 | Sleep 10 => Raise KeyboardInterrupt
                 | TerminateInstances _ =>
                     Raise (ClientError "RequestLimitExceeded")
                 | _ => Ok tt
                 end)
        (λ _ _, Ok [mkInstance "i-0" "pending" [];
                    mkInstance "i-1" "pending" []])
        (λ _ _, Ok []) (λ _ _, Ok []) (λ _ _, Ok []) (λ _ _, Ok true).

Definition on_demand_args : LaunchArgs :=
  mkLaunchArgs "test" 1 true "us-east-1" "vpc-1" "ec2-user" "key.pem" None.

(** A spot launch of three instances: on the first poll one request is
    active and two have failed for the same reason. *)
Definition spot_answer : list SpotRequest :=
  [mkSpot "sir-0" "active" "fulfilled" (Some "i-0");
   mkSpot "sir-1" "failed" "price-too-low" None;
   mkSpot "sir-2" "failed" "price-too-low" None].

Definition spot_env : Environment :=
  mkEnv (λ _ _, Ok tt)
        (λ _ _, Ok [mkInstance "i-0" "pending" []])
        (λ _ _, Ok []) (λ _ _, Ok [])
        (λ _ ev, match ev with
                 | RequestSpotInstances _ _ =>
                     Ok [mkSpot "sir-0" "open" "pending-evaluation" None;
                         mkSpot "sir-1" "open" "pending-evaluation" None;
                         mkSpot "sir-2" "open" "pending-evaluation" None]
                 | _ => Ok spot_answer
                 end)
        (λ _ _, Ok true).

Definition spot_args : LaunchArgs :=
  mkLaunchArgs "test" 2 true "us-east-1" "vpc-1" "ec2-user" "key.pem"
    (Some "0.05").

(** A program that never runs out of fuel, and a program that returns
    whenever it is started on a history extending [h]. *)
Definition fuel_free {V A} (m : M V A) : Prop :=
  ∀ s out s', m s = (out, s') → out ≠ OutOfFuel.

Definition returns_from {V A} (h : list Event) (m : M V A) : Prop :=
  ∀ s, h `prefix_of` trace s →
       ∃ a s', m s = (Done a, s') ∧ h `prefix_of` trace s'.

Definition spot_failure_frame : Frame LaunchVars :=
  mkFrame (mkLaunchVars spot_answer [])
    [RequestSpotInstances "0.05" 3; Sleep 30;
     DescribeSpotInstanceRequests ["sir-0"; "sir-1"; "sir-2"]].

Definition spot_rollback_frame : Frame LaunchVars :=
  mkFrame (mkLaunchVars spot_answer [mkInstance "i-0" "pending" []])
    [RequestSpotInstances "0.05" 3; Sleep 30;
     DescribeSpotInstanceRequests ["sir-0"; "sir-1"; "sir-2"];
     CancelSpotInstanceRequests ["sir-0"; "sir-1"; "sir-2"];
     DescribeSpotInstanceRequests ["sir-0"; "sir-1"; "sir-2"];
     DescribeInstances ["i-0"]; TerminateInstances ["i-0"]].

Definition spot_failure : Exn :=
  Error "The spot request failed for the following reason: price-too-low".

(** * Further vocabulary *)

(** ** Block-device planning on any image *)

(** The frame after the single image lookup of the planner. *)
Definition after_image_lookup {V} (ami : string) (s : Frame V) : Frame V :=
  mkFrame (vars s) (trace s ++ [DescribeImages ami]).

(** A 40 GB disk-backed image with a snapshot id, and an instance-store
    image. *)
Definition image_40gb : Image :=
  mkImage "ebs" "/dev/xvda"
    [mkDevice "/dev/sdf" (Some "ephemeral0") None;
     mkDevice "/dev/xvda" None
       (Some (<["VolumeSize" := EInt 40]>
                (<["VolumeType" := EStr "io1"]>
                   (<["SnapshotId" := EStr "snap-1"]>
                      (<["Encrypted" := EBool true]> ∅)))))].

Definition image_instance_store : Image :=
  mkImage "instance-store" "/dev/sda1"
    [mkDevice "/dev/sda1" None None].

(** ** Lifecycle *)

(** The exception a lifecycle guard raises on a cluster in state [st]:
    [NothingToDo already] when [st] is the state [satisfied] the operation
    would lead to, [ClusterInvalidState command st] otherwise. *)
Definition guard_refusal (command satisfied already : string) (st : string)
  : Exn :=
  if decide (st = satisfied) then NothingToDo already
  else ClusterInvalidState command st.

Definition pending_master : Instance :=
  mkInstance "i-0" "pending" [mkTag "flintrock-role" "master"].

Definition pending_cluster : EC2Cluster :=
  mkCluster "test" "us-east-1" "vpc-1" pending_master [running_slave].

(** ** State convergence, round by round *)


(** A cluster whose members come out of the role classifier. *)
Definition role_consistent (self : EC2Cluster) : Prop :=
  tagged "master" (master_instance self)
  ∧ slave_instances self ≠ []
  ∧ Forall (tagged "slave") (slave_instances self).

(** A provider whose listing is empty (the instances are not visible
    yet). *)
Definition blind_env : Environment :=
  mkEnv (λ _ _, Ok tt) (λ _ _, Ok []) (λ _ _, Ok [])
        (λ _ _, Ok []) (λ _ _, Ok []) (λ _ _, Ok true).

(** ** Teardown, call by call *)

(** The detach calls of [destroy], one per instance, master first. *)
Definition detach_calls (self : EC2Cluster) (base : SecurityGroup)
  : list Event :=
  (λ i, ModifyAttribute (instance_id i) [group_id base]) <$> instances self.

Definition base_lookup (self : EC2Cluster) : Event :=
  DescribeSecurityGroups "flintrock" (vpc_id self).

Definition cluster_lookup (self : EC2Cluster) : Event :=
  DescribeSecurityGroups ("flintrock-" +:+ name self) (vpc_id self).

(** A provider in which only the group named [known] exists. *)
Definition one_group_env (known : string) : Environment :=
  mkEnv (λ _ _, Ok tt) (λ _ _, Ok [])
        (λ _ ev, match ev with
                 | DescribeSecurityGroups g _ =>
                     if decide (g = known) then Ok [mkGroup ("sg-" +:+ g) g]
                     else Ok []
                 | _ => Ok []
                 end)
        (λ _ _, Ok []) (λ _ _, Ok []) (λ _ _, Ok true).

(** ** Launch: acquisition, tagging and rollback, call by call *)

(** The calls between acquisition and convergence: settle delay, the two
    tagging calls (master, then workers), the key pair. *)
Definition settle_and_tag_calls (args : LaunchArgs) (master : Instance)
    (slaves : list Instance) : list Event :=
  [Sleep 10;
   CreateTags [instance_id master] "master" (cluster_name args +:+ "-master");
   CreateTags (instance_id <$> slaves) "slave"
     (cluster_name args +:+ "-slave");
   GenerateSshKeyPair].

Definition provision_call (args : LaunchArgs) : Event :=
  ProvisionCluster (launch_user args) (launch_identity_file args).

(** Calls that belong to the spot strategy, and to the on-demand one. *)
Definition spot_free (e : Event) : Prop :=
  match e with
  | RequestSpotInstances _ _ | DescribeSpotInstanceRequests _
  | CancelSpotInstanceRequests _ => False
  | _ => True
  end.

Definition bulk_free (e : Event) : Prop :=
  match e with
  | CreateInstances _ => False
  | _ => True
  end.

Definition bid_free (e : Event) : Prop :=
  match e with
  | RequestSpotInstances _ _ | CreateInstances _ => False
  | _ => True
  end.

(** Calls that ask the user or remove instances. *)
Definition consent_free (e : Event) : Prop :=
  match e with
  | Confirm _ | TerminateInstances _ => False
  | _ => True
  end.

(** The two halves of the rollback handler: what it does about spot
    requests, and what it does about instances. *)
Definition rollback_refresh (env : Environment) (request_ids : list string)
  : M LaunchVars unit :=
  (let* rs := call (answer_spot env)
                (DescribeSpotInstanceRequests request_ids) in
   set_spot_requests rs;;;
   let instance_ids := omap InstanceId rs in
   match instance_ids with
   | _ :: _ =>
       let* l := call (answer_instances env)
                   (DescribeInstances instance_ids) in
       set_cluster_instances l
   | [] => ret tt
   end)%prog.

Definition rollback_requests (env : Environment) : M LaunchVars unit :=
  (let* v := get in
   match spot_requests v with
   | _ :: _ =>
       let request_ids := SpotInstanceRequestId <$> spot_requests v in
       (if existsb (λ r, bool_decide (State r ≠ "active")) (spot_requests v)
        then call (answer_unit env) (CancelSpotInstanceRequests request_ids)
        else ret tt);;;
       rollback_refresh env request_ids
   | [] => ret tt
   end)%prog.

Definition rollback_instances (env : Environment) (args : LaunchArgs)
  : M LaunchVars unit :=
  (let* v := get in
   match cluster_instances v with
   | _ :: _ =>
       let* yes :=
         (if negb (assume_yes args)
          then call (answer_bool env) (Confirm (length (cluster_instances v)))
          else ret false) in
       if assume_yes args || yes
       then call (answer_unit env)
              (TerminateInstances (instance_id <$> cluster_instances v))
       else ret tt
   | [] => ret tt
   end)%prog.

(** An on-demand launch in an environment where the instances come up
    running at the first refresh, and one whose user declines the
    clean-up after an interrupt. *)
Definition fresh_instances : list Instance :=
  [mkInstance "i-0" "pending" []; mkInstance "i-1" "pending" []].

Definition smooth_env : Environment :=
  mkEnv (λ _ _, Ok tt)
        (λ _ ev, match ev with
                 | CreateInstances _ => Ok fresh_instances
                 | _ => Ok [running_master; running_slave]
                 end)
        (λ _ _, Ok []) (λ _ _, Ok []) (λ _ _, Ok []) (λ _ _, Ok true).

Definition declining_env : Environment :=
  mkEnv (λ _ ev, match ev with
                 | Sleep 10 => Raise KeyboardInterrupt
                 | _ => Ok tt
                 end)
        (λ _ _, Ok fresh_instances)
        (λ _ _, Ok []) (λ _ _, Ok []) (λ _ _, Ok []) (λ _ _, Ok false).

Definition cautious_args : LaunchArgs :=
  mkLaunchArgs "test" 1 false "us-east-1" "vpc-1" "ec2-user" "key.pem" None.

(** The calls of the spot poll loop. *)
Definition spot_poll_call (e : Event) : Prop :=
  e = Sleep 30 ∨ ∃ ids, e = DescribeSpotInstanceRequests ids.

(** Calls that are neither a bid, a bulk create, nor any other spot
    request call. *)
Definition acquisition_free (e : Event) : Prop :=
  match e with
  | RequestSpotInstances _ _ | DescribeSpotInstanceRequests _
  | CancelSpotInstanceRequests _ | CreateInstances _ => False
  | _ => True
  end.

(** A spot launch of two instances granted at the first poll. *)
Definition granted_answer : list SpotRequest :=
  [mkSpot "sir-0" "active" "fulfilled" (Some "i-0");
   mkSpot "sir-1" "active" "fulfilled" (Some "i-1")].

Definition granting_env : Environment :=
  mkEnv (λ _ _, Ok tt)
        (λ _ _, Ok [running_master; running_slave])
        (λ _ _, Ok []) (λ _ _, Ok [])
        (λ _ ev, match ev with
                 | RequestSpotInstances _ _ =>
                     Ok [mkSpot "sir-0" "open" "pending-evaluation" None;
                         mkSpot "sir-1" "open" "pending-evaluation" None]
                 | _ => Ok granted_answer
                 end)
        (λ _ _, Ok true).

Definition small_spot_args : LaunchArgs :=
  mkLaunchArgs "test" 1 true "us-east-1" "vpc-1" "ec2-user" "key.pem"
    (Some "0.05").

(** * Discovery, network provisioning, remote operations and the head of
      [launch]

    These functions make calls and raise exceptions the definitions above
    have no names for. Their calls are [Request]s, which include every
    [Event]; their exceptions are [Failure]s, which include every [Exn].
    A [World] answers requests from the history of requests, and only ever
    raises an [Exn]: the other failures are raised by the program. *)

Inductive Failure : Type :=
| Plain (e : Exn)
| ClusterNotFound (msg : string)
| ClusterAlreadyExists (msg : string)
| NoDefaultVPC (region : string)
| ConfigurationNotSupported (msg : string).

(** The named tuple [SecurityGroupRule]. *)
Record SecurityGroupRule : Type := mkRule {
  ip_protocol : string;
  from_port : Z;
  to_port : Z;
  src_group : option string;
  cidr_ip : string
}.

(** An instance as discovery sees it: the snapshot and
    [instance.security_groups]. *)
Record RawInstance : Type := mkRaw {
  raw : Instance;
  security_groups : list SecurityGroup
}.

Inductive Request : Type :=
| Core (e : Event)
| DescribeDefaultVpcs
| DescribeVpcAttribute (vpc attribute : string)
| DescribeInstancesInGroups (groups : list string) (vpc : string)
| CreateSecurityGroup (group description vpc : string)
| AuthorizeIngress (group : string) (rule : SecurityGroupRule)
| AuthorizeIngressFromGroup (group source : string)
| GetHostByName
| UrlOpen (url : string)
| SuperRunCommand (master_only : bool) (command user identity_file : string)
| SuperCopyFile (local_path remote_path : string) (master_only : bool)
    (user identity_file : string).

Record World : Type := mkWorld {
  world_unit : list Request → Request → result unit;
  world_flag : list Request → Request → result bool;
  world_text : list Request → Request → result string;
  world_vpcs : list Request → Request → result (list string);
  world_group : list Request → Request → result SecurityGroup;
  world_groups : list Request → Request → result (list SecurityGroup);
  world_listing : list Request → Request → result (list RawInstance);
  world_instances : list Request → Request → result (list Instance);
  world_images : list Request → Request → result (list Image);
  world_spot : list Request → Request → result (list SpotRequest)
}.

Inductive Ending (A : Type) : Type :=
| Returned (a : A)
| Failed (f : Failure)
| Unfinished.
Arguments Returned {A} a.
Arguments Failed {A} f.
Arguments Unfinished {A}.

Record Scene (V : Type) : Type := mkScene { locals : V; calls : list Request }.
Arguments mkScene {V} locals calls.
Arguments locals {V} s.
Arguments calls {V} s.

Definition W (V A : Type) : Type := Scene V → Ending A * Scene V.

Definition w_ret {V A} (a : A) : W V A := λ s, (Returned a, s).

Definition w_bind {V A B} (m : W V A) (k : A → W V B) : W V B :=
  λ s, match m s with
       | (Returned a, s') => k a s'
       | (Failed f, s') => (Failed f, s')
       | (Unfinished, s') => (Unfinished, s')
       end.

Definition w_fail {V A} (f : Failure) : W V A := λ s, (Failed f, s).

Definition w_get {V} : W V V := λ s, (Returned (locals s), s).

Definition w_result {V A} (r : result A) : W V A :=
  match r with
  | Ok a => w_ret a
  | Raise e => w_fail (Plain e)
  end.

(** Issue a request: it is recorded whatever the answer is. *)
Definition ask {V A} (answer : list Request → Request → result A)
    (q : Request) : W V A :=
  λ s, let s' := mkScene (locals s) (calls s ++ [q]) in
       match answer (calls s) q with
       | Ok a => (Returned a, s')
       | Raise e => (Failed (Plain e), s')
       end.

(** [try: m  except C: handler]: [handler f] is [Some] for the failures
    the clause catches. *)
Definition w_try {V A} (m : W V A) (handler : Failure → option (W V A))
  : W V A :=
  λ s, match m s with
       | (Failed f, s') =>
           match handler f with
           | Some h => h s'
           | None => (Failed f, s')
           end
       | r => r
       end.

Declare Scope wide_scope.
Delimit Scope wide_scope with wide.
Notation "'let*' x ':=' m 'in' k" := (w_bind m (λ x, k))
  (at level 10, x name, m at level 100, k at level 200) : wide_scope.
Notation "m ';;;' k" := (w_bind m (λ _, k))
  (at level 100, k at level 200, right associativity) : wide_scope.

(** The environment a program over [Event]s meets when it is started
    after the requests [h]. *)
Definition environment_after (w : World) (h : list Request) : Environment :=
  mkEnv (λ t ev, world_unit w (h ++ (Core <$> t)) (Core ev))
        (λ t ev, world_instances w (h ++ (Core <$> t)) (Core ev))
        (λ t ev, world_groups w (h ++ (Core <$> t)) (Core ev))
        (λ t ev, world_images w (h ++ (Core <$> t)) (Core ev))
        (λ t ev, world_spot w (h ++ (Core <$> t)) (Core ev))
        (λ t ev, world_flag w (h ++ (Core <$> t)) (Core ev)).

Definition ending_of {A} (o : Outcome A) : Ending A :=
  match o with
  | Done a => Returned a
  | Raised e => Failed (Plain e)
  | OutOfFuel => Unfinished
  end.

(** Run a program over [Event]s, on local variables [v], as part of a
    program over [Request]s. *)
Definition run_core {V V' A} (w : World) (v : V')
    (m : Environment → M V' A) : W V (A * V') :=
  λ s, match m (environment_after w (calls s)) (mkFrame v []) with
       | (o, f) =>
           (ending_of (match o with
                       | Done a => Done (a, vars f)
                       | Raised e => Raised e
                       | OutOfFuel => OutOfFuel
                       end),
            mkScene (locals s) (calls s ++ (Core <$> trace f)))
       end.

(** ** Strings: [str.startswith] and [str.replace(old, new, 1)] *)

Fixpoint drop_chars (n : nat) (s : string) : string :=
  match n, s with
  | 0, _ => s
  | S n', String _ s' => drop_chars n' s'
  | S _, EmptyString => EmptyString
  end.

(** Replace the leftmost occurrence of [old] in [s] by [new]. *)
Fixpoint replace_first (old new s : string) : string :=
  if String.prefix old s
  then new +:+ drop_chars (String.length old) s
  else match s with
       | EmptyString => EmptyString
       | String c s' => String c (replace_first old new s')
       end.

(** ** [_get_cluster_name] *)

(** The [for group in instance.security_groups] loop: the first group
    whose name starts with the cluster prefix decides. *)
Fixpoint first_cluster_group (groups : list SecurityGroup) : option string :=
  match groups with
  | [] => None
  | group :: groups' =>
      if String.prefix "flintrock-" (group_name group)
      then Some (replace_first "flintrock-" "" (group_name group))
      else first_cluster_group groups'
  end.

Definition _get_cluster_name (instance : RawInstance) : result string :=
  match first_cluster_group (security_groups instance) with
  | Some n => Ok n
  | None =>
      Raise (Exception ("Could not extract cluster name from instance: "
                        +:+ instance_id (raw instance)))
  end.

(** [{_get_cluster_name(instance) for instance in all_clusters_instances}],
    evaluated instance by instance. *)
Fixpoint cluster_names_of (l : list RawInstance) : result (list string) :=
  match l with
  | [] => Ok []
  | i :: l' =>
      match _get_cluster_name i with
      | Raise e => Raise e
      | Ok n =>
          match cluster_names_of l' with
          | Raise e => Raise e
          | Ok ns => Ok (n :: ns)
          end
      end
  end.

#[global] Instance result_eq_dec {A} `{EqDecision A} : EqDecision (result A).
Proof. solve_decision. Defined.

(** The list comprehension that composes one cluster per found name. *)
Fixpoint compose_each (names : list string) (region vpc_id : string)
    (all : list RawInstance) : result (list EC2Cluster) :=
  match names with
  | [] => Ok []
  | n :: names' =>
      match _compose_cluster n region vpc_id
              (raw <$> filter (λ x, _get_cluster_name x = Ok n) all) with
      | Raise e => Raise e
      | Ok c =>
          match compose_each names' region vpc_id all with
          | Raise e => Raise e
          | Ok cs => Ok (c :: cs)
          end
      end
  end.

Section Wide.

Variable world : World.

Open Scope wide_scope.

(** *** [get_default_vpc]: the id of the first default VPC. *)
Definition get_default_vpc {V} (region : string) : W V string :=
  let* default_vpc := ask (world_vpcs world) DescribeDefaultVpcs in
  match default_vpc with
  | v :: _ => w_ret v
  | [] => w_fail (NoDefaultVPC region)
  end.

Definition newline : string := String (Ascii.ascii_of_nat 10) EmptyString.

(** *** [check_network_config] *)
Definition check_network_config {V} (region_name vpc_id subnet_id : string)
  : W V unit :=
  let* enabled := ask (world_flag world)
                    (DescribeVpcAttribute vpc_id "enableDnsHostnames") in
  if negb enabled then
    w_fail (ConfigurationNotSupported
              (vpc_id +:+ " does not have DNS hostnames enabled. "
               +:+ "Flintrock requires DNS hostnames to be enabled."
               +:+ newline
               +:+ "See: https://github.com/nchammas/flintrock/issues/43"))
  else w_ret tt.

(** *** [get_clusters], [get_cluster]. An absent or empty [vpc_id] is the
    empty string. A Python set is iterated in the order of [elements]. *)
Definition group_name_filter (cluster_names : list string) : list string :=
  match cluster_names with
  | _ :: _ => (λ cn, "flintrock-" +:+ cn) <$> cluster_names
  | [] => ["flintrock"]
  end.

Definition get_clusters {V} (cluster_names : list string)
    (region vpc_id : string) : W V (list EC2Cluster) :=
  let* vpc_id := (if decide (vpc_id = "") then get_default_vpc region
                  else w_ret vpc_id) in
  let* all_clusters_instances :=
    ask (world_listing world)
      (DescribeInstancesInGroups (group_name_filter cluster_names) vpc_id) in
  let* names := w_result (cluster_names_of all_clusters_instances) in
  let found_cluster_names : gset string := list_to_set names in
  (match cluster_names with
   | _ :: _ =>
       let missing_cluster_names :=
         (list_to_set cluster_names : gset string) ∖ found_cluster_names in
       match elements missing_cluster_names with
       | c :: _ =>
           w_fail (ClusterNotFound
                     ("No cluster " +:+ c +:+ " in region " +:+ region
                      +:+ "."))
       | [] => w_ret tt
       end
   | [] => w_ret tt
   end);;;
  w_result (compose_each (elements found_cluster_names) region vpc_id
              all_clusters_instances).

Definition get_cluster {V} (cluster_name region vpc_id : string)
  : W V EC2Cluster :=
  let* cluster := get_clusters [cluster_name] region vpc_id in
  match cluster with
  | c :: _ => w_ret c
  | [] => w_fail (Plain IndexError)
  end.

End Wide.

(** ** Vocabulary for discovery *)

(** The group name does not carry the cluster prefix. *)
Definition unprefixed (g : SecurityGroup) : Prop :=
  String.prefix "flintrock-" (group_name g) = false.

(** The cluster [c] is made of listed instances that all carry its name. *)
Definition drawn_from (all : list RawInstance) (c : EC2Cluster) : Prop :=
  ∀ i, i ∈ instances c →
       ∃ x, x ∈ all ∧ raw x = i ∧ _get_cluster_name x = Ok (name c).

Definition base_group : SecurityGroup := mkGroup "sg-0" "flintrock".

Definition listed (i : Instance) (cluster : string) : RawInstance :=
  mkRaw i [base_group; mkGroup ("sg-" +:+ cluster) ("flintrock-" +:+ cluster)].

(** A world whose inventory holds the sample cluster [test] and a second
    cluster [flintrock-two]; every other request succeeds with an empty
    answer. *)
Definition sample_listing : list RawInstance :=
  [listed running_master "test"; listed stopped_master "flintrock-two";
   listed running_slave "test"; listed stopped_worker "flintrock-two"].

Definition sample_world (listing : list RawInstance) : World :=
  mkWorld (λ _ _, Ok tt) (λ _ _, Ok true) (λ _ _, Ok "203.0.113.7")
          (λ _ _, Ok ["vpc-default"])
          (λ _ q, match q with
                  | CreateSecurityGroup g _ _ => Ok (mkGroup ("sg-" +:+ g) g)
                  | _ => Ok base_group
                  end)
          (λ _ _, Ok []) (λ _ _, Ok listing) (λ _ _, Ok [])
          (λ _ _, Ok []) (λ _ _, Ok []).

(** ** Network access: [get_or_create_ec2_security_groups] *)

(** [for x in l: body(x)] *)
Fixpoint w_for_each {V A} (l : list A) (body : A → W V unit) : W V unit :=
  match l with
  | [] => w_ret tt
  | x :: l' => w_bind (body x) (λ _, w_for_each l' body)
  end.

(** The six rules one round of [for flintrock_client_cidr in ...] extends
    [client_rules] by. *)
Definition flintrock_client_rules (flintrock_client_cidr : string)
  : list SecurityGroupRule :=
  [mkRule "tcp" 22 22 None flintrock_client_cidr;
   mkRule "tcp" 50070 50070 None flintrock_client_cidr;
   mkRule "tcp" 8080 8081 None flintrock_client_cidr;
   mkRule "tcp" 4040 4040 None flintrock_client_cidr;
   mkRule "tcp" 7077 7077 None flintrock_client_cidr;
   mkRule "tcp" 6066 6066 None flintrock_client_cidr].

Definition client_rules (flintrock_client_cidrs : list string)
  : list SecurityGroupRule :=
  flintrock_client_cidrs ≫= flintrock_client_rules.

(** [except botocore.exceptions.ClientError as e:
       if e.response['Error']['Code'] != 'InvalidPermission.Duplicate':
           raise Exception(msg)] *)
Definition unless_duplicate {V} (msg : string) (f : Failure)
  : option (W V unit) :=
  match f with
  | Plain (ClientError code) =>
      Some (if decide (code ≠ "InvalidPermission.Duplicate")
            then w_fail (Plain (Exception msg))
            else w_ret tt)
  | _ => None
  end.

Section Provision.

Variable world : World.

(** Python's rendering of a [SecurityGroupRule] in a message. *)
Variable rule_repr : SecurityGroupRule → string.

Open Scope wide_scope.

(** [group[0] if group else None], then [if not group: group = create]. *)
Definition found_or_created {V} (found : list SecurityGroup)
    (create : Request) : W V SecurityGroup :=
  match found with
  | g :: _ => w_ret g
  | [] => ask (world_group world) create
  end.

(** One round of [for rule in client_rules]. *)
Definition authorize_client_rule {V} (flintrock_group : SecurityGroup)
    (rule : SecurityGroupRule) : W V unit :=
  w_try (ask (world_unit world)
           (AuthorizeIngress (group_id flintrock_group) rule))
        (unless_duplicate ("Error adding rule: " +:+ rule_repr rule)).

(** The host name lookup [gethostbyname(gethostname())] is one request and
    so is the reading of the address service, whose answer is the decoded
    and stripped text. The base group is created, when it is missing,
    after both lookups and before the client addresses are determined; the
    cluster group after the client rules. *)
Definition get_or_create_ec2_security_groups {V}
    (cluster_name vpc_id region : string) : W V (list SecurityGroup) :=
  let flintrock_group_name := "flintrock" in
  let cluster_group_name := "flintrock-" +:+ cluster_name in
  let* found_flintrock :=
    ask (world_groups world)
      (Core (DescribeSecurityGroups flintrock_group_name vpc_id)) in
  let* found_cluster :=
    ask (world_groups world)
      (Core (DescribeSecurityGroups cluster_group_name vpc_id)) in
  let* flintrock_group :=
    found_or_created found_flintrock
      (CreateSecurityGroup flintrock_group_name "Flintrock base group"
         vpc_id) in
  let* host_ip := ask (world_text world) GetHostByName in
  let* public_ip :=
    ask (world_text world) (UrlOpen "http://checkip.amazonaws.com/") in
  let flintrock_client_cidrs :=
    (λ fcip, fcip +:+ "/32") <$> [host_ip; public_ip] in
  w_for_each (client_rules flintrock_client_cidrs)
    (authorize_client_rule flintrock_group);;;
  let* cluster_group :=
    found_or_created found_cluster
      (CreateSecurityGroup cluster_group_name "Flintrock cluster group"
         vpc_id) in
  w_try (ask (world_unit world)
           (AuthorizeIngressFromGroup (group_id cluster_group)
              (group_id cluster_group)))
        (unless_duplicate "Error authorizing cluster ingress to self.");;;
  w_ret [flintrock_group; cluster_group].

(** ** Remote operations: [run_command], [copy_file] *)

Definition run_command_check : W EC2Cluster unit :=
  let* self := w_get in
  if decide (state self ≠ "running") then
    w_fail (Plain (ClusterInvalidState "run-command" (state self)))
  else w_ret tt.

(** Modelled from the spec: [FlintrockCluster.run_command] and
    [FlintrockCluster.copy_file] (flintrock/core.py) are defined outside
    this file. As for the other generic hooks, the call is a recorded
    request that returns or raises as the world decides and leaves the
    instance references of the cluster as they are. *)
Definition super_hook (q : Request) : W EC2Cluster unit :=
  ask (world_unit world) q.

Definition run_command (master_only : bool)
    (command user identity_file : string) : W EC2Cluster unit :=
  run_command_check;;;
  super_hook (SuperRunCommand master_only command user identity_file).

Definition copy_file_check : W EC2Cluster unit :=
  let* self := w_get in
  if decide (state self ≠ "running") then
    w_fail (Plain (ClusterInvalidState "copy-file" (state self)))
  else w_ret tt.

Definition copy_file (local_path remote_path : string) (master_only : bool)
    (user identity_file : string) : W EC2Cluster unit :=
  copy_file_check;;;
  super_hook
    (SuperCopyFile local_path remote_path master_only user identity_file).

(** ** [launch] *)

(** [if not vpc_id: ... else: check_network_config(...)]: the VPC id the
    rest of [launch] works with. *)
Definition launch_resolve_vpc {V} (args : LaunchArgs) (subnet_id : string)
  : W V string :=
  if decide (launch_vpc_id args = "") then
    get_default_vpc world (launch_region args)
  else
    check_network_config world (launch_region args) (launch_vpc_id args)
      subnet_id;;;
    w_ret (launch_vpc_id args).

(** [try: get_cluster(...)  except ClusterNotFound: pass
     else: raise ClusterAlreadyExists(...)] *)
Definition launch_check_absent {V} (args : LaunchArgs) (vpc_id : string)
  : W V unit :=
  λ s, match get_cluster world (cluster_name args) (launch_region args)
               vpc_id s with
       | (Returned _, s') =>
           (Failed (ClusterAlreadyExists
                      ("Cluster " +:+ cluster_name args
                       +:+ " already exists in region " +:+ launch_region args
                       +:+ ", VPC " +:+ vpc_id +:+ ".")), s')
       | (Failed (ClusterNotFound _), s') => (Returned tt, s')
       | (Failed f, s') => (Failed f, s')
       | (Unfinished, s') => (Unfinished, s')
       end.

(** The handler of the second [try]: an unknown image is reported by an
    [Error], any other [ClientError] is raised again. *)
Definition image_not_found {V A} (ami region : string) (f : Failure)
  : option (W V A) :=
  match f with
  | Plain (ClientError code) =>
      Some (if decide (code = "InvalidAMIID.NotFound")
            then w_fail (Plain (Error ("Error: Could not find " +:+ ami
                                       +:+ " in region " +:+ region +:+ ".")))
            else w_fail f)
  | _ => None
  end.

Definition launch_prepare {V} (args : LaunchArgs) (vpc_id ami : string)
  : W V (list SecurityGroup * list BlockDevice) :=
  w_try
    (let* security_groups :=
       get_or_create_ec2_security_groups (cluster_name args) vpc_id
         (launch_region args) in
     let* block_device_mappings :=
       run_core world tt (λ env, get_ec2_block_device_mappings env ami) in
     w_ret (security_groups, fst block_device_mappings))
    (image_not_found ami (launch_region args)).

(** The arguments after [vpc_id] has been rebound. *)
Definition with_vpc (args : LaunchArgs) (vpc_id : string) : LaunchArgs :=
  mkLaunchArgs (cluster_name args) (num_slaves args) (assume_yes args)
    (launch_region args) vpc_id (launch_user args)
    (launch_identity_file args) (spot_price args).

Definition launch {V} (fuel : nat) (args : LaunchArgs)
    (subnet_id ami : string) : W V unit :=
  let* vpc_id := launch_resolve_vpc args subnet_id in
  launch_check_absent args vpc_id;;;
  launch_prepare args vpc_id ami;;;
  run_core world (mkLaunchVars [] [])
    (λ env, launch_try_except env (with_vpc args vpc_id) fuel);;;
  w_ret tt.

End Provision.

(** ** Vocabulary for network access and [launch] *)

(** The creation request issued for a group the lookup did not find. *)
Definition creation (found : list SecurityGroup) (create : Request)
  : list Request :=
  match found with
  | [] => [create]
  | _ :: _ => []
  end.

(** The group the function goes on with is the first one found. *)
Definition first_found (found : list SecurityGroup) (g : SecurityGroup)
  : Prop :=
  match found with
  | g' :: _ => g = g'
  | [] => True
  end.

(** The request [q], issued after the requests [h], was answered by an
    exception that ends the run with [f]: a [ClientError] other than a
    duplicate permission is replaced by an [Exception] with the message
    [msg], an exception that is not a [ClientError] is passed on. *)
Definition rejected (world : World) (h : list Request) (q : Request)
    (msg : string) (f : Failure) : Prop :=
  ∃ e, world_unit world h q = Raise e
       ∧ match e with
         | ClientError code =>
             code ≠ "InvalidPermission.Duplicate"
             ∧ f = Plain (Exception msg)
         | _ => f = Plain e
         end.

(** The answer to an authorization is a success or a duplicate. *)
Definition granted_or_duplicate (r : result unit) : Prop :=
  r = Ok tt ∨ r = Raise (ClientError "InvalidPermission.Duplicate").

Definition is_authorization (q : Request) : bool :=
  match q with
  | AuthorizeIngress _ _ | AuthorizeIngressFromGroup _ _ => true
  | _ => false
  end.

(** The request [q], issued after [h], was answered by the exception
    [e]. *)
Definition refused (world : World) (h : list Request) (q : Request)
    (e : Exn) : Prop :=
  world_groups world h q = Raise e
  ∨ world_group world h q = Raise e
  ∨ world_text world h q = Raise e.

(** Requests that only read the provider's inventory. *)
Definition lookup_only (q : Request) : Prop :=
  match q with
  | DescribeDefaultVpcs | DescribeVpcAttribute _ _
  | DescribeInstancesInGroups _ _ => True
  | _ => False
  end.

(** Requests that acquire instances: a bulk create or a spot bid. *)
Definition is_acquisition (q : Request) : bool :=
  match q with
  | Core (CreateInstances _) | Core (RequestSpotInstances _ _) => true
  | _ => false
  end.

(** The one acquisition request of a launch with the arguments [args]. *)
Definition acquisition_request (args : LaunchArgs) : Request :=
  Core (match spot_price args with
        | None => CreateInstances (num_slaves args + 1)
        | Some price => RequestSpotInstances price (num_slaves args + 1)
        end).

(** Whatever its outcome, the program [m] leaves the local variables as
    they are and issues only requests that satisfy [P]. *)
Definition confined {V A} (P : Request → Prop) (m : W V A) : Prop :=
  ∀ s o s', m s = (o, s') →
            locals s' = locals s
            ∧ ∃ t, calls s' = calls s ++ t ∧ Forall P t.

(** A world in which both groups exist and every rule is already there. *)
Definition settled_world : World :=
  mkWorld (λ _ q, match q with
                  | AuthorizeIngress _ _ | AuthorizeIngressFromGroup _ _ =>
                      Raise (ClientError "InvalidPermission.Duplicate")
                  | _ => Ok tt
                  end)
          (λ _ _, Ok true) (λ _ _, Ok "203.0.113.7")
          (λ _ _, Ok ["vpc-default"])
          (λ _ _, Ok base_group)
          (λ _ q, match q with
                  | Core (DescribeSecurityGroups g _) =>
                      Ok [mkGroup ("sg-" +:+ g) g]
                  | _ => Ok []
                  end)
          (λ _ _, Ok []) (λ _ _, Ok [])
          (λ _ _, Raise (ClientError "InvalidAMIID.NotFound"))
          (λ _ _, Ok []).

(** A world that rejects the rule for port 4040. *)
Definition strict_world : World :=
  mkWorld (λ _ q, match q with
                  | AuthorizeIngress _ rule =>
                      if decide (from_port rule = 4040%Z)
                      then Raise (ClientError "RulesPerSecurityGroupLimitExceeded")
                      else Ok tt
                  | _ => Ok tt
                  end)
          (λ _ _, Ok true) (λ _ _, Ok "203.0.113.7")
          (λ _ _, Ok ["vpc-default"])
          (λ _ q, match q with
                  | CreateSecurityGroup g _ _ => Ok (mkGroup ("sg-" +:+ g) g)
                  | _ => Ok base_group
                  end)
          (λ _ _, Ok []) (λ _ _, Ok []) (λ _ _, Ok [])
          (λ _ _, Ok []) (λ _ _, Ok []).

Definition rule_name (rule : SecurityGroupRule) : string :=
  "tcp " +:+ pretty (from_port rule) +:+ "-" +:+ pretty (to_port rule)
  +:+ " " +:+ cidr_ip rule.

(** The message of the [Exception] that replaces a [ClientError] answered
    to the authorization [q]. *)
Definition authorization_message (rule_repr : SecurityGroupRule → string)
    (q : Request) : string :=
  match q with
  | AuthorizeIngress _ rule => "Error adding rule: " +:+ rule_repr rule
  | _ => "Error authorizing cluster ingress to self."
  end.

(** A world in which an on-demand launch of the sample cluster goes
    through: no cluster of the name is listed, the image is backed by an
    instance store, the created instances are first pending and then
    running. *)
Definition launch_world (listing : list RawInstance) : World :=
  mkWorld (λ _ _, Ok tt) (λ _ _, Ok true) (λ _ _, Ok "203.0.113.7")
          (λ _ _, Ok ["vpc-default"])
          (λ _ q, match q with
                  | CreateSecurityGroup g _ _ => Ok (mkGroup ("sg-" +:+ g) g)
                  | _ => Ok base_group
                  end)
          (λ _ _, Ok []) (λ _ _, Ok listing)
          (λ _ q, match q with
                  | Core (CreateInstances _) => Ok fresh_instances
                  | _ => Ok [running_master; running_slave]
                  end)
          (λ _ _, Ok [image_instance_store]) (λ _ _, Ok []).

(** The calls of that launch. *)
Definition launch_world_calls : list Request :=
  Eval vm_compute in
    calls (snd (launch (launch_world []) rule_name 3 on_demand_args
                  "subnet-1" "ami-1" (mkScene tt []))).

(** * Properties *)

(** ** Aggregate state *)

Lemma elem_of_instance_states (self : EC2Cluster) (s : string) :
  s ∈ instance_states self ↔ ∃ i, i ∈ instances self ∧ instance_state i = s.
Proof.
  unfold instance_states. rewrite elem_of_list_to_set, list_elem_of_fmap.
  split.
  - intros (i & -> & Hi). eauto.
  - intros (i & Hi & <-). eauto.
Qed.

Lemma master_in_instances (self : EC2Cluster) :
  master_instance self ∈ instances self.
Proof. unfold instances. simpl. left. Qed.

Lemma state_uniform (self : EC2Cluster) (s : string) :
  (∀ i, i ∈ instances self → instance_state i = s) → state self = s.
Proof.
  intros Hall. unfold state.
  assert (instance_states self = {[s]}) as ->.
  { apply set_eq. intros x. rewrite elem_of_instance_states, elem_of_singleton.
    split.
    - intros (i & Hi & <-). auto.
    - intros ->. exists (master_instance self).
      split; [apply master_in_instances | apply Hall, master_in_instances]. }
  by rewrite elements_singleton.
Qed.

Lemma state_disagree (self : EC2Cluster) (i j : Instance) :
  i ∈ instances self → j ∈ instances self →
  instance_state i ≠ instance_state j → state self = "inconsistent".
Proof.
  intros Hi Hj Hne. unfold state.
  destruct (elements (instance_states self)) as [|x [|y l]] eqn:E; try done.
  exfalso. apply Hne.
  assert (∀ k, k ∈ instances self → instance_state k = x) as Hx.
  { intros k Hk.
    assert (instance_state k ∈ elements (instance_states self)) as Hin.
    { apply elem_of_elements, elem_of_instance_states. eauto. }
    rewrite E in Hin. by apply list_elem_of_singleton in Hin. }
  by rewrite (Hx i Hi), (Hx j Hj).
Qed.

(** C1. The aggregate state of a cluster is the provider state shared by
    all of its instances (master and workers) when they all report the same
    one, and the sentinel ["inconsistent"] as soon as two of them report
    different states. *)
Theorem state_aggregate (self : EC2Cluster) :
  (∀ s, (∀ i, i ∈ instances self → instance_state i = s) → state self = s)
  ∧ (∀ i j, i ∈ instances self → j ∈ instances self →
       instance_state i ≠ instance_state j → state self = "inconsistent").
Proof.
  split.
  - intros s. apply state_uniform.
  - intros i j. apply state_disagree.
Qed.

Lemma state_aggregate_witness :
  state running_cluster = "running" ∧ state mixed_cluster = "inconsistent".
Proof.
  split.
  - apply (proj1 (state_aggregate running_cluster)).
    intros i Hi. unfold instances in Hi. simpl in Hi.
    repeat (apply elem_of_cons in Hi as [-> | Hi]; [reflexivity |]).
    by apply elem_of_nil in Hi.
  - apply (proj2 (state_aggregate mixed_cluster) running_master stopped_slave).
    + unfold instances; simpl. left.
    + unfold instances; simpl. right. right. left.
    + simpl. discriminate.
Defined.

(** ** Role classification *)

Lemma scan_tags_ok i ts m ss m' ss' :
  scan_tags i ts m ss = Ok (m', ss') →
  (Exists (λ t, Key t = "flintrock-role" ∧ Value t = "master") ts →
     m = None ∧ m' = Some i)
  ∧ (¬ Exists (λ t, Key t = "flintrock-role" ∧ Value t = "master") ts →
     m' = m)
  ∧ ∃ k, ss' = ss ++ replicate k i
         ∧ (0 < k →
            Exists (λ t, Key t = "flintrock-role" ∧ Value t = "slave") ts).
Proof.
  revert ss. induction ts as [|t ts IH]; intros ss; simpl.
  - intros [= <- <-]. split; [|split].
    + intros H. by apply Exists_nil in H.
    + done.
    + exists 0. simpl. rewrite app_nil_r. split; [done | lia].
  - destruct (decide (Key t = "flintrock-role")) as [Hk|Hk].
    + destruct (decide (Value t = "master")) as [Hm|Hm].
      * destruct m; [done|]. intros [= <- <-]. split; [|split].
        -- done.
        -- intros H. exfalso. apply H. by left.
        -- exists 0. simpl. rewrite app_nil_r. split; [done | lia].
      * destruct (decide (Value t = "slave")) as [Hs|Hs].
        -- intros H. apply IH in H as (H1 & H2 & k & -> & Hk').
           split; [|split].
           ++ intros [[_ ?]|?]%Exists_cons; [done | auto].
           ++ intros H. apply H2. intros ?. apply H. by right.
           ++ exists (S k). split.
              ** by rewrite <- app_assoc.
              ** intros _. by left.
        -- intros H. apply IH in H as (H1 & H2 & k & -> & Hk').
           split; [|split].
           ++ intros [[_ ?]|?]%Exists_cons; [done | auto].
           ++ intros H. apply H2. intros ?. apply H. by right.
           ++ exists k. split; [done|]. intros ?. right. auto.
    + intros H. apply IH in H as (H1 & H2 & k & -> & Hk').
      split; [|split].
      * intros [[? _]|?]%Exists_cons; [done | auto].
      * intros H. apply H2. intros ?. apply H. by right.
      * exists k. split; [done|]. intros ?. right. auto.
Qed.

Lemma scan_tags_raise i ts m ss e :
  scan_tags i ts m ss = Raise e →
  e = Exception "More than one master found."
  ∧ is_Some m
  ∧ Exists (λ t, Key t = "flintrock-role" ∧ Value t = "master") ts.
Proof.
  revert ss. induction ts as [|t ts IH]; intros ss; simpl; [done|].
  destruct (decide (Key t = "flintrock-role")) as [Hk|Hk].
  - destruct (decide (Value t = "master")) as [Hm|Hm].
    + destruct m; [|done]. intros [= <-]. split; [done|]. split; [eauto|].
      by left.
    + destruct (decide (Value t = "slave"));
        intros (? & ? & ?)%IH; (split; [done|]); (split; [done|]); by right.
  - intros (? & ? & ?)%IH. split; [done|]. split; [done|]. by right.
Qed.

(** A master tag is always acted upon: with no master yet the instance
    becomes the master, otherwise the scan fails. *)
Lemma scan_tags_master i ts m ss :
  Exists (λ t, Key t = "flintrock-role" ∧ Value t = "master") ts →
  match m with
  | Some _ => scan_tags i ts m ss = Raise (Exception "More than one master found.")
  | None => ∃ ss', scan_tags i ts m ss = Ok (Some i, ss')
  end.
Proof.
  intros Hex. destruct (scan_tags i ts m ss) as [[m' ss']|e] eqn:E.
  - apply scan_tags_ok in E as (H1 & _). destruct (H1 Hex) as [-> ->]. eauto.
  - apply scan_tags_raise in E as (-> & [x ->] & _). done.
Qed.

(** An instance without master or slave role tag leaves both accumulators
    as they are. *)
Lemma scan_tags_untagged i ts m ss :
  ¬ Exists (λ t, Key t = "flintrock-role" ∧ Value t = "master") ts →
  ¬ Exists (λ t, Key t = "flintrock-role" ∧ Value t = "slave") ts →
  scan_tags i ts m ss = Ok (m, ss).
Proof.
  intros Hm Hs. destruct (scan_tags i ts m ss) as [[m' ss']|e] eqn:E.
  - apply scan_tags_ok in E as (_ & H2 & k & -> & Hk).
    rewrite (H2 Hm). destruct k as [|k].
    + simpl. by rewrite app_nil_r.
    + exfalso. apply Hs, Hk. lia.
  - apply scan_tags_raise in E as (_ & _ & ?). done.
Qed.

Lemma scan_instances_ok l m ss m' ss' :
  scan_instances l m ss = Ok (m', ss') →
  ((masters l = [] ∧ m' = m)
   ∨ (m = None ∧ ∃ i, masters l = [i] ∧ m' = Some i))
  ∧ ∃ extra, ss' = ss ++ extra
             ∧ Forall (λ i, i ∈ l ∧ tagged "slave" i) extra.
Proof.
  revert m ss. induction l as [|i l IH]; intros m ss; simpl.
  - intros [= <- <-]. split; [by left|]. exists []. by rewrite app_nil_r.
  - destruct (scan_tags i (instance_tags i) m ss) as [[m1 ss1]|e] eqn:E;
      [|done].
    intros H. apply IH in H as (Hm & extra & -> & Hextra).
    apply scan_tags_ok in E as (H1 & H2 & k & -> & Hk).
    unfold masters in *. rewrite filter_cons.
    split.
    + destruct (decide (tagged "master" i)) as [Ht|Ht].
      * destruct (H1 Ht) as [-> ->]. right. split; [done|].
        destruct Hm as [[-> ->]|[? _]]; [eauto | done].
      * rewrite (H2 Ht) in Hm. done.
    + exists (replicate k i ++ extra). split; [by rewrite app_assoc|].
      apply Forall_app. split.
      * apply Forall_forall. intros x [-> Hk0]%elem_of_replicate.
        split; [left | apply Hk; lia].
      * eapply Forall_impl; [exact Hextra|]. intros x [? ?].
        split; [by right | done].
Qed.

Lemma scan_instances_raise l m ss e :
  scan_instances l m ss = Raise e →
  e = Exception "More than one master found."
  ∧ masters l ≠ [] ∧ (m = None → ∃ i j r, masters l = i :: j :: r).
Proof.
  revert m ss. induction l as [|i l IH]; intros m ss; simpl; [done|].
  unfold masters in *. rewrite filter_cons.
  destruct (scan_tags i (instance_tags i) m ss) as [[m1 ss1]|e1] eqn:E.
  - intros H. apply IH in H as (-> & Hne & Htwo).
    apply scan_tags_ok in E as (H1 & H2 & _).
    split; [done|].
    destruct (decide (tagged "master" i)) as [Ht|Ht].
    + split; [done|]. intros _.
      destruct (filter (tagged "master") l) as [|j r]; [done|]. eauto.
    + split; [done|]. intros ->. apply Htwo. by apply H2.
  - intros [= <-]. apply scan_tags_raise in E as (-> & [x ->] & Ht).
    split; [done|]. rewrite decide_True by done. done.
Qed.

Lemma scan_instances_two_masters l m ss i j r :
  masters l = i :: j :: r →
  scan_instances l m ss = Raise (Exception "More than one master found.").
Proof.
  intros Hm. destruct (scan_instances l m ss) as [[m' ss']|e] eqn:E.
  - apply scan_instances_ok in E as ([[E1 _]|[_ (x & E1 & _)]] & _);
      rewrite Hm in E1; done.
  - apply scan_instances_raise in E as (-> & _). done.
Qed.

Lemma get_cluster_master_slaves_ok l m ss :
  _get_cluster_master_slaves l = Ok (m, ss) →
  masters l = [m] ∧ ss ≠ [] ∧ Forall (λ i, i ∈ l ∧ tagged "slave" i) ss.
Proof.
  unfold _get_cluster_master_slaves.
  destruct (scan_instances l None []) as [[m' ss']|e] eqn:E; [|done].
  apply scan_instances_ok in E as (Hm & extra & -> & Hex). simpl.
  destruct Hm as [[_ ->]|[_ (i & Hi & ->)]]; [done|].
  destruct extra as [|x extra]; [done|]. intros [= <- <-]. done.
Qed.

Lemma get_cluster_master_slaves_no_master l :
  masters l = [] →
  _get_cluster_master_slaves l = Raise (Exception "No master found.").
Proof.
  intros Hm. unfold _get_cluster_master_slaves.
  destruct (scan_instances l None []) as [[m' ss']|e] eqn:E.
  - apply scan_instances_ok in E as ([[_ ->]|[_ (i & Hi & _)]] & _).
    + done.
    + rewrite Hm in Hi. done.
  - apply scan_instances_raise in E as (_ & Hne & _). done.
Qed.

Lemma get_cluster_master_slaves_two_masters l :
  1 < length (masters l) →
  _get_cluster_master_slaves l
  = Raise (Exception "More than one master found.").
Proof.
  intros Hlen. unfold _get_cluster_master_slaves.
  destruct (masters l) as [|i [|j r]] eqn:Hm; simpl in Hlen; [lia | lia |].
  by rewrite (scan_instances_two_masters l None [] i j r Hm).
Qed.

Lemma get_cluster_master_slaves_no_worker l :
  workers l = [] → ∃ e, _get_cluster_master_slaves l = Raise e.
Proof.
  intros Hw. destruct (_get_cluster_master_slaves l) as [[m ss]|e] eqn:E;
    [|eauto].
  apply get_cluster_master_slaves_ok in E as (_ & Hne & Hall).
  destruct ss as [|x ss]; [done|]. apply Forall_cons in Hall as [[Hx Ht] _].
  assert (x ∈ workers l) as Hin by (by apply list_elem_of_filter).
  rewrite Hw in Hin. by apply elem_of_nil in Hin.
Qed.

(** C6. A cluster composed from raw instances has exactly one instance
    tagged master among them, which is its master, and at least one worker,
    every worker being an input instance tagged slave; an input with no
    master, with more than one master, or with no worker yields an error
    and no cluster. *)
Theorem compose_cluster_roles (n r v : string) (l : list Instance) :
  (∀ c, _compose_cluster n r v l = Ok c →
     masters l = [master_instance c]
     ∧ slave_instances c ≠ []
     ∧ Forall (λ i, i ∈ l ∧ tagged "slave" i) (slave_instances c))
  ∧ (masters l = [] →
     _compose_cluster n r v l = Raise (Exception "No master found."))
  ∧ (1 < length (masters l) →
     _compose_cluster n r v l
     = Raise (Exception "More than one master found."))
  ∧ (workers l = [] → ∃ e, _compose_cluster n r v l = Raise e).
Proof.
  unfold _compose_cluster. repeat split.
  - destruct (_get_cluster_master_slaves l) as [[m ss]|e] eqn:E; [|done].
    injection H as <-. simpl.
    by apply get_cluster_master_slaves_ok in E as (? & _).
  - destruct (_get_cluster_master_slaves l) as [[m ss]|e] eqn:E; [|done].
    injection H as <-. simpl.
    by apply get_cluster_master_slaves_ok in E as (_ & ? & _).
  - destruct (_get_cluster_master_slaves l) as [[m ss]|e] eqn:E; [|done].
    injection H as <-. simpl.
    by apply get_cluster_master_slaves_ok in E as (_ & _ & ?).
  - intros Hm. by rewrite get_cluster_master_slaves_no_master.
  - intros Hm. by rewrite get_cluster_master_slaves_two_masters.
  - intros Hw. destruct (get_cluster_master_slaves_no_worker l Hw) as [e ->].
    eauto.
Qed.

Lemma compose_cluster_roles_witness :
  (_compose_cluster "test" "us-east-1" "vpc-1" [running_slave; running_master]
   = Ok running_cluster
   ∧ masters [running_slave; running_master] = [running_master])
  ∧ (masters [running_slave; stopped_slave] = []
     ∧ _compose_cluster "test" "us-east-1" "vpc-1"
         [running_slave; stopped_slave]
       = Raise (Exception "No master found."))
  ∧ (1 < length (masters [running_master; running_master; running_slave])
     ∧ _compose_cluster "test" "us-east-1" "vpc-1"
         [running_master; running_master; running_slave]
       = Raise (Exception "More than one master found."))
  ∧ (workers [running_master] = []
     ∧ ∃ e, _compose_cluster "test" "us-east-1" "vpc-1" [running_master]
            = Raise e).
Proof.
  split; [|split; [|split]].
  - split; [reflexivity|].
    apply (proj1 (compose_cluster_roles "test" "us-east-1" "vpc-1"
                    [running_slave; running_master]) running_cluster).
    reflexivity.
  - split; [reflexivity|].
    apply (proj1 (proj2 (compose_cluster_roles "test" "us-east-1" "vpc-1"
                           [running_slave; stopped_slave]))).
    reflexivity.
  - split; [vm_compute; lia|].
    apply (proj1 (proj2 (proj2 (compose_cluster_roles "test" "us-east-1"
             "vpc-1" [running_master; running_master; running_slave])))).
    vm_compute. lia.
  - split; [reflexivity|].
    apply (proj2 (proj2 (proj2 (compose_cluster_roles "test" "us-east-1"
             "vpc-1" [running_master])))).
    reflexivity.
Defined.

Lemma unclassified_not_tagged i role :
  unclassified i → role = "master" ∨ role = "slave" → ¬ tagged role i.
Proof.
  intros Hu Hrole (t & Ht & Hk & Hv)%Exists_exists.
  destruct (Hu t Ht Hk) as [? ?]. destruct Hrole; congruence.
Qed.

Lemma scan_instances_unclassified l1 i l2 m ss :
  unclassified i →
  scan_instances (l1 ++ i :: l2) m ss = scan_instances (l1 ++ l2) m ss.
Proof.
  intros Hu. revert m ss. induction l1 as [|x l1 IH]; intros m ss; simpl.
  - rewrite scan_tags_untagged; [done | |].
    + apply (unclassified_not_tagged i "master" Hu). by left.
    + apply (unclassified_not_tagged i "slave" Hu). by right.
  - destruct (scan_tags x (instance_tags x) m ss) as [[m1 ss1]|e]; [|done].
    apply IH.
Qed.

(** An instance that has a list of tags, none of them a role tag of value
    master or slave, is passed over when the master/worker split is
    derived: the result, error or not, is the one obtained without it,
    scanning its tags raises nothing and changes neither the master nor
    the worker list, the instance is neither the master nor among the
    workers of the cluster built, and the cluster and its aggregate state
    are those built from the other instances. *)
Theorem unclassified_instance_excluded
    (n r v : string) (l1 l2 : list Instance) (i : Instance) :
  unclassified i →
  _get_cluster_master_slaves (l1 ++ i :: l2)
  = _get_cluster_master_slaves (l1 ++ l2)
  ∧ (∀ master slaves,
       scan_tags i (instance_tags i) master slaves = Ok (master, slaves))
  ∧ ∀ c, _compose_cluster n r v (l1 ++ i :: l2) = Ok c →
      master_instance c ≠ i ∧ (i ∉ slave_instances c)
      ∧ ∃ c', _compose_cluster n r v (l1 ++ l2) = Ok c'
              ∧ instances c' = instances c ∧ state c' = state c.
Proof.
  intros Hu.
  assert (_get_cluster_master_slaves (l1 ++ i :: l2)
          = _get_cluster_master_slaves (l1 ++ l2)) as Heq.
  { unfold _get_cluster_master_slaves.
    by rewrite scan_instances_unclassified. }
  split; [done|]. split.
  { intros master slaves. apply scan_tags_untagged.
    - apply (unclassified_not_tagged i "master" Hu). by left.
    - apply (unclassified_not_tagged i "slave" Hu). by right. }
  intros c Hc.
  assert (_compose_cluster n r v (l1 ++ l2) = Ok c) as Hc'.
  { unfold _compose_cluster in *. by rewrite <- Heq. }
  unfold _compose_cluster in Hc.
  destruct (_get_cluster_master_slaves (l1 ++ i :: l2)) as [[m ss]|e] eqn:E;
    [|done].
  injection Hc as <-. cbn [master_instance slave_instances].
  apply get_cluster_master_slaves_ok in E as (Hm & _ & Hss).
  split; [|split].
  - intros ->.
    assert (i ∈ masters (l1 ++ i :: l2)) as Hin by (rewrite Hm; left).
    apply list_elem_of_filter in Hin as [Ht _].
    revert Ht. apply unclassified_not_tagged; auto.
  - intros Hin. rewrite Forall_forall in Hss. destruct (Hss i Hin) as [_ Ht].
    revert Ht. apply unclassified_not_tagged; auto.
  - eexists. split; [exact Hc'|]. done.
Qed.

Lemma unclassified_instance_excluded_witness :
  unclassified bystander
  ∧ _get_cluster_master_slaves [running_master; bystander; running_slave]
    = _get_cluster_master_slaves [running_master; running_slave].
Proof.
  assert (unclassified bystander) as Hu.
  { intros t Ht Hk. unfold bystander in Ht. simpl in Ht.
    apply elem_of_cons in Ht as [-> | Ht]; [simpl in Hk; discriminate|].
    apply elem_of_cons in Ht as [-> | Ht]; [simpl; split; discriminate|].
    by apply elem_of_nil in Ht. }
  split; [exact Hu|].
  exact (proj1 (unclassified_instance_excluded "test" "us-east-1" "vpc-1"
                  [running_master] [running_slave] bystander Hu)).
Defined.

(** *** Instances without tags *)

Lemma described_scan_tags_snapshot d ts m ss :
  scan_tags (snapshot d) ts (snapshot <$> m) (snapshot <$> ss)
  = match Described.scan_tags d ts m ss with
    | Ok (m', ss') => Ok (snapshot <$> m', snapshot <$> ss')
    | Raise e => Raise e
    end.
Proof.
  revert ss. induction ts as [|t ts IH]; intros ss; simpl; [done|].
  destruct (decide (Key t = "flintrock-role")); [|apply IH].
  destruct (decide (Value t = "master")); [by destruct m|].
  destruct (decide (Value t = "slave")); [|apply IH].
  rewrite <- (IH (ss ++ [d])). by rewrite fmap_app.
Qed.

Lemma described_scan_instances_snapshot l m ss :
  Forall (λ d, is_Some (described_tags d)) l →
  scan_instances (snapshot <$> l) (snapshot <$> m) (snapshot <$> ss)
  = match Described.scan_instances l m ss with
    | Ok (m', ss') => Ok (snapshot <$> m', snapshot <$> ss')
    | Raise e => Raise e
    end.
Proof.
  intros Hall. revert m ss.
  induction Hall as [|d l [ts Hts] _ IH]; intros m ss; [done|].
  cbn [fmap list_fmap scan_instances Described.scan_instances].
  assert (instance_tags (snapshot d) = ts) as Htags
    by (unfold snapshot; cbn [instance_tags]; by rewrite Hts).
  rewrite Htags, Hts, described_scan_tags_snapshot.
  destruct (Described.scan_tags d ts m ss) as [[m1 ss1]|e]; [|done].
  apply IH.
Qed.

(** On instances that all have tags, classifying the described instances
    and classifying their snapshots is the same thing. *)
Lemma described_classification_snapshot l :
  Forall (λ d, is_Some (described_tags d)) l →
  _get_cluster_master_slaves (snapshot <$> l)
  = snapshots (Described._get_cluster_master_slaves l).
Proof.
  intros Hall.
  unfold _get_cluster_master_slaves, Described._get_cluster_master_slaves.
  pose proof (described_scan_instances_snapshot l None [] Hall) as H.
  cbn [fmap option_fmap option_map list_fmap] in H. rewrite H.
  destruct (Described.scan_instances l None []) as [[[m|] [|x ss]]|e]; done.
Qed.

Lemma described_scan_instances_app l1 l2 m ss :
  Described.scan_instances (l1 ++ l2) m ss
  = match Described.scan_instances l1 m ss with
    | Ok (m', ss') => Described.scan_instances l2 m' ss'
    | Raise e => Raise e
    end.
Proof.
  revert m ss. induction l1 as [|d l1 IH]; intros m ss; [done|].
  cbn [app Described.scan_instances].
  destruct (described_tags d) as [ts|]; [|done].
  destruct (Described.scan_tags d ts m ss) as [[m1 ss1]|e]; [|done].
  apply IH.
Qed.

(** C10 (code bug). An instance that has no tag at all carries no role
    tag, but it is not passed over: its [tags] attribute is [None], and
    the classifier raises [TypeError] as soon as its scan reaches the
    instance. Whatever the other instances are, no master/worker split is
    derived from a listing that contains such an instance. *)
Theorem untagged_instance_raises (l1 l2 : list DescribedInstance)
    (u : DescribedInstance) :
  described_tags u = None →
  Described._get_cluster_master_slaves (l1 ++ u :: l2)
  = match Described.scan_instances l1 None [] with
    | Ok _ => Raise TypeError
    | Raise e => Raise e
    end
  ∧ ∀ m ss, Described._get_cluster_master_slaves (l1 ++ u :: l2) ≠ Ok (m, ss).
Proof.
  intros Hu.
  assert (Described._get_cluster_master_slaves (l1 ++ u :: l2)
          = match Described.scan_instances l1 None [] with
            | Ok _ => Raise TypeError
            | Raise e => Raise e
            end) as Hrun.
  { unfold Described._get_cluster_master_slaves.
    rewrite described_scan_instances_app.
    destruct (Described.scan_instances l1 None []) as [[m1 ss1]|e]; [|done].
    cbn [Described.scan_instances]. by rewrite Hu. }
  split; [exact Hrun|]. intros m ss. rewrite Hrun.
  by destruct (Described.scan_instances l1 None []).
Qed.

Lemma untagged_instance_raises_witness :
  Described._get_cluster_master_slaves
    ([described_master; described_slave] ++ untagged :: [])
  = Raise TypeError
  ∧ Described._get_cluster_master_slaves [described_master; described_slave]
    = Ok (described_master, [described_slave])
  ∧ ∀ m ss, Described._get_cluster_master_slaves
              ([described_master; described_slave] ++ untagged :: [])
            ≠ Ok (m, ss).
Proof.
  destruct (untagged_instance_raises [described_master; described_slave] []
              untagged eq_refl) as [Hrun Hnot].
  split; [exact Hrun|]. split; [reflexivity | exact Hnot].
Defined.

(** ** Block-device planning *)

Lemma ephemeral_devices_12 :
  ephemeral_devices (seq 0 12) = Ok twelve_ephemeral_slots.
Proof. vm_compute. reflexivity. Qed.

Lemma root_device_entries_small (image : Image) (n : Z) :
  root_device_type image = "ebs" →
  declared_root_size image = Some n → (n < 30)%Z →
  is_Some (root_encryption_flag image) →
  ∃ root ebs,
    root_device_entries image = Ok [root]
    ∧ DeviceName root = root_device_name image
    ∧ Ebs root = Some ebs
    ∧ ebs !! "VolumeSize" = Some (EInt 30)
    ∧ ebs !! "VolumeType" = Some (EStr "gp2")
    ∧ ebs !! "Encrypted" = None.
Proof.
  intros Htype Hsize Hlt [flag Hflag].
  unfold declared_root_size, root_encryption_flag, root_ebs, root_device_of
    in *.
  unfold root_device_entries. rewrite decide_True by done.
  destruct (filter _ (block_device_mappings image)) as [|d ds] eqn:Hf;
    simpl in *; [done|].
  assert (DeviceName d = root_device_name image) as Hname.
  { assert (d ∈ filter (λ d, DeviceName d = root_device_name image)
                  (block_device_mappings image)) as Hin
      by (rewrite Hf; left).
    by apply list_elem_of_filter in Hin as [? _]. }
  destruct (Ebs d) as [ebs|]; [|done].
  destruct (ebs !! "VolumeSize") as [[m| |]|] eqn:Hv; try done.
  injection Hsize as ->. simpl.
  unfold min_root_device_size_gb. rewrite decide_True by done.
  rewrite !lookup_insert_ne by done. rewrite Hflag.
  eexists _, _. split; [reflexivity|]. simpl.
  split; [done|]. split; [reflexivity|].
  split; [|split].
  - rewrite lookup_delete_ne, lookup_insert_ne by done.
    by rewrite lookup_insert_eq.
  - rewrite lookup_delete_ne by done. by rewrite lookup_insert_eq.
  - by rewrite lookup_delete_eq.
Qed.

(** C3. On a disk-backed image whose root device entry declares a size
    below 30 GB, planning answers thirteen entries: the root entry with
    size 30, volume type gp2 and the encryption flag stripped, followed by
    the twelve ephemeral slots. No instance type enters the computation.
    The flag that is stripped is the one the root entry carries: the
    provider reports 'Encrypted' for every EBS entry of an image. *)
Theorem small_ebs_root_plan
    (env : Environment) (ami : string) (s : Frame unit)
    (image : Image) (rest : list Image) (n : Z) :
  answer_images env (trace s) (DescribeImages ami) = Ok (image :: rest) →
  root_device_type image = "ebs" →
  declared_root_size image = Some n → (n < 30)%Z →
  is_Some (root_encryption_flag image) →
  ∃ l, get_ec2_block_device_mappings env ami s
       = (Done l, mkFrame (vars s) (trace s ++ [DescribeImages ami]))
       ∧ small_root_plan image l.
Proof.
  intros Hcall Htype Hsize Hlt Hflag.
  destruct (root_device_entries_small image n Htype Hsize Hlt Hflag)
    as (root & ebs & Hroot & Hname & Hebs & H1 & H2 & H3).
  exists (root :: twelve_ephemeral_slots). split.
  - unfold get_ec2_block_device_mappings, bind, call. rewrite Hcall.
    cbn [first_item ret]. rewrite Hroot. cbn [lift_result ret].
    rewrite ephemeral_devices_12. reflexivity.
  - exists root, ebs. done.
Qed.

Lemma small_ebs_root_plan_witness :
  ∃ l, get_ec2_block_device_mappings (image_env [image_8gb]) "ami-1"
         (mkFrame tt [])
       = (Done l, mkFrame tt [DescribeImages "ami-1"])
       ∧ small_root_plan image_8gb l.
Proof.
  apply (small_ebs_root_plan (image_env [image_8gb]) "ami-1" (mkFrame tt [])
           image_8gb [] 8%Z).
  - reflexivity.
  - reflexivity.
  - reflexivity.
  - reflexivity.
  - exists (EBool false). reflexivity.
Defined.

(** The flag is removed by an unguarded [del]: on an ['Ebs'] dictionary
    without the key, which the provider does not send, the planner raises
    [KeyError] at [del root_device['Ebs']['Encrypted']]. *)
Lemma small_ebs_root_plan_needs_flag :
  get_ec2_block_device_mappings (image_env [image_8gb_no_flag]) "ami-1"
    (mkFrame tt [])
  = (Raised (KeyError "Encrypted"), mkFrame tt [DescribeImages "ami-1"]).
Proof. vm_compute. reflexivity. Qed.

(** ** State convergence *)

Lemma not_converged_false (target : string) (self : EC2Cluster) :
  existsb (λ i, bool_decide (instance_state i ≠ target)) (instances self)
  = false ↔ converged target self.
Proof.
  unfold converged. split.
  - intros H i Hi. destruct (decide (instance_state i = target)); [done|].
    assert (existsb (λ i, bool_decide (instance_state i ≠ target))
              (instances self) = true) as Ht.
    { apply existsb_exists. exists i.
      split; [by apply list_elem_of_In | by apply bool_decide_eq_true]. }
    congruence.
  - intros H. apply not_true_is_false.
    intros (i & Hi & Hb)%existsb_exists.
    apply bool_decide_eq_true in Hb. apply Hb, H. by apply list_elem_of_In.
Qed.

Lemma converged_state (target : string) (self : EC2Cluster) :
  converged target self → state self = target.
Proof. apply state_uniform. Qed.

Lemma wait_for_state_unfold env fuel target s :
  wait_for_state env fuel target s
  = if existsb (λ i, bool_decide (instance_state i ≠ target))
         (instances (vars s))
    then match fuel with
         | 0 => (OutOfFuel, s)
         | S fuel' =>
             match answer_instances env (trace s)
                     (DescribeInstances (instance_ids (vars s))) with
             | Raise e =>
                 (Raised e,
                  mkFrame (vars s)
                    (trace s ++ [DescribeInstances (instance_ids (vars s))]))
             | Ok l =>
                 match _get_cluster_master_slaves l with
                 | Raise e =>
                     (Raised e,
                      mkFrame (vars s)
                        (trace s
                         ++ [DescribeInstances (instance_ids (vars s))]))
                 | Ok (m, ss) =>
                     let c := mkCluster (name (vars s)) (region (vars s))
                                (vpc_id (vars s)) m ss in
                     let t := trace s
                              ++ [DescribeInstances (instance_ids (vars s))] in
                     match answer_unit env t (Sleep 3) with
                     | Raise e => (Raised e, mkFrame c (t ++ [Sleep 3]))
                     | Ok _ =>
                         wait_for_state env fuel' target
                           (mkFrame c (t ++ [Sleep 3]))
                     end
                 end
             end
         end
    else (Done tt, s).
Proof.
  destruct fuel as [|fuel]; cbn [wait_for_state]; unfold bind, get, ret;
    destruct (existsb _ (instances (vars s))); try reflexivity.
  unfold call at 1. cbn [vars trace].
  destruct (answer_instances env _ _) as [l|e]; [|reflexivity].
  destruct (_get_cluster_master_slaves l) as [[m ss]|e]; [|reflexivity].
  cbn [lift_result ret put vars trace]. unfold call at 1. cbn [vars trace].
  by destruct (answer_unit env _ _) as [[]|e].
Qed.

Lemma wait_for_state_converged env fuel target s :
  converged target (vars s) → wait_for_state env fuel target s = (Done tt, s).
Proof.
  intros H%not_converged_false. by rewrite wait_for_state_unfold, H.
Qed.

(** What a run of the converger leaves behind: only polls on the trace,
    and a converged cluster if it returned. *)
Lemma wait_for_state_run env fuel target s out s' :
  wait_for_state env fuel target s = (out, s') →
  ∃ w, trace s' = trace s ++ w
       ∧ Forall poll_event w
       ∧ (out = Done tt → converged target (vars s')).
Proof.
  revert s. induction fuel as [|fuel IH]; intros s;
    rewrite wait_for_state_unfold;
    destruct (existsb _ (instances (vars s))) eqn:E.
  - intros [= <- <-]. exists []. rewrite app_nil_r. done.
  - intros [= <- <-]. exists []. rewrite app_nil_r.
    split; [done|]. split; [done|]. intros _. by apply not_converged_false.
  - assert (poll_event (DescribeInstances (instance_ids (vars s)))) as Hd
      by (left; eauto).
    destruct (answer_instances env _ _) as [l|e].
    + destruct (_get_cluster_master_slaves l) as [[m ss]|e].
      * cbv zeta. destruct (answer_unit env _ _) as [u|e].
        -- intros (w & Hw & Hp & Hc)%IH. cbn [trace] in Hw.
           exists (DescribeInstances (instance_ids (vars s)) :: Sleep 3 :: w).
           split; [by rewrite Hw, <- !app_assoc|].
           split; [|done].
           apply Forall_cons_2; [done|]. apply Forall_cons_2; [by right|done].
        -- intros [= <- <-]. cbn [trace vars].
           exists [DescribeInstances (instance_ids (vars s)); Sleep 3].
           split; [by rewrite <- app_assoc|].
           split; [|done].
           apply Forall_cons_2; [done|]. apply Forall_cons_2; [by right|done].
      * intros [= <- <-]. cbn [trace vars]. eexists [_]. split; [done|].
        split; [|done]. by apply Forall_cons_2.
    + intros [= <- <-]. cbn [trace vars]. eexists [_]. split; [done|].
      split; [|done]. by apply Forall_cons_2.
  - intros [= <- <-]. exists []. rewrite app_nil_r.
    split; [done|]. split; [done|]. intros _. by apply not_converged_false.
Qed.

(** C7. On a cluster whose tracked instances all report the target state,
    [wait_for_state] returns at once, making no provider call and leaving
    the cluster as it is; whenever it returns, every tracked instance
    reports exactly the target state; hence invoking it again after it
    returned is a no-op. *)
Theorem wait_for_state_idempotent (env : Environment) (target : string) :
  (∀ fuel s, converged target (vars s) →
     wait_for_state env fuel target s = (Done tt, s))
  ∧ (∀ fuel s s', wait_for_state env fuel target s = (Done tt, s') →
       converged target (vars s'))
  ∧ (∀ fuel fuel' s s', wait_for_state env fuel target s = (Done tt, s') →
       wait_for_state env fuel' target s' = (Done tt, s')).
Proof.
  split; [|split].
  - intros fuel s. apply wait_for_state_converged.
  - intros fuel s s' (w & _ & _ & Hc)%wait_for_state_run. by apply Hc.
  - intros fuel fuel' s s' (w & _ & _ & Hc)%wait_for_state_run.
    apply wait_for_state_converged. by apply Hc.
Qed.

Lemma running_cluster_converged : converged "running" running_cluster.
Proof.
  intros i Hi. unfold instances in Hi. simpl in Hi.
  repeat (apply elem_of_cons in Hi as [-> | Hi]; [reflexivity|]).
  by apply elem_of_nil in Hi.
Qed.

Lemma wait_for_state_idempotent_witness :
  wait_for_state (steady_env "pending") 0 "running"
    (mkFrame running_cluster [])
  = (Done tt, mkFrame running_cluster [])
  ∧ converged "running" running_cluster
  ∧ wait_for_state (steady_env "running") 7 "running"
      (mkFrame running_cluster [DescribeInstances ["i-0"; "i-1"]; Sleep 3])
    = (Done tt,
       mkFrame running_cluster [DescribeInstances ["i-0"; "i-1"]; Sleep 3]).
Proof.
  pose proof (wait_for_state_idempotent (steady_env "running") "running")
    as (H1 & H2 & H3).
  assert (wait_for_state (steady_env "running") 5 "running"
            (mkFrame stopped_cluster [])
          = (Done tt, mkFrame running_cluster
                        [DescribeInstances ["i-0"; "i-1"]; Sleep 3])) as Hrun
    by reflexivity.
  split; [|split].
  - apply (proj1 (wait_for_state_idempotent (steady_env "pending") "running")).
    exact running_cluster_converged.
  - exact (H2 5 _ _ Hrun).
  - exact (H3 5 7 _ _ Hrun).
Defined.

(** ** Lifecycle guards *)

(** C2. [start] on a cluster whose aggregate state is running raises
    [NothingToDo], and [stop] on a cluster whose aggregate state is
    inconsistent raises [ClusterInvalidState]; in both cases the guard
    fires before any call is issued: the trace (hence every mutating
    provider call) and the cluster's instances are as before. *)
Theorem guard_before_mutation (env : Environment) :
  (∀ fuel user identity_file s,
     state (vars s) = "running" →
     start env fuel user identity_file s
     = (Raised (NothingToDo "Cluster is already running."), s))
  ∧ (∀ fuel s,
     state (vars s) = "inconsistent" →
     stop env fuel s
     = (Raised (ClusterInvalidState "stop" "inconsistent"), s)).
Proof.
  split.
  - intros fuel user identity_file s Hs.
    unfold start, start_check, bind, get. rewrite decide_True by done.
    reflexivity.
  - intros fuel s Hs.
    unfold stop, stop_check, bind, get. rewrite Hs.
    rewrite decide_False by done. rewrite decide_True by done.
    reflexivity.
Qed.

Lemma guard_before_mutation_witness :
  (state running_cluster = "running"
   ∧ start (steady_env "running") 3 "ec2-user" "key.pem"
       (mkFrame running_cluster [])
     = (Raised (NothingToDo "Cluster is already running."),
        mkFrame running_cluster []))
  ∧ (state mixed_cluster = "inconsistent"
     ∧ stop (steady_env "running") 3 (mkFrame mixed_cluster [])
       = (Raised (ClusterInvalidState "stop" "inconsistent"),
          mkFrame mixed_cluster [])).
Proof.
  split.
  - split; [reflexivity|].
    apply (proj1 (guard_before_mutation (steady_env "running"))).
    reflexivity.
  - split; [reflexivity|].
    apply (proj2 (guard_before_mutation (steady_env "running"))).
    reflexivity.
Defined.

(** ** Order of calls in [start] and [stop] *)

Lemma poll_event_elem (polls : list Event) (e : Event) :
  Forall poll_event polls → e ∈ polls → poll_event e.
Proof. intros H Hin. rewrite Forall_forall in H. auto. Qed.

Lemma start_run env fuel user identity_file s out s' :
  state (vars s) = "stopped" →
  start env fuel user identity_file s = (out, s') →
  ∃ t, trace s' = trace s ++ t
       ∧ provider_converge_hook (StartInstances (instance_ids (vars s)))
           (SuperStart user identity_file) t
       ∧ (SuperStart user identity_file ∈ t → converged "running" (vars s'))
       ∧ (out = Done tt → SuperStart user identity_file ∈ t).
Proof.
  intros Hs. unfold start, start_check, hook, bind, get. rewrite Hs.
  rewrite decide_False by done. rewrite decide_False by (intros H; by apply H).
  cbn [ret vars]. unfold call at 1. cbn [vars trace].
  destruct (answer_unit env (trace s) _) as [u|e].
  - destruct (wait_for_state env fuel "running" _) as [o s1] eqn:W.
    apply wait_for_state_run in W as (w & Hw & Hp & Hc). cbn [trace] in Hw.
    assert (SuperStart user identity_file ∉ w) as Hnot.
    { intros Hin. destruct (poll_event_elem w _ Hp Hin) as [[? ?]|?];
        discriminate. }
    destruct o as [[]|e|].
    + unfold call. cbn [vars trace].
      destruct (answer_unit env (trace s1) _) as [u'|e];
        intros [= <- <-]; cbn [vars trace];
        (exists (StartInstances (instance_ids (vars s))
                   :: w ++ [SuperStart user identity_file]);
         split; [by rewrite Hw, <- !app_assoc|];
         split; [exists w, [SuperStart user identity_file]; auto|];
         split; [auto|]; intros _; right; apply elem_of_app; right; left).
    + intros [= <- <-].
      exists (StartInstances (instance_ids (vars s)) :: w).
      split; [by rewrite Hw, <- app_assoc|].
      split; [exists w, []; rewrite app_nil_r; auto|].
      split; [|done]. intros [H|H]%elem_of_cons; [discriminate | done].
    + intros [= <- <-].
      exists (StartInstances (instance_ids (vars s)) :: w).
      split; [by rewrite Hw, <- app_assoc|].
      split; [exists w, []; rewrite app_nil_r; auto|].
      split; [|done]. intros [H|H]%elem_of_cons; [discriminate | done].
  - intros [= <- <-]. cbn [vars trace].
    exists [StartInstances (instance_ids (vars s))].
    split; [done|].
    split; [exists [], []; auto|].
    split; [|done]. intros [H|H]%elem_of_cons; [discriminate|].
    by apply elem_of_nil in H.
Qed.

Lemma stop_run env fuel s out s' :
  state (vars s) = "running" →
  stop env fuel s = (out, s') →
  ∃ t, trace s' = trace s ++ t
       ∧ hook_provider_converge SuperStop
           (StopInstances (instance_ids (vars s))) t
       ∧ (out = Done tt →
          StopInstances (instance_ids (vars s)) ∈ t
          ∧ converged "stopped" (vars s')).
Proof.
  intros Hs. unfold stop, stop_check, hook, bind, get. rewrite Hs.
  rewrite decide_False by done. rewrite decide_False by (intros H; by apply H).
  cbn [ret vars]. unfold call at 1. cbn [vars trace].
  destruct (answer_unit env (trace s) _) as [u|e].
  - unfold call at 1. cbn [vars trace].
    destruct (answer_unit env (trace s ++ [SuperStop]) _) as [u'|e].
    + intros (w & Hw & Hp & Hc)%wait_for_state_run. cbn [trace] in Hw.
      exists (SuperStop :: StopInstances (instance_ids (vars s)) :: w).
      split; [by rewrite Hw, <- !app_assoc|].
      split; [eexists; split; [done|]; right; eauto|].
      intros ->. split; [right; left | auto].
    + intros [= <- <-]. cbn [vars trace].
      exists [SuperStop; StopInstances (instance_ids (vars s))].
      split; [by rewrite <- app_assoc|].
      split; [|done]. eexists; split; [done|]; right. exists []. auto.
  - intros [= <- <-]. cbn [vars trace]. exists [SuperStop].
    split; [done|]. split; [|done]. exists []. auto.
Qed.

(** C9 (amended). When [start] passes its guard, the batched provider
    start call is issued first, then the state converger polls, and the
    generic start hook is invoked last, only once every instance reports
    running. When [stop] passes its guard, the generic stop hook is invoked
    first, then the batched provider stop call is issued, then the state
    converger polls until every instance reports stopped. *)
Theorem start_stop_order (env : Environment) (fuel : nat)
    (s s' : Frame EC2Cluster) (out : Outcome unit) :
  (∀ user identity_file,
     state (vars s) = "stopped" →
     start env fuel user identity_file s = (out, s') →
     ∃ t, trace s' = trace s ++ t
          ∧ provider_converge_hook (StartInstances (instance_ids (vars s)))
              (SuperStart user identity_file) t
          ∧ (SuperStart user identity_file ∈ t →
             converged "running" (vars s'))
          ∧ (out = Done tt → SuperStart user identity_file ∈ t))
  ∧ (state (vars s) = "running" →
     stop env fuel s = (out, s') →
     ∃ t, trace s' = trace s ++ t
          ∧ hook_provider_converge SuperStop
              (StopInstances (instance_ids (vars s))) t
          ∧ (out = Done tt →
             StopInstances (instance_ids (vars s)) ∈ t
             ∧ converged "stopped" (vars s'))).
Proof.
  split.
  - intros user identity_file. apply start_run.
  - apply stop_run.
Qed.

Lemma start_stop_order_witness :
  (∃ t, [StartInstances ["i-0"; "i-1"]; DescribeInstances ["i-0"; "i-1"];
         Sleep 3; SuperStart "ec2-user" "key.pem"] = [] ++ t
        ∧ provider_converge_hook (StartInstances ["i-0"; "i-1"])
            (SuperStart "ec2-user" "key.pem") t
        ∧ (SuperStart "ec2-user" "key.pem" ∈ t →
           converged "running" running_cluster)
        ∧ (Done tt = Done tt → SuperStart "ec2-user" "key.pem" ∈ t))
  ∧ (∃ t, [SuperStop; StopInstances ["i-0"; "i-1"];
           DescribeInstances ["i-0"; "i-1"]; Sleep 3] = [] ++ t
          ∧ hook_provider_converge SuperStop
              (StopInstances ["i-0"; "i-1"]) t
          ∧ (Done tt = Done tt →
             StopInstances ["i-0"; "i-1"] ∈ t
             ∧ converged "stopped" stopped_cluster)).
Proof.
  split.
  - apply (proj1 (start_stop_order (steady_env "running") 5
                    (mkFrame stopped_cluster [])
                    (mkFrame running_cluster
                       [StartInstances ["i-0"; "i-1"];
                        DescribeInstances ["i-0"; "i-1"];
                        Sleep 3; SuperStart "ec2-user" "key.pem"])
                    (Done tt)) "ec2-user" "key.pem").
    + reflexivity.
    + reflexivity.
  - apply (proj2 (start_stop_order (steady_env "stopped") 5
                    (mkFrame running_cluster [])
                    (mkFrame stopped_cluster
                       [SuperStop; StopInstances ["i-0"; "i-1"];
                        DescribeInstances ["i-0"; "i-1"]; Sleep 3])
                    (Done tt))).
    + reflexivity.
    + reflexivity.
Defined.

(** C9 as stated fails for [stop]: on a running cluster the generic stop
    hook is the first call, before the batched provider stop call. *)
Lemma stop_hook_precedes_provider_call :
  stop (steady_env "stopped") 5 (mkFrame running_cluster [])
  = (Done tt,
     mkFrame stopped_cluster
       [SuperStop; StopInstances ["i-0"; "i-1"];
        DescribeInstances ["i-0"; "i-1"]; Sleep 3])
  ∧ ¬ provider_converge_hook (StopInstances ["i-0"; "i-1"]) SuperStop
        [SuperStop; StopInstances ["i-0"; "i-1"];
         DescribeInstances ["i-0"; "i-1"]; Sleep 3]
  ∧ ¬ stop_calls_provider_first.
Proof.
  assert (stop (steady_env "stopped") 5 (mkFrame running_cluster [])
          = (Done tt,
             mkFrame stopped_cluster
               [SuperStop; StopInstances ["i-0"; "i-1"];
                DescribeInstances ["i-0"; "i-1"]; Sleep 3])) as Hrun
    by reflexivity.
  split; [exact Hrun|]. split.
  - intros (polls & h & Heq & _). discriminate.
  - intros Hclaim.
    assert (state (vars (mkFrame running_cluster [])) = "running") as Hst
      by reflexivity.
    destruct (Hclaim (steady_env "stopped") 5 _ _ _ Hst Hrun)
      as (t & Ht & polls & h & Heq & _).
    cbn [trace app] in Ht. subst t. discriminate.
Qed.

(** ** Teardown *)

Lemma split_unique {A} (P : A → Prop) (l1 l2 l1' l2' : list A) (x y : A) :
  l1 ++ x :: l2 = l1' ++ y :: l2' →
  P y → Forall (λ a, ¬ P a) l1 → Forall (λ a, ¬ P a) l2 →
  l1' = l1 ∧ y = x ∧ l2' = l2.
Proof.
  revert l1'. induction l1 as [|a l1 IH]; intros l1' Heq Hy H1 H2.
  - destruct l1' as [|b l1']; simpl in Heq.
    + by injection Heq as -> ->.
    + injection Heq as -> ->. exfalso.
      rewrite Forall_forall in H2. apply (H2 y); [|done].
      apply elem_of_app. right. left.
  - apply Forall_cons in H1 as [Ha H1].
    destruct l1' as [|b l1']; simpl in Heq.
    + injection Heq as -> _. done.
    + injection Heq as -> Heq. destruct (IH l1' Heq Hy H1 H2) as (-> & -> & ->).
      done.
Qed.

Lemma for_each_modify {V} env (base : string) (l : list Instance)
    (s s' : Frame V) out :
  for_each l (λ i, call (answer_unit env)
                     (ModifyAttribute (instance_id i) [base])) s
  = (out, s') →
  vars s' = vars s
  ∧ ∃ m, trace s' = trace s ++ m
         ∧ Forall quiet m
         ∧ (out = Done tt →
            m = (λ i, ModifyAttribute (instance_id i) [base]) <$> l).
Proof.
  revert s. induction l as [|i l IH]; intros s; cbn [for_each].
  - unfold ret. intros [= <- <-]. split; [done|]. exists [].
    rewrite app_nil_r. done.
  - unfold bind, call at 1. cbn [vars trace].
    destruct (answer_unit env (trace s) _) as [u|e].
    + intros (Hv & m & Hm & Hq & Hd)%IH. cbn [vars trace] in *.
      split; [done|].
      exists (ModifyAttribute (instance_id i) [base] :: m).
      split; [by rewrite Hm, <- app_assoc|]. split.
      * apply Forall_cons_2; [|done]. by split.
      * intros Hout. rewrite (Hd Hout). reflexivity.
    + intros [= <- <-]. cbn [vars trace]. split; [done|].
      exists [ModifyAttribute (instance_id i) [base]].
      split; [done|]. split; [|done]. apply Forall_cons_2; [|done]. by split.
Qed.

(** The calls of a run of [destroy]: either it stopped before deleting
    the cluster group, or it detached every instance, deleted the group
    and then, unless the deletion failed, terminated all instances. *)
Lemma destroy_run env s out s' :
  destroy env s = (out, s') →
  vars s' = vars s
  ∧ ∃ t, trace s' = trace s ++ t
    ∧ ((Forall quiet t ∧ out ≠ Done tt)
       ∨ ∃ base others before g last,
           answer_groups env (trace s ++ [DestroyCheck; SuperDestroy])
             (DescribeSecurityGroups "flintrock" (vpc_id (vars s)))
           = Ok (base :: others)
           ∧ t = before ++ DeleteSecurityGroup g :: last
           ∧ Forall quiet before
           ∧ (∀ i, i ∈ instances (vars s) →
                ModifyAttribute (instance_id i) [group_id base] ∈ before)
           ∧ DescribeSecurityGroups ("flintrock-" +:+ name (vars s))
               (vpc_id (vars s)) ∈ before
           ∧ ((last = [] ∧ out ≠ Done tt)
              ∨ last = [TerminateInstances (instance_ids (vars s))])).
Proof.
  unfold destroy, hook, bind. unfold call at 1. cbn [vars trace].
  assert (quiet DestroyCheck ∧ quiet SuperDestroy
          ∧ (∀ a b, quiet (DescribeSecurityGroups a b))) as (Q1 & Q2 & Q3)
    by (repeat split; intros; discriminate).
  destruct (answer_unit env (trace s) DestroyCheck) as [u|e]; cycle 1.
  { intros [= <- <-]. split; [done|]. exists [DestroyCheck].
    split; [done|]. left. split; [|done]. by apply Forall_cons_2. }
  unfold call at 1. cbn [vars trace].
  destruct (answer_unit env _ SuperDestroy) as [u'|e]; cycle 1.
  { intros [= <- <-]. split; [done|]. exists [DestroyCheck; SuperDestroy].
    split; [by rewrite <- app_assoc|]. left. split; [|done].
    by repeat apply Forall_cons_2. }
  unfold get. cbn [vars trace]. unfold call at 1. cbn [vars trace].
  rewrite <- (app_assoc (trace s) [DestroyCheck] [SuperDestroy]).
  cbn [app].
  destruct (answer_groups env (trace s ++ [DestroyCheck; SuperDestroy]) _)
    as [[|base others]|e] eqn:Hbase; cbn [first_item ret raise].
  { intros [= <- <-]. split; [done|]. eexists [_; _; _]. cbn [trace].
    split; [by rewrite <- app_assoc|]. left. split; [|done].
    by repeat apply Forall_cons_2. }
  2:{ intros [= <- <-]. split; [done|]. eexists [_; _; _]. cbn [trace].
      split; [by rewrite <- app_assoc|]. left. split; [|done].
      by repeat apply Forall_cons_2. }
  destruct (for_each (instances (vars s)) _ _) as [o s1] eqn:F.
  apply for_each_modify in F as (Hv & m & Hm & Hq & Hd).
  cbn [vars trace] in Hv, Hm.
  set (head3 := [DestroyCheck; SuperDestroy;
                 DescribeSecurityGroups "flintrock" (vpc_id (vars s))]).
  assert (trace s1 = trace s ++ head3 ++ m) as Hm'.
  { rewrite Hm. unfold head3. by rewrite <- !app_assoc. }
  assert (Forall quiet (head3 ++ m)) as Hq'.
  { apply Forall_app. split; [|done]. by repeat apply Forall_cons_2. }
  clearbody head3. clear Hm.
  destruct o as [[]|e|]; cycle 1.
  { intros [= <- <-]. split; [done|]. exists (head3 ++ m).
    split; [done|]. left. done. }
  { intros [= <- <-]. split; [done|]. exists (head3 ++ m).
    split; [done|]. left. done. }
  specialize (Hd eq_refl).
  unfold call at 1. cbn [vars trace].
  set (lookup2 := DescribeSecurityGroups ("flintrock-" +:+ name (vars s))
                    (vpc_id (vars s))).
  assert (Forall quiet ((head3 ++ m) ++ [lookup2])) as Hq''.
  { apply Forall_app. split; [done|]. by apply Forall_cons_2. }
  assert (∀ i, i ∈ instances (vars s) →
            ModifyAttribute (instance_id i) [group_id base]
            ∈ (head3 ++ m) ++ [lookup2]) as Hall.
  { intros i Hi. apply elem_of_app. left. apply elem_of_app. right.
    rewrite Hd. apply list_elem_of_fmap. eauto. }
  assert (trace s1 ++ [lookup2] = trace s ++ (head3 ++ m) ++ [lookup2])
    as Hs2 by (rewrite Hm'; by rewrite !app_assoc).
  assert (lookup2 ∈ (head3 ++ m) ++ [lookup2]) as Hl2
    by (apply elem_of_app; right; left).
  destruct (answer_groups env (trace s1) lookup2) as [[|cg others']|e];
    cbn [first_item ret raise].
  { intros [= <- <-]. split; [done|]. cbn [trace].
    exists ((head3 ++ m) ++ [lookup2]). split; [done|]. by left. }
  2:{ intros [= <- <-]. split; [done|]. cbn [trace].
      exists ((head3 ++ m) ++ [lookup2]). split; [done|]. by left. }
  unfold call at 1. cbn [vars trace]. rewrite Hs2.
  destruct (answer_unit env _ (DeleteSecurityGroup _)) as [u1|e]; cycle 1.
  { intros [= <- <-]. split; [done|]. cbn [trace].
    exists (((head3 ++ m) ++ [lookup2])
            ++ DeleteSecurityGroup (group_id cg) :: []).
    split; [by rewrite !app_assoc|]. right.
    exists base, others, ((head3 ++ m) ++ [lookup2]), (group_id cg), [].
    split; [done|]. split; [reflexivity|]. split; [done|]. split; [done|].
    split; [done|]. by left. }
  unfold call. cbn [vars trace].
  destruct (answer_unit env _ (TerminateInstances _)) as [u2|e];
    intros [= <- <-]; (split; [done|]); cbn [trace];
    (exists (((head3 ++ m) ++ [lookup2])
             ++ DeleteSecurityGroup (group_id cg)
                :: [TerminateInstances (instance_ids (vars s))]);
     split; [by rewrite <- !app_assoc|]; right;
     exists base, others, ((head3 ++ m) ++ [lookup2]), (group_id cg),
       [TerminateInstances (instance_ids (vars s))];
     split; [done|]; split; [reflexivity|]; split; [done|]; split; [done|];
     split; [done|]; by right).
Qed.

(** C8. In every run of [destroy], successful or not, the deletion of the
    cluster security group comes only after every instance has been
    reattached to the base group alone, and the terminate call, one call
    for all instance ids and the last call of the run, comes only after
    that deletion; a run that returns has issued it. *)
Theorem destroy_order (env : Environment) (s s' : Frame EC2Cluster)
    (out : Outcome unit) :
  destroy env s = (out, s') →
  vars s' = vars s
  ∧ ∃ t, trace s' = trace s ++ t
         ∧ detach_delete_terminate env s t
         ∧ (out = Done tt →
            ∃ pre, t = pre ++ [TerminateInstances (instance_ids (vars s))]).
Proof.
  intros (Hv & t & Ht & Hshape)%destroy_run. split; [done|].
  exists t. split; [done|].
  destruct Hshape as [[Hq Hout]
    | (base & others & before & g & last & Hbase & -> & Hq & Hall & Hl2
       & Hlast)].
  - split; [|done]. split.
    + intros pre g post ->. exfalso.
      apply Forall_app in Hq as [_ [[Hd _] _]%Forall_cons]. by apply (Hd g).
    + intros pre ids post ->. exfalso.
      apply Forall_app in Hq as [_ [[_ Hd] _]%Forall_cons]. by apply (Hd ids).
  - assert (Forall (λ e, ¬ ∃ g', e = DeleteSecurityGroup g') before) as Hnd.
    { eapply Forall_impl; [exact Hq|]. intros e [Hd _] [g' ->].
      by apply (Hd g'). }
    assert (Forall (λ e, ¬ ∃ ids, e = TerminateInstances ids) before) as Hnt.
    { eapply Forall_impl; [exact Hq|]. intros e [_ Hd] [ids ->].
      by apply (Hd ids). }
    assert (Forall (λ e, ¬ ∃ g', e = DeleteSecurityGroup g') last) as Hld.
    { destruct Hlast as [[-> _] | ->]; [done|].
      apply Forall_cons_2; [|done]. intros [g' ?]. discriminate. }
    split; [split|].
    + intros pre g' post Heq.
      destruct (split_unique (λ e, ∃ g', e = DeleteSecurityGroup g')
                  _ _ _ _ _ _ Heq) as (-> & _ & _); eauto.
    + intros pre ids post Heq.
      destruct Hlast as [[-> _] | ->].
      * exfalso.
        assert (TerminateInstances ids ∈ before ++ [DeleteSecurityGroup g])
          as Hin by (rewrite Heq; apply elem_of_app; right; left).
        apply elem_of_app in Hin as [Hin | Hin].
        -- rewrite Forall_forall in Hnt. apply (Hnt _ Hin). eauto.
        -- apply list_elem_of_singleton in Hin. discriminate.
      * assert ((before ++ [DeleteSecurityGroup g])
                ++ TerminateInstances (instance_ids (vars s)) :: []
                = pre ++ TerminateInstances ids :: post) as Heq'
          by (by rewrite <- app_assoc).
        destruct (split_unique (λ e, ∃ ids', e = TerminateInstances ids')
                    _ _ _ _ _ _ Heq') as (-> & [= ->] & ->); eauto.
        { apply Forall_app. split; [done|]. apply Forall_cons_2; [|done].
          intros [? ?]. discriminate. }
        split; [done|]. split; [done|]. split.
        -- exists g. apply elem_of_app. right. left.
        -- intros ids' [Hin | Hin]%elem_of_app.
           ++ rewrite Forall_forall in Hnt. apply (Hnt _ Hin). eauto.
           ++ apply list_elem_of_singleton in Hin. discriminate.
    + intros ->. destruct Hlast as [[_ ?] | ->]; [done|].
      exists (before ++ [DeleteSecurityGroup g]). by rewrite <- app_assoc.
Qed.

Lemma destroy_order_witness :
  vars (mkFrame running_cluster
          [DestroyCheck; SuperDestroy;
           DescribeSecurityGroups "flintrock" "vpc-1";
           ModifyAttribute "i-0" ["sg-flintrock"];
           ModifyAttribute "i-1" ["sg-flintrock"];
           DescribeSecurityGroups "flintrock-test" "vpc-1";
           DeleteSecurityGroup "sg-flintrock-test";
           TerminateInstances ["i-0"; "i-1"]])
  = running_cluster
  ∧ ∃ t, [DestroyCheck; SuperDestroy;
          DescribeSecurityGroups "flintrock" "vpc-1";
          ModifyAttribute "i-0" ["sg-flintrock"];
          ModifyAttribute "i-1" ["sg-flintrock"];
          DescribeSecurityGroups "flintrock-test" "vpc-1";
          DeleteSecurityGroup "sg-flintrock-test";
          TerminateInstances ["i-0"; "i-1"]] = [] ++ t
         ∧ detach_delete_terminate (steady_env "running")
             (mkFrame running_cluster []) t
         ∧ (Done tt = Done tt →
            ∃ pre, t = pre ++ [TerminateInstances ["i-0"; "i-1"]]).
Proof.
  apply (destroy_order (steady_env "running") (mkFrame running_cluster [])).
  reflexivity.
Defined.

(** ** Spot acquisition *)

Lemma split_in_prefix {A} (P : A → Prop) (l1 l2 pre post : list A) (x : A) :
  l1 ++ l2 = pre ++ x :: post →
  P x → Forall (λ a, ¬ P a) l2 →
  ∃ post', l1 = pre ++ x :: post'.
Proof.
  intros Heq Hx Hl2. rewrite Forall_forall in Hl2.
  apply app_eq_inv in Heq as [(k & -> & Hk) | (k & -> & Hk)].
  - destruct k as [|y k]; simpl in Hk.
    + exfalso. apply (Hl2 x); [|done]. rewrite <- Hk. left.
    + injection Hk as <- _. eauto.
  - exfalso. apply (Hl2 x); [|done]. rewrite Hk.
    apply elem_of_app. right. left.
Qed.

Lemma has_failed_filter (rs : list SpotRequest) :
  has_failed rs ↔ failed_requests rs ≠ [].
Proof.
  unfold has_failed, failed_requests. split.
  - intros (r & Hr & Hs) Hnil.
    assert (r ∈ filter (λ r, State r = "failed") rs) as Hin
      by (by apply list_elem_of_filter).
    rewrite Hnil in Hin. by apply elem_of_nil in Hin.
  - destruct (filter _ rs) as [|r l] eqn:E; [done|]. intros _.
    assert (r ∈ filter (λ r, State r = "failed") rs) as Hin
      by (rewrite E; left).
    apply list_elem_of_filter in Hin as [? ?]. eauto.
Qed.

Lemma filter_nil_not {A} (P : A → Prop) `{∀ x, Decision (P x)}
    (l : list A) (x : A) :
  filter P l = [] → x ∈ l → ¬ P x.
Proof.
  intros Hnil Hin HP.
  assert (x ∈ filter P l) as Hf by (by apply list_elem_of_filter).
  rewrite Hnil in Hf. by apply elem_of_nil in Hf.
Qed.

Lemma poll_spot_requests_unfold env fuel ids pending s :
  poll_spot_requests env fuel ids pending s
  = match pending with
    | [] => (Done tt, s)
    | _ :: _ =>
        match fuel with
        | 0 => (OutOfFuel, s)
        | S fuel' =>
            match answer_unit env (trace s) (Sleep 30) with
            | Raise e => (Raised e, mkFrame (vars s) (trace s ++ [Sleep 30]))
            | Ok _ =>
                let t := (trace s ++ [Sleep 30])
                         ++ [DescribeSpotInstanceRequests ids] in
                match answer_spot env (trace s ++ [Sleep 30])
                        (DescribeSpotInstanceRequests ids) with
                | Raise e => (Raised e, mkFrame (vars s) t)
                | Ok rs =>
                    let s1 :=
                      mkFrame (mkLaunchVars rs (cluster_instances (vars s)))
                        t in
                    match failed_requests rs with
                    | _ :: _ =>
                        (Raised (Error (failure_message (failed_requests rs))),
                         s1)
                    | [] =>
                        poll_spot_requests env fuel' ids
                          (SpotInstanceRequestId <$>
                             filter (λ r, State r = "open") rs) s1
                    end
                end
            end
        end
    end.
Proof.
  destruct pending as [|p pending]; destruct fuel as [|fuel];
    cbn [poll_spot_requests]; try reflexivity.
  unfold bind. unfold call at 1. cbn [vars trace].
  destruct (answer_unit env (trace s) (Sleep 30)) as [u|e]; [|reflexivity].
  unfold call at 1. cbn [vars trace].
  destruct (answer_spot env _ _) as [rs|e]; [|reflexivity].
  unfold set_spot_requests, bind, get, put. cbn [vars trace].
  unfold failed_requests. by destruct (filter _ rs).
Qed.

(** A run of the poll loop: it only sleeps and describes the requests; a
    describe that answers a failed request ends it with the error built
    from that answer; if it returns, the requests last seen are neither
    open nor failed. *)
Lemma poll_spot_requests_run env fuel ids pending s out s' :
  poll_spot_requests env fuel ids pending s = (out, s') →
  cluster_instances (vars s') = cluster_instances (vars s)
  ∧ ∃ t, trace s' = trace s ++ t
    ∧ (∀ pre ids' post rs,
         t = pre ++ DescribeSpotInstanceRequests ids' :: post →
         answer_spot env (trace s ++ pre) (DescribeSpotInstanceRequests ids')
         = Ok rs →
         has_failed rs →
         out = Raised (Error (failure_message (failed_requests rs)))
         ∧ post = [])
    ∧ (out = Done tt →
       (pending = [] ∧ s' = s)
       ∨ ∀ r, r ∈ spot_requests (vars s') →
              State r ≠ "open" ∧ State r ≠ "failed").
Proof.
  revert pending s. induction fuel as [|fuel IH]; intros pending s;
    rewrite poll_spot_requests_unfold; destruct pending as [|p pending].
  1-3: intros [= <- <-]; (split; [done|]); exists []; rewrite app_nil_r;
       (split; [done|]); (split; [|auto; done]);
       intros [|??] ????; discriminate.
  destruct (answer_unit env (trace s) (Sleep 30)) as [u|e]; cycle 1.
  { intros [= <- <-]. split; [done|]. exists [Sleep 30]. split; [done|].
    split; [|done]. intros [|? [|??]] ????; discriminate. }
  cbv zeta.
  destruct (answer_spot env (trace s ++ [Sleep 30]) _) as [rs|e] eqn:Hrs;
    cycle 1.
  { intros [= <- <-]. split; [done|].
    exists [Sleep 30; DescribeSpotInstanceRequests ids].
    split; [by rewrite <- app_assoc|]. split; [|done].
    intros [|? [|? [|??]]] ids' post rs' Heq Hans; try discriminate.
    injection Heq as <- <-. cbn [app] in Hans. congruence. }
  destruct (failed_requests rs) as [|f fs] eqn:Hf.
  - intros (Hci & t & Ht & Hfail & Hdone)%IH. cbn [vars trace] in *.
    split; [done|].
    exists (Sleep 30 :: DescribeSpotInstanceRequests ids :: t).
    split; [by rewrite Ht, <- !app_assoc|]. split.
    + intros [|a [|b pre]] ids' post rs' Heq Hans Hhas; try discriminate.
      * injection Heq as <- <-. cbn [app] in Hans.
        rewrite Hrs in Hans. injection Hans as <-.
        apply has_failed_filter in Hhas. done.
      * injection Heq as <- <- Heq.
        apply (Hfail pre ids' post rs' Heq); [|done].
        rewrite <- Hans. f_equal. by rewrite <- !app_assoc.
    + intros Hout. right. destruct (Hdone Hout) as [[Hnil ->] | Hno];
        [|done].
      cbn [vars spot_requests]. intros r Hr. split.
      * apply fmap_nil_inv in Hnil.
        apply (filter_nil_not (λ r, State r = "open") rs r Hnil Hr).
      * apply (filter_nil_not (λ r, State r = "failed") rs r Hf Hr).
  - intros [= <- <-]. split; [done|].
    exists [Sleep 30; DescribeSpotInstanceRequests ids].
    split; [by rewrite <- app_assoc|]. split; [|done].
    intros [|? [|? [|??]]] ids' post rs' Heq Hans _; try discriminate.
    injection Heq as <- <-. cbn [app] in Hans.
    rewrite Hrs in Hans. injection Hans as <-. by rewrite Hf.
Qed.

Lemma poll_event_not_spot_describe (e : Event) :
  poll_event e → not_spot_describe e.
Proof. intros [[? ->] | ->] [? ?]; discriminate. Qed.

Lemma tag_and_provision_run env args fuel s out s' :
  tag_and_provision env args fuel s = (out, s') →
  vars s' = vars s
  ∧ ∃ t, trace s' = trace s ++ t ∧ Forall not_spot_describe t.
Proof.
  assert (∀ e, (∀ ids, e ≠ DescribeSpotInstanceRequests ids) →
               not_spot_describe e) as Hq
    by (intros e He [ids ->]; by apply (He ids)).
  unfold tag_and_provision, hook, bind. unfold call at 1. cbn [vars trace].
  destruct (answer_unit env (trace s) (Sleep 10)) as [u|e]; cycle 1.
  { intros [= <- <-]. split; [done|]. eexists [_]. split; [done|].
    apply Forall_cons_2; [by apply Hq | done]. }
  unfold get. cbn [vars trace].
  destruct (cluster_instances (vars s)) as [|master slaves];
    cbn [first_item ret raise tail].
  { intros [= <- <-]. split; [done|]. eexists [_]. split; [done|].
    apply Forall_cons_2; [by apply Hq | done]. }
  unfold call at 1. cbn [vars trace].
  destruct (answer_unit env _ (CreateTags _ "master" _)) as [u1|e]; cycle 1.
  { intros [= <- <-]. split; [done|]. eexists [_; _].
    split; [by rewrite <- !app_assoc|].
    repeat (apply Forall_cons_2; [by apply Hq|]). done. }
  unfold call at 1. cbn [vars trace].
  destruct (answer_unit env _ (CreateTags _ "slave" _)) as [u2|e]; cycle 1.
  { intros [= <- <-]. split; [done|]. eexists [_; _; _].
    split; [by rewrite <- !app_assoc|].
    repeat (apply Forall_cons_2; [by apply Hq|]). done. }
  unfold call at 1. cbn [vars trace].
  destruct (answer_unit env _ GenerateSshKeyPair) as [u3|e]; cycle 1.
  { intros [= <- <-]. split; [done|]. eexists [_; _; _; _].
    split; [by rewrite <- !app_assoc|].
    repeat (apply Forall_cons_2; [by apply Hq|]). done. }
  unfold run_on. cbn [vars trace].
  destruct (wait_for_state env fuel "running" _) as [o s1] eqn:W.
  apply wait_for_state_run in W as (w & Hw & Hp & _). cbn [trace] in Hw.
  assert (Forall not_spot_describe w) as Hw'.
  { eapply Forall_impl; [exact Hp|]. apply poll_event_not_spot_describe. }
  set (head4 := [Sleep 10;
                 CreateTags [instance_id master] "master"
                   (cluster_name args +:+ "-master");
                 CreateTags (instance_id <$> slaves) "slave"
                   (cluster_name args +:+ "-slave");
                 GenerateSshKeyPair]).
  assert (trace s1 = trace s ++ head4 ++ w) as Hs1.
  { rewrite Hw. unfold head4. by rewrite <- !app_assoc. }
  assert (Forall not_spot_describe (head4 ++ w)) as Hall.
  { apply Forall_app. split; [|done].
    repeat (apply Forall_cons_2; [by apply Hq|]). done. }
  clearbody head4. clear Hw.
  destruct o as [[]|e|].
  - unfold call. cbn [vars trace].
    destruct (answer_unit env (trace s1) _) as [u4|e];
      intros [= <- <-]; (split; [done|]); cbn [trace];
      (exists ((head4 ++ w)
               ++ [ProvisionCluster (launch_user args)
                     (launch_identity_file args)]);
       split; [rewrite Hs1; by rewrite !app_assoc|];
       apply Forall_app; split; [done|];
       apply Forall_cons_2; [by apply Hq | done]).
  - intros [= <- <-]. split; [done|]. eauto.
  - intros [= <- <-]. split; [done|]. eauto.
Qed.

Lemma acquire_spot_run env args fuel price s out s' :
  acquire_spot env args fuel price s = (out, s') →
  ∃ t, trace s' = trace s ++ t
    ∧ (∀ pre ids post rs,
         t = pre ++ DescribeSpotInstanceRequests ids :: post →
         answer_spot env (trace s ++ pre) (DescribeSpotInstanceRequests ids)
         = Ok rs →
         has_failed rs →
         out = Raised (Error (failure_message (failed_requests rs)))
         ∧ post = [])
    ∧ (out = Done tt →
       ∀ r, r ∈ spot_requests (vars s') →
            State r ≠ "open" ∧ State r ≠ "failed").
Proof.
  unfold acquire_spot, bind. unfold call at 1. cbn [vars trace].
  destruct (answer_spot env (trace s) _) as [rs0|e]; cycle 1.
  { intros [= <- <-]. eexists [_]. split; [done|]. split; [|done].
    intros [|? [|??]] ????; discriminate. }
  unfold set_spot_requests at 1. unfold bind, get, put. cbn [vars trace].
  destruct (poll_spot_requests env fuel _ _ _) as [o s1] eqn:P.
  apply poll_spot_requests_run in P as (Hci & t & Ht & Hfail & Hdone).
  cbn [vars trace cluster_instances] in *.
  assert (∀ pre ids post rs,
            RequestSpotInstances price (num_instances args) :: t
            = pre ++ DescribeSpotInstanceRequests ids :: post →
            answer_spot env (trace s ++ pre)
              (DescribeSpotInstanceRequests ids) = Ok rs →
            has_failed rs →
            o = Raised (Error (failure_message (failed_requests rs)))
            ∧ post = []) as Hfail'.
  { intros [|a pre] ids post rs Heq Hans Hhas; [discriminate|].
    injection Heq as <- Heq. apply (Hfail pre ids post rs Heq); [|done].
    rewrite <- Hans. f_equal. by rewrite <- app_assoc. }
  destruct o as [[]|e|]; cycle 1.
  { intros [= <- <-].
    exists (RequestSpotInstances price (num_instances args) :: t).
    split; [rewrite Ht; by rewrite <- app_assoc|]. split; [|done].
    exact Hfail'. }
  { intros [= <- <-].
    exists (RequestSpotInstances price (num_instances args) :: t).
    split; [rewrite Ht; by rewrite <- app_assoc|]. split; [|done].
    exact Hfail'. }
  assert (∀ r, r ∈ spot_requests (vars s1) →
               State r ≠ "open" ∧ State r ≠ "failed") as Hno.
  { destruct (Hdone eq_refl) as [[Hnil ->] | ?]; [|done].
    apply fmap_nil_inv in Hnil. subst rs0. cbn [vars spot_requests].
    intros r Hr. by apply elem_of_nil in Hr. }
  assert (∀ (tail : list Event) pre ids post rs,
            Forall not_spot_describe tail →
            RequestSpotInstances price (num_instances args) :: t ++ tail
            = pre ++ DescribeSpotInstanceRequests ids :: post →
            answer_spot env (trace s ++ pre)
              (DescribeSpotInstanceRequests ids) = Ok rs →
            has_failed rs → False) as Hnever.
  { intros tail pre ids post rs Htail Heq Hans Hhas.
    change (RequestSpotInstances price (num_instances args) :: t ++ tail)
      with ((RequestSpotInstances price (num_instances args) :: t) ++ tail)
      in Heq.
    apply (split_in_prefix (λ e, ∃ ids, e = DescribeSpotInstanceRequests ids))
      in Heq as [post' Heq]; [|eauto|done].
    by destruct (Hfail' pre ids post' rs Heq Hans Hhas) as [? _]. }
  destruct (granted_instance_ids (spot_requests (vars s1))) as [l|e];
    cbn [lift_result ret raise]; cycle 1.
  { intros [= <- <-].
    exists (RequestSpotInstances price (num_instances args) :: t).
    split; [rewrite Ht; by rewrite <- app_assoc|]. split; [|done].
    intros pre ids post rs Heq Hans Hhas. exfalso.
    eapply (Hnever []); [done| |exact Hans|exact Hhas].
    rewrite app_nil_r. exact Heq. }
  unfold call. cbn [vars trace].
  destruct (answer_instances env (trace s1) _) as [insts|e].
  - unfold set_cluster_instances, bind, get, put. cbn [vars trace].
    intros [= <- <-]. cbn [vars trace spot_requests].
    exists (RequestSpotInstances price (num_instances args)
            :: t ++ [DescribeInstances l]).
    split; [rewrite Ht; by rewrite <- !app_assoc|]. split; [|done].
    intros pre ids post rs Heq Hans Hhas. exfalso.
    eapply (Hnever [DescribeInstances l]);
      [|exact Heq|exact Hans|exact Hhas].
    apply Forall_cons_2; [|done]. intros [? ?]. discriminate.
  - intros [= <- <-]. cbn [vars trace].
    exists (RequestSpotInstances price (num_instances args)
            :: t ++ [DescribeInstances l]).
    split; [rewrite Ht; by rewrite <- !app_assoc|]. split; [|done].
    intros pre ids post rs Heq Hans Hhas. exfalso.
    eapply (Hnever [DescribeInstances l]);
      [|exact Heq|exact Hans|exact Hhas].
    apply Forall_cons_2; [|done]. intros [? ?]. discriminate.
Qed.

Lemma acquire_on_demand_run env args s out s' :
  acquire_on_demand env args s = (out, s') →
  ∃ t, trace s' = trace s ++ t ∧ Forall not_spot_describe t.
Proof.
  unfold acquire_on_demand, bind, call. cbn [vars trace].
  assert (not_spot_describe (CreateInstances (num_instances args))) as Hq
    by (intros [? ?]; discriminate).
  destruct (answer_instances env (trace s) _) as [l|e].
  - unfold set_cluster_instances, bind, get, put. cbn [vars trace].
    intros [= <- <-]. cbn [trace]. eexists. split; [done|].
    by apply Forall_cons_2.
  - intros [= <- <-]. cbn [trace]. eexists. split; [done|].
    by apply Forall_cons_2.
Qed.

Lemma no_spot_describe_split (t pre post : list Event) (ids : list string) :
  Forall not_spot_describe t →
  t ≠ pre ++ DescribeSpotInstanceRequests ids :: post.
Proof.
  intros Hq ->. apply Forall_app in Hq as [_ [Hd _]%Forall_cons].
  apply Hd. eauto.
Qed.

(** A run of the [try] body: a poll that observes a failed request ends
    it with the error built from that observation. *)
Lemma launch_try_run env args fuel s out s' :
  launch_try env args fuel s = (out, s') →
  (∀ pre ids post rs,
     trace s' = (trace s ++ pre) ++ DescribeSpotInstanceRequests ids :: post →
     answer_spot env (trace s ++ pre) (DescribeSpotInstanceRequests ids)
     = Ok rs →
     has_failed rs →
     out = Raised (Error (failure_message (failed_requests rs)))
     ∧ post = [])
  ∧ (∀ price, spot_price args = Some price → out = Done tt →
       ∀ r, r ∈ spot_requests (vars s') → State r ≠ "open").
Proof.
  unfold launch_try, bind. destruct (spot_price args) as [price|].
  - destruct (acquire_spot env args fuel price s) as [o s1] eqn:A.
    apply acquire_spot_run in A as (t1 & Ht1 & Hfail & Hdone).
    destruct o as [[]|e|].
    + destruct (tag_and_provision env args fuel s1) as [o2 s2] eqn:T.
      apply tag_and_provision_run in T as (Hv & t2 & Ht2 & Hq).
      intros [= <- <-]. split.
      * intros pre ids post rs Htr Hans Hhas. exfalso.
        rewrite Ht2, Ht1, <- !app_assoc in Htr.
        apply app_inv_head in Htr.
        apply (split_in_prefix
                 (λ e, ∃ ids, e = DescribeSpotInstanceRequests ids))
          in Htr as [post' Htr]; [|eauto|done].
        by destruct (Hfail pre ids post' rs Htr Hans Hhas) as [? _].
      * intros _ _ _ r Hr. rewrite Hv in Hr.
        by destruct (Hdone eq_refl r Hr).
    + intros [= <- <-]. split; [|done].
      intros pre ids post rs Htr Hans Hhas.
      rewrite Ht1, <- !app_assoc in Htr. apply app_inv_head in Htr.
      exact (Hfail pre ids post rs Htr Hans Hhas).
    + intros [= <- <-]. split; [|done].
      intros pre ids post rs Htr Hans Hhas.
      rewrite Ht1, <- !app_assoc in Htr. apply app_inv_head in Htr.
      exact (Hfail pre ids post rs Htr Hans Hhas).
  - destruct (acquire_on_demand env args s) as [o s1] eqn:A.
    apply acquire_on_demand_run in A as (t1 & Ht1 & Hq1).
    assert (∀ t2 pre ids post,
              Forall not_spot_describe t2 →
              trace s ++ t1 ++ t2
              = (trace s ++ pre) ++ DescribeSpotInstanceRequests ids :: post →
              False) as Hnever.
    { intros t2 pre ids post Hq2 Htr. rewrite <- app_assoc in Htr.
      apply app_inv_head in Htr.
      apply (no_spot_describe_split (t1 ++ t2) pre post ids); [|done].
      apply Forall_app. done. }
    destruct o as [[]|e|].
    + destruct (tag_and_provision env args fuel s1) as [o2 s2] eqn:T.
      apply tag_and_provision_run in T as (Hv & t2 & Ht2 & Hq2).
      intros [= <- <-]. split; [|done].
      intros pre ids post rs Htr _ _. exfalso.
      rewrite Ht2, Ht1, <- app_assoc in Htr. by eapply (Hnever t2).
    + intros [= <- <-]. split; [|done].
      intros pre ids post rs Htr _ _. exfalso.
      rewrite Ht1 in Htr. eapply (Hnever []); [done|].
      rewrite app_nil_r. exact Htr.
    + intros [= <- <-]. split; [|done].
      intros pre ids post rs Htr _ _. exfalso.
      rewrite Ht1 in Htr. eapply (Hnever []); [done|].
      rewrite app_nil_r. exact Htr.
Qed.

Lemma launch_never_returns_after_failure env args fuel s e s1 :
  launch_try env args fuel s = (Raised e, s1) →
  ∀ a s2, launch_try_except env args fuel s ≠ (Done a, s2).
Proof.
  intros Htry a s2. unfold launch_try_except. rewrite Htry.
  destruct (Exception_or_KeyboardInterrupt e); [|done].
  unfold bind, raise. by destruct (launch_rollback env args s1) as [[[]|?|] ?].
Qed.




(** ** Rollback *)

Section Combinators.

Context {V : Type}.

Lemma fuel_free_ret {A} (a : A) : fuel_free (ret (V:=V) a).
Proof. intros s out s' [= <- <-]. done. Qed.

Lemma fuel_free_raise {A} (e : Exn) : fuel_free (raise (V:=V) (A:=A) e).
Proof. intros s out s' [= <- <-]. done. Qed.

Lemma fuel_free_get : fuel_free (get (V:=V)).
Proof. intros s out s' [= <- <-]. done. Qed.

Lemma fuel_free_put (v : V) : fuel_free (put v).
Proof. intros s out s' [= <- <-]. done. Qed.

Lemma fuel_free_call {A} (answer : list Event → Event → result A) ev :
  fuel_free (call (V:=V) answer ev).
Proof.
  intros s out s'. unfold call.
  destruct (answer (trace s) ev); intros [= <- <-]; done.
Qed.

Lemma fuel_free_bind {A B} (m : M V A) (k : A → M V B) :
  fuel_free m → (∀ a, fuel_free (k a)) → fuel_free (bind m k).
Proof.
  intros Hm Hk s out s'. unfold bind.
  destruct (m s) as [[a|e|] s1] eqn:E.
  - apply Hk.
  - intros [= <- <-]. done.
  - by apply Hm in E.
Qed.

Lemma returns_ret {A} h (a : A) : returns_from h (ret (V:=V) a).
Proof. intros s Hs. by exists a, s. Qed.

Lemma returns_get h : returns_from h (get (V:=V)).
Proof. intros s Hs. by exists (vars s), s. Qed.

Lemma returns_put h (v : V) : returns_from h (put v).
Proof. intros s Hs. by exists tt, (mkFrame v (trace s)). Qed.

Lemma returns_call {A} h (answer : list Event → Event → result A) ev :
  (∀ h', h `prefix_of` h' → ∃ a, answer h' ev = Ok a) →
  returns_from h (call (V:=V) answer ev).
Proof.
  intros Hans s Hs. destruct (Hans (trace s) Hs) as [a Ha].
  exists a, (mkFrame (vars s) (trace s ++ [ev])). unfold call. rewrite Ha.
  split; [done|]. cbn [trace]. by apply prefix_app_r.
Qed.

Lemma returns_bind {A B} h (m : M V A) (k : A → M V B) :
  returns_from h m → (∀ a, returns_from h (k a)) → returns_from h (bind m k).
Proof.
  intros Hm Hk s Hs. destruct (Hm s Hs) as (a & s1 & E & Hs1).
  unfold bind. rewrite E. by apply Hk.
Qed.

End Combinators.

Ltac step_program :=
  repeat first
    [ apply fuel_free_ret | apply fuel_free_raise | apply fuel_free_get
    | apply fuel_free_put | apply fuel_free_call
    | apply fuel_free_bind; [|intros ?]
    | apply returns_ret | apply returns_get | apply returns_put
    | apply returns_bind; [|intros ?]
    | match goal with
      | |- fuel_free (match ?x with _ => _ end) => destruct x
      | |- returns_from _ (match ?x with _ => _ end) => destruct x
      end ].

Lemma launch_rollback_fuel_free env args : fuel_free (launch_rollback env args).
Proof.
  unfold launch_rollback, set_spot_requests, set_cluster_instances.
  step_program.
Qed.

Lemma launch_rollback_returns env args h :
  answers_from env h → returns_from h (launch_rollback env args).
Proof.
  intros Ha.
  assert (∀ ev, returns_from (V:=LaunchVars) h (call (answer_unit env) ev))
    as Hu by (intros ev; apply returns_call; intros h' Hh';
              apply (Ha h' ev Hh')).
  assert (∀ ev, returns_from (V:=LaunchVars) h
                  (call (answer_instances env) ev))
    as Hi by (intros ev; apply returns_call; intros h' Hh';
              apply (Ha h' ev Hh')).
  assert (∀ ev, returns_from (V:=LaunchVars) h (call (answer_spot env) ev))
    as Hs by (intros ev; apply returns_call; intros h' Hh';
              apply (Ha h' ev Hh')).
  assert (∀ ev, returns_from (V:=LaunchVars) h (call (answer_bool env) ev))
    as Hb by (intros ev; apply returns_call; intros h' Hh';
              apply (Ha h' ev Hh')).
  unfold launch_rollback, set_spot_requests, set_cluster_instances.
  repeat first
    [ progress step_program | apply Hu | apply Hi | apply Hs | apply Hb ].
Qed.

(** C5 (amended). When the [try] body of [launch] fails with an exception
    or a keyboard interrupt, the rollback runs. If the rollback completes,
    the original failure is re-raised; it does complete whenever every call
    made from then on is answered without an exception. If instead a call
    of the rollback raises, that exception is what [launch] ends with, in
    place of the original one. In every case [launch] ends with an
    exception. *)
Theorem rollback_reraises_original (env : Environment) (args : LaunchArgs)
    (fuel : nat) (s s1 : Frame LaunchVars) (e : Exn) :
  launch_try env args fuel s = (Raised e, s1) →
  Exception_or_KeyboardInterrupt e = true →
  (∀ s2, launch_rollback env args s1 = (Done tt, s2) →
         launch_try_except env args fuel s = (Raised e, s2))
  ∧ (answers_from env (trace s1) →
     ∃ s2, launch_try_except env args fuel s = (Raised e, s2))
  ∧ (∀ e' s2, launch_rollback env args s1 = (Raised e', s2) →
              launch_try_except env args fuel s = (Raised e', s2))
  ∧ ∃ e'' s2, launch_try_except env args fuel s = (Raised e'', s2).
Proof.
  intros Htry Hcaught.
  assert (launch_try_except env args fuel s
          = bind (launch_rollback env args) (λ _, raise e) s1) as Heq
    by (unfold launch_try_except; by rewrite Htry, Hcaught).
  rewrite Heq. unfold bind, raise. split; [|split; [|split]].
  - intros s2 ->. done.
  - intros Ha.
    destruct (launch_rollback_returns env args _ Ha s1) as ([] & s2 & -> & _);
      [done|]. eauto.
  - intros e' s2 ->. done.
  - destruct (launch_rollback env args s1) as [[[]|e'|] s2] eqn:R; eauto.
    by apply launch_rollback_fuel_free in R.
Qed.


Lemma rollback_reraises_original_witness :
  launch_try spot_env spot_args 3 (mkFrame (mkLaunchVars [] []) [])
  = (Raised spot_failure, spot_failure_frame)
  ∧ launch_rollback spot_env spot_args spot_failure_frame
    = (Done tt, spot_rollback_frame)
  ∧ launch_acquire spot_env spot_args 3 []
    = (Raised spot_failure, spot_rollback_frame).
Proof.
  assert (launch_try spot_env spot_args 3 (mkFrame (mkLaunchVars [] []) [])
          = (Raised spot_failure, spot_failure_frame)) as Hrun
    by (vm_compute; reflexivity).
  assert (launch_rollback spot_env spot_args spot_failure_frame
          = (Done tt, spot_rollback_frame)) as Hroll
    by (vm_compute; reflexivity).
  split; [exact Hrun|]. split; [exact Hroll|].
  exact (proj1 (rollback_reraises_original spot_env spot_args 3 _ _ _
                  Hrun eq_refl) _ Hroll).
Defined.

(** C5 as stated fails: an on-demand launch is interrupted during the
    settle delay, the rollback's terminate call raises a provider error,
    and [launch] ends with that error, not with the interrupt. *)
Lemma rollback_failure_masks_original :
  launch_try interrupted_env on_demand_args 3 (mkFrame (mkLaunchVars [] []) [])
  = (Raised KeyboardInterrupt,
     mkFrame (mkLaunchVars [] [mkInstance "i-0" "pending" [];
                               mkInstance "i-1" "pending" []])
       [CreateInstances 2; Sleep 10])
  ∧ launch_acquire interrupted_env on_demand_args 3 []
    = (Raised (ClientError "RequestLimitExceeded"),
       mkFrame (mkLaunchVars [] [mkInstance "i-0" "pending" [];
                                 mkInstance "i-1" "pending" []])
         [CreateInstances 2; Sleep 10; TerminateInstances ["i-0"; "i-1"]])
  ∧ ¬ original_failure_reraised.
Proof.
  assert (launch_try interrupted_env on_demand_args 3
            (mkFrame (mkLaunchVars [] []) [])
          = (Raised KeyboardInterrupt,
             mkFrame (mkLaunchVars [] [mkInstance "i-0" "pending" [];
                                       mkInstance "i-1" "pending" []])
               [CreateInstances 2; Sleep 10])) as Htry
    by (vm_compute; reflexivity).
  assert (launch_acquire interrupted_env on_demand_args 3 []
          = (Raised (ClientError "RequestLimitExceeded"),
             mkFrame (mkLaunchVars [] [mkInstance "i-0" "pending" [];
                                       mkInstance "i-1" "pending" []])
               [CreateInstances 2; Sleep 10;
                TerminateInstances ["i-0"; "i-1"]])) as Hrun
    by (vm_compute; reflexivity).
  split; [exact Htry|]. split; [exact Hrun|].
  intros Hclaim.
  destruct (Hclaim interrupted_env on_demand_args 3 _ _ _ Htry eq_refl)
    as [s2 Hs2].
  unfold launch_acquire in Hrun. rewrite Hrun in Hs2. discriminate.
Qed.

(** * Further properties of the code *)

(** ** Block-device planning on any image *)

(** X1. On a disk-backed image whose root entry declares an integer size
    and carries an encryption flag, the planner answers the root entry
    followed by the twelve ephemeral slots; the root volume is never
    shrunk (its size is the larger of the declared size and 30), its type
    is forced to gp2 only when it is resized, the encryption flag is
    removed in both cases, and every other key of the entry is kept. *)
Theorem ebs_root_entry (env : Environment) (ami : string) (s : Frame unit)
    (image : Image) (rest : list Image) (d : BlockDevice)
    (ebs : gmap string ebs_value) (n : Z) (flag : ebs_value) :
  answer_images env (trace s) (DescribeImages ami) = Ok (image :: rest) →
  root_device_type image = "ebs" →
  root_device_of image = Some d →
  Ebs d = Some ebs →
  ebs !! "VolumeSize" = Some (EInt n) →
  ebs !! "Encrypted" = Some flag →
  ∃ ebs',
    get_ec2_block_device_mappings env ami s
    = (Done (mkDevice (DeviceName d) (VirtualName d) (Some ebs')
             :: twelve_ephemeral_slots),
       after_image_lookup ami s)
    ∧ ebs' !! "VolumeSize" = Some (EInt (Z.max n 30))
    ∧ ebs' !! "VolumeType"
      = (if decide (n < 30)%Z then Some (EStr "gp2") else ebs !! "VolumeType")
    ∧ ebs' !! "Encrypted" = None
    ∧ ∀ k, k ≠ "VolumeSize" → k ≠ "VolumeType" → k ≠ "Encrypted" →
           ebs' !! k = ebs !! k.
Proof.
  intros Hcall Htype Hroot Hebs Hsize Hflag.
  unfold get_ec2_block_device_mappings, bind, call. rewrite Hcall.
  cbn [first_item ret]. unfold root_device_entries.
  rewrite decide_True by done. unfold root_device_of in Hroot.
  destruct (filter _ (block_device_mappings image)) as [|d' ds]; [done|].
  injection Hroot as ->. rewrite Hebs, Hsize. cbn [as_int].
  unfold min_root_device_size_gb.
  destruct (decide (n < 30)%Z) as [Hlt|Hge].
  - rewrite !lookup_insert_ne by done. rewrite Hflag.
    cbn [lift_result ret]. rewrite ephemeral_devices_12.
    eexists. split; [reflexivity|]. split; [|split; [|split]].
    + rewrite lookup_delete_ne, lookup_insert_ne by done.
      rewrite lookup_insert_eq. do 2 f_equal. lia.
    + rewrite lookup_delete_ne by done. by rewrite lookup_insert_eq.
    + by rewrite lookup_delete_eq.
    + intros k H1 H2 H3.
      by rewrite lookup_delete_ne, !lookup_insert_ne by done.
  - rewrite Hflag. cbn [lift_result ret]. rewrite ephemeral_devices_12.
    eexists. split; [reflexivity|]. split; [|split; [|split]].
    + rewrite lookup_delete_ne by done. rewrite Hsize. do 2 f_equal. lia.
    + by rewrite lookup_delete_ne by done.
    + by rewrite lookup_delete_eq.
    + intros k H1 H2 H3. by rewrite lookup_delete_ne by done.
Qed.

Lemma ebs_root_entry_witness :
  ∃ ebs',
    get_ec2_block_device_mappings (image_env [image_40gb]) "ami-2"
      (mkFrame tt [])
    = (Done (mkDevice "/dev/xvda" None (Some ebs') :: twelve_ephemeral_slots),
       mkFrame tt [DescribeImages "ami-2"])
    ∧ ebs' !! "VolumeSize" = Some (EInt 40)
    ∧ ebs' !! "VolumeType" = Some (EStr "io1")
    ∧ ebs' !! "Encrypted" = None
    ∧ ebs' !! "SnapshotId" = Some (EStr "snap-1").
Proof.
  destruct (ebs_root_entry (image_env [image_40gb]) "ami-2" (mkFrame tt [])
              image_40gb []
              (mkDevice "/dev/xvda" None
                 (Some (<["VolumeSize" := EInt 40]>
                          (<["VolumeType" := EStr "io1"]>
                             (<["SnapshotId" := EStr "snap-1"]>
                                (<["Encrypted" := EBool true]> ∅))))))
              (<["VolumeSize" := EInt 40]>
                 (<["VolumeType" := EStr "io1"]>
                    (<["SnapshotId" := EStr "snap-1"]>
                       (<["Encrypted" := EBool true]> ∅))))
              40%Z (EBool true)
              eq_refl eq_refl eq_refl eq_refl eq_refl eq_refl)
    as (ebs' & Hrun & Hsize & Htype & Hflag & Hkeep).
  exists ebs'. split; [exact Hrun|]. split; [exact Hsize|].
  split; [exact Htype|]. split; [exact Hflag|].
  rewrite Hkeep by done. reflexivity.
Defined.

(** X2. On an image that is not disk-backed the planner leaves the root
    alone: it answers exactly the twelve ephemeral slots, whatever block
    devices the image declares. *)
Theorem instance_store_plan (env : Environment) (ami : string)
    (s : Frame unit) (image : Image) (rest : list Image) :
  answer_images env (trace s) (DescribeImages ami) = Ok (image :: rest) →
  root_device_type image ≠ "ebs" →
  get_ec2_block_device_mappings env ami s
  = (Done twelve_ephemeral_slots, after_image_lookup ami s).
Proof.
  intros Hcall Htype.
  unfold get_ec2_block_device_mappings, bind, call. rewrite Hcall.
  cbn [first_item ret]. unfold root_device_entries.
  rewrite decide_False by done. cbn [lift_result ret].
  by rewrite ephemeral_devices_12.
Qed.

Lemma instance_store_plan_witness :
  get_ec2_block_device_mappings (image_env [image_instance_store]) "ami-3"
    (mkFrame tt [])
  = (Done twelve_ephemeral_slots, mkFrame tt [DescribeImages "ami-3"]).
Proof.
  apply (instance_store_plan (image_env [image_instance_store]) "ami-3"
           (mkFrame tt []) image_instance_store []).
  - reflexivity.
  - discriminate.
Defined.

(** X3. Failures of the planner, each after the single image lookup: an
    unknown image id (empty answer) gives [IndexError]; on a disk-backed
    image, a root device name that no block device carries gives
    [IndexError], a root entry without ['Ebs'] gives [KeyError], one
    without ['VolumeSize'] gives [KeyError], and a size that is a string
    gives [TypeError]. *)
Theorem planner_failures (env : Environment) (ami : string) (s : Frame unit) :
  (answer_images env (trace s) (DescribeImages ami) = Ok [] →
   get_ec2_block_device_mappings env ami s
   = (Raised IndexError, after_image_lookup ami s))
  ∧ ∀ image rest,
      answer_images env (trace s) (DescribeImages ami) = Ok (image :: rest) →
      root_device_type image = "ebs" →
      (root_device_of image = None →
       get_ec2_block_device_mappings env ami s
       = (Raised IndexError, after_image_lookup ami s))
      ∧ (∀ d, root_device_of image = Some d → Ebs d = None →
           get_ec2_block_device_mappings env ami s
           = (Raised (KeyError "Ebs"), after_image_lookup ami s))
      ∧ (∀ d ebs, root_device_of image = Some d → Ebs d = Some ebs →
           ebs !! "VolumeSize" = None →
           get_ec2_block_device_mappings env ami s
           = (Raised (KeyError "VolumeSize"), after_image_lookup ami s))
      ∧ (∀ d ebs v, root_device_of image = Some d → Ebs d = Some ebs →
           ebs !! "VolumeSize" = Some (EStr v) →
           get_ec2_block_device_mappings env ami s
           = (Raised TypeError, after_image_lookup ami s)).
Proof.
  split.
  - intros Hcall. unfold get_ec2_block_device_mappings, bind, call.
    by rewrite Hcall.
  - intros image rest Hcall Htype.
    assert (∀ e, root_device_entries image = Raise e →
                 get_ec2_block_device_mappings env ami s
                 = (Raised e, after_image_lookup ami s)) as Hraise.
    { intros e He. unfold get_ec2_block_device_mappings, bind, call.
      rewrite Hcall. cbn [first_item ret]. by rewrite He. }
    unfold root_device_of.
    split; [|split; [|split]].
    + intros Hroot. apply Hraise. unfold root_device_entries.
      rewrite decide_True by done.
      by destruct (filter _ (block_device_mappings image)).
    + intros d Hroot Hebs. apply Hraise. unfold root_device_entries.
      rewrite decide_True by done.
      destruct (filter _ (block_device_mappings image)) as [|d' ds]; [done|].
      injection Hroot as ->. by rewrite Hebs.
    + intros d ebs Hroot Hebs Hsize. apply Hraise. unfold root_device_entries.
      rewrite decide_True by done.
      destruct (filter _ (block_device_mappings image)) as [|d' ds]; [done|].
      injection Hroot as ->. by rewrite Hebs, Hsize.
    + intros d ebs v Hroot Hebs Hsize. apply Hraise.
      unfold root_device_entries. rewrite decide_True by done.
      destruct (filter _ (block_device_mappings image)) as [|d' ds]; [done|].
      injection Hroot as ->. by rewrite Hebs, Hsize.
Qed.

Lemma planner_failures_witness :
  get_ec2_block_device_mappings (image_env []) "ami-0" (mkFrame tt [])
  = (Raised IndexError, mkFrame tt [DescribeImages "ami-0"])
  ∧ get_ec2_block_device_mappings
      (image_env [mkImage "ebs" "/dev/sda1" [mkDevice "/dev/sdb" None None]])
      "ami-0" (mkFrame tt [])
    = (Raised IndexError, mkFrame tt [DescribeImages "ami-0"]).
Proof.
  split.
  - apply (proj1 (planner_failures (image_env []) "ami-0" (mkFrame tt []))).
    reflexivity.
  - apply (proj2 (planner_failures
                    (image_env [mkImage "ebs" "/dev/sda1"
                                  [mkDevice "/dev/sdb" None None]])
                    "ami-0" (mkFrame tt []))
             (mkImage "ebs" "/dev/sda1" [mkDevice "/dev/sdb" None None]) []).
    + reflexivity.
    + reflexivity.
    + reflexivity.
Defined.

(** ** Lifecycle guards and round trips *)

Lemma start_refused env fuel user identity_file s :
  state (vars s) ≠ "stopped" →
  start env fuel user identity_file s
  = (Raised (guard_refusal "start" "running" "Cluster is already running."
               (state (vars s))), s).
Proof.
  intros Hs. unfold start, start_check, guard_refusal, bind, get.
  destruct (decide (state (vars s) = "running")); [done|].
  by rewrite decide_True by done.
Qed.

Lemma stop_refused env fuel s :
  state (vars s) ≠ "running" →
  stop env fuel s
  = (Raised (guard_refusal "stop" "stopped" "Cluster is already stopped."
               (state (vars s))), s).
Proof.
  intros Hs. unfold stop, stop_check, guard_refusal, bind, get.
  destruct (decide (state (vars s) = "stopped")); [done|].
  by rewrite decide_True by done.
Qed.

(** X4. The guards of [start] and [stop] refuse every cluster that is not
    in the state the operation needs, before any call: [start] needs
    stopped, [stop] needs running; a cluster already in the target state
    gets [NothingToDo], any other state (pending, stopping, inconsistent,
    ...) gets [ClusterInvalidState] carrying the command and the state. *)
Theorem lifecycle_guards_refuse (env : Environment) (fuel : nat)
    (user identity_file : string) (s : Frame EC2Cluster) :
  (state (vars s) ≠ "stopped" →
   start env fuel user identity_file s
   = (Raised (guard_refusal "start" "running" "Cluster is already running."
                (state (vars s))), s))
  ∧ (state (vars s) ≠ "running" →
     stop env fuel s
     = (Raised (guard_refusal "stop" "stopped" "Cluster is already stopped."
                  (state (vars s))), s)).
Proof. split; [apply start_refused | apply stop_refused]. Qed.

Lemma lifecycle_guards_refuse_witness :
  start (steady_env "running") 3 "ec2-user" "key.pem"
    (mkFrame pending_cluster [])
  = (Raised (ClusterInvalidState "start" "inconsistent"),
     mkFrame pending_cluster [])
  ∧ stop (steady_env "running") 3 (mkFrame stopped_cluster [])
    = (Raised (NothingToDo "Cluster is already stopped."),
       mkFrame stopped_cluster []).
Proof.
  split.
  - apply (proj1 (lifecycle_guards_refuse (steady_env "running") 3
                    "ec2-user" "key.pem" (mkFrame pending_cluster []))).
    vm_compute. discriminate.
  - apply (proj2 (lifecycle_guards_refuse (steady_env "running") 3
                    "ec2-user" "key.pem" (mkFrame stopped_cluster []))).
    vm_compute. discriminate.
Defined.

Lemma start_returned env fuel user identity_file s s' :
  start env fuel user identity_file s = (Done tt, s') →
  state (vars s) = "stopped" ∧ state (vars s') = "running".
Proof.
  intros Hrun.
  destruct (decide (state (vars s) = "stopped")) as [Hs|Hs].
  - split; [done|].
    destruct (start_run env fuel user identity_file s _ _ Hs Hrun)
      as (t & _ & _ & Hconv & Hdone).
    apply converged_state, Hconv, Hdone. done.
  - rewrite (start_refused env fuel user identity_file s Hs) in Hrun.
    discriminate.
Qed.

Lemma stop_returned env fuel s s' :
  stop env fuel s = (Done tt, s') →
  state (vars s) = "running" ∧ state (vars s') = "stopped".
Proof.
  intros Hrun.
  destruct (decide (state (vars s) = "running")) as [Hs|Hs].
  - split; [done|].
    destruct (stop_run env fuel s _ _ Hs Hrun) as (t & _ & _ & Hdone).
    apply converged_state. by apply Hdone.
  - rewrite (stop_refused env fuel s Hs) in Hrun. discriminate.
Qed.

(** X5. [start] returns only on a cluster that was stopped and leaves its
    aggregate state running; [stop] returns only on a cluster that was
    running and leaves it stopped. Hence repeating the operation that just
    returned raises [NothingToDo] without any call, and the opposite
    operation passes its guard. *)
Theorem lifecycle_round_trip (env : Environment) (fuel : nat)
    (user identity_file : string) (s s' : Frame EC2Cluster) :
  (start env fuel user identity_file s = (Done tt, s') →
   state (vars s) = "stopped" ∧ state (vars s') = "running"
   ∧ (∀ fuel', start env fuel' user identity_file s'
               = (Raised (NothingToDo "Cluster is already running."), s'))
   ∧ (∀ fuel' out s'', stop env fuel' s' = (out, s'') →
        ∃ rest, trace s'' = trace s' ++ SuperStop :: rest))
  ∧ (stop env fuel s = (Done tt, s') →
     state (vars s) = "running" ∧ state (vars s') = "stopped"
     ∧ (∀ fuel', stop env fuel' s'
                 = (Raised (NothingToDo "Cluster is already stopped."), s'))
     ∧ (∀ fuel' out s'', start env fuel' user identity_file s' = (out, s'') →
          ∃ rest, trace s'' = trace s'
                              ++ StartInstances (instance_ids (vars s'))
                                 :: rest)).
Proof.
  split.
  - intros Hrun. destruct (start_returned _ _ _ _ _ _ Hrun) as [Hs Hs'].
    split; [done|]. split; [done|]. split.
    + intros fuel'. rewrite start_refused by (rewrite Hs'; discriminate).
      unfold guard_refusal. by rewrite Hs', decide_True.
    + intros fuel' out s'' Hstop.
      destruct (stop_run env fuel' s' _ _ Hs' Hstop)
        as (t & Ht & (rest & -> & _) & _). eauto.
  - intros Hrun. destruct (stop_returned _ _ _ _ Hrun) as [Hs Hs'].
    split; [done|]. split; [done|]. split.
    + intros fuel'. rewrite stop_refused by (rewrite Hs'; discriminate).
      unfold guard_refusal. by rewrite Hs', decide_True.
    + intros fuel' out s'' Hstart.
      destruct (start_run env fuel' user identity_file s' _ _ Hs' Hstart)
        as (t & Ht & (polls & h & -> & _) & _). eauto.
Qed.

Lemma lifecycle_round_trip_witness :
  state stopped_cluster = "stopped" ∧ state running_cluster = "running"
  ∧ (∀ fuel', start (steady_env "running") fuel' "ec2-user" "key.pem"
                (mkFrame running_cluster
                   [StartInstances ["i-0"; "i-1"];
                    DescribeInstances ["i-0"; "i-1"];
                    Sleep 3; SuperStart "ec2-user" "key.pem"])
              = (Raised (NothingToDo "Cluster is already running."),
                 mkFrame running_cluster
                   [StartInstances ["i-0"; "i-1"];
                    DescribeInstances ["i-0"; "i-1"];
                    Sleep 3; SuperStart "ec2-user" "key.pem"])).
Proof.
  destruct (proj1 (lifecycle_round_trip (steady_env "running") 5
                     "ec2-user" "key.pem" (mkFrame stopped_cluster [])
                     (mkFrame running_cluster
                        [StartInstances ["i-0"; "i-1"];
                         DescribeInstances ["i-0"; "i-1"];
                         Sleep 3; SuperStart "ec2-user" "key.pem"]))
              eq_refl) as (H1 & H2 & H3 & _).
  split; [exact H1|]. split; [exact H2 | exact H3].
Defined.

(** ** State convergence, round by round *)

Lemma wait_for_state_rejects env fuel target s out s' :
  wait_for_state env fuel target s = (out, s') →
  ∃ t, trace s' = trace s ++ t
    ∧ ∀ pre ids post l e,
        t = pre ++ DescribeInstances ids :: post →
        answer_instances env (trace s ++ pre) (DescribeInstances ids) = Ok l →
        _get_cluster_master_slaves l = Raise e →
        out = Raised e ∧ post = [].
Proof.
  revert s. induction fuel as [|fuel IH]; intros s;
    rewrite wait_for_state_unfold;
    destruct (existsb _ (instances (vars s))) eqn:E.
  1,2,4: intros [= <- <-]; exists []; rewrite app_nil_r; (split; [done|]);
         intros [|??] ??????; discriminate.
  destruct (answer_instances env (trace s) _) as [l0|e0] eqn:Hl0.
  - destruct (_get_cluster_master_slaves l0) as [[m ss]|e0] eqn:Hc.
    + cbv zeta. destruct (answer_unit env _ (Sleep 3)) as [u|e0].
      * intros (t1 & Ht1 & Hrej)%IH. cbn [trace] in Ht1, Hrej.
        exists (DescribeInstances (instance_ids (vars s)) :: Sleep 3 :: t1).
        split; [rewrite Ht1; by rewrite <- !app_assoc|].
        intros [|a [|b pre]] ids post l e Heq Hans Hcl; try discriminate.
        -- injection Heq as <- _. rewrite app_nil_r in Hans. congruence.
        -- injection Heq as <- <- Heq.
           apply (Hrej pre ids post l e Heq); [|done].
           rewrite <- Hans. f_equal. by rewrite <- !app_assoc.
      * intros [= <- <-]. cbn [trace].
        exists [DescribeInstances (instance_ids (vars s)); Sleep 3].
        split; [by rewrite <- !app_assoc|].
        intros [|a [|b [|c pre]]] ids post l e Heq Hans Hcl;
          try discriminate.
        injection Heq as <- _. rewrite app_nil_r in Hans. congruence.
    + intros [= <- <-]. cbn [trace].
      exists [DescribeInstances (instance_ids (vars s))]. split; [done|].
      intros [|a [|b pre]] ids post l e Heq Hans Hcl; try discriminate.
      injection Heq as <- <-. rewrite app_nil_r in Hans.
      rewrite Hl0 in Hans. injection Hans as <-. split; [|done]. congruence.
  - intros [= <- <-]. cbn [trace].
    exists [DescribeInstances (instance_ids (vars s))]. split; [done|].
    intros [|a [|b pre]] ids post l e Heq Hans Hcl; try discriminate.
    injection Heq as <- <-. rewrite app_nil_r in Hans. congruence.
Qed.

(** X6. Any refresh that the role classifier rejects ends
    [wait_for_state] at once with the classifier's error: a describe that
    answers no master-tagged instance (an empty listing included), two of
    them, or no worker is not retried. *)
Theorem wait_for_state_refresh_rejected (env : Environment) (fuel : nat)
    (target : string) (s s' : Frame EC2Cluster) (out : Outcome unit) :
  wait_for_state env fuel target s = (out, s') →
  ∀ pre ids post l e,
    trace s' = (trace s ++ pre) ++ DescribeInstances ids :: post →
    answer_instances env (trace s ++ pre) (DescribeInstances ids) = Ok l →
    _get_cluster_master_slaves l = Raise e →
    out = Raised e ∧ post = [].
Proof.
  intros (t & Ht & Hrej)%wait_for_state_rejects pre ids post l e Htr.
  rewrite Ht, <- app_assoc in Htr. apply app_inv_head in Htr.
  by apply Hrej.
Qed.

Lemma wait_for_state_refresh_rejected_witness :
  wait_for_state blind_env 4 "running" (mkFrame stopped_cluster [])
  = (Raised (Exception "No master found."),
     mkFrame stopped_cluster [DescribeInstances ["i-0"; "i-1"]]).
Proof.
  assert (∃ out s', wait_for_state blind_env 4 "running"
                      (mkFrame stopped_cluster []) = (out, s')
                    ∧ trace s' = [DescribeInstances ["i-0"; "i-1"]]
                    ∧ vars s' = stopped_cluster) as (out & s' & Hrun & Ht & Hv)
    by (eexists _, _; split; [reflexivity|]; split; reflexivity).
  destruct (wait_for_state_refresh_rejected blind_env 4 "running" _ _ _ Hrun
              [] ["i-0"; "i-1"] [] [] (Exception "No master found."))
    as [-> _]; [by rewrite Ht | reflexivity | reflexivity |].
  rewrite Hrun. destruct s' as [v t]. cbn [trace vars] in Ht, Hv.
  by rewrite Ht, Hv.
Defined.

Lemma classified_role_consistent l m ss n r v :
  _get_cluster_master_slaves l = Ok (m, ss) →
  role_consistent (mkCluster n r v m ss).
Proof.
  intros (Hm & Hne & Hss)%get_cluster_master_slaves_ok.
  unfold role_consistent. cbn [master_instance slave_instances].
  split; [|split; [done|]].
  - assert (m ∈ masters l) as Hin by (rewrite Hm; left).
    by apply list_elem_of_filter in Hin as [? _].
  - eapply Forall_impl; [exact Hss|]. by intros x [_ ?].
Qed.



(** ** Teardown, call by call *)

Lemma for_each_modify_done {V} env (base : string) (l : list Instance)
    (s : Frame V) :
  (∀ h ev, answer_unit env h ev = Ok tt) →
  for_each l (λ i, call (answer_unit env)
                     (ModifyAttribute (instance_id i) [base])) s
  = (Done tt,
     mkFrame (vars s)
       (trace s ++ ((λ i, ModifyAttribute (instance_id i) [base]) <$> l))).
Proof.
  intros Hok. revert s. induction l as [|i l IH]; intros s; cbn [for_each].
  - unfold ret. rewrite app_nil_r. by destruct s.
  - unfold bind, call at 1. rewrite Hok. rewrite IH. cbn [vars trace].
    by rewrite <- app_assoc.
Qed.

(** X8. A run of [destroy] that returns has made exactly these calls, in
    this order: the two generic hooks, the lookup of the base group, one
    detach call per instance (master first) naming the first base group
    answered, the lookup of the cluster group by its name, the deletion of
    the first group that lookup answered, and one terminate call for all
    instance ids. The cluster entity itself is left as it was. *)
Theorem destroy_success_trace (env : Environment) (s s' : Frame EC2Cluster) :
  destroy env s = (Done tt, s') →
  vars s' = vars s
  ∧ ∃ base others cluster_group others',
      answer_groups env (trace s ++ [DestroyCheck; SuperDestroy])
        (base_lookup (vars s)) = Ok (base :: others)
      ∧ answer_groups env
          (trace s ++ [DestroyCheck; SuperDestroy; base_lookup (vars s)]
           ++ detach_calls (vars s) base)
          (cluster_lookup (vars s)) = Ok (cluster_group :: others')
      ∧ trace s'
        = trace s ++ [DestroyCheck; SuperDestroy; base_lookup (vars s)]
          ++ detach_calls (vars s) base
          ++ [cluster_lookup (vars s);
              DeleteSecurityGroup (group_id cluster_group);
              TerminateInstances (instance_ids (vars s))].
Proof.
  unfold destroy, hook, bind. unfold call at 1. cbn [vars trace].
  destruct (answer_unit env (trace s) DestroyCheck) as [u|e]; [|done].
  unfold call at 1. cbn [vars trace].
  destruct (answer_unit env _ SuperDestroy) as [u'|e]; [|done].
  unfold get. cbn [vars trace]. unfold call at 1. cbn [vars trace].
  rewrite <- (app_assoc (trace s) [DestroyCheck] [SuperDestroy]).
  cbn [app]. fold (base_lookup (vars s)).
  destruct (answer_groups env (trace s ++ [DestroyCheck; SuperDestroy]) _)
    as [[|base others]|e] eqn:Hbase; cbn [first_item ret raise]; try done.
  destruct (for_each (instances (vars s)) _ _) as [o s1] eqn:F.
  apply for_each_modify in F as (Hv & m & Hm & _ & Hd).
  cbn [vars trace] in Hv, Hm.
  destruct o as [[]|e|]; try done. specialize (Hd eq_refl).
  fold (detach_calls (vars s) base) in Hd. subst m.
  assert (trace s1
          = trace s ++ [DestroyCheck; SuperDestroy; base_lookup (vars s)]
            ++ detach_calls (vars s) base) as Hs1
    by (rewrite Hm; by rewrite <- !app_assoc).
  clear Hm. unfold call at 1. cbn [vars trace].
  fold (cluster_lookup (vars s)). rewrite Hs1.
  destruct (answer_groups env _ (cluster_lookup (vars s)))
    as [[|cg others']|e] eqn:Hcg; cbn [first_item ret raise]; try done.
  unfold call at 1. cbn [vars trace].
  destruct (answer_unit env _ (DeleteSecurityGroup _)) as [u1|e]; [|done].
  unfold call. cbn [vars trace].
  destruct (answer_unit env _ (TerminateInstances _)) as [[]|e]; [|done].
  intros [= <-]. cbn [vars trace]. split; [done|].
  exists base, others, cg, others'. split; [done|]. split; [done|].
  by rewrite <- !app_assoc.
Qed.

Lemma destroy_success_trace_witness :
  ∃ base others cluster_group others',
    answer_groups (steady_env "running") [DestroyCheck; SuperDestroy]
      (base_lookup running_cluster) = Ok (base :: others)
    ∧ answer_groups (steady_env "running")
        ([DestroyCheck; SuperDestroy; base_lookup running_cluster]
         ++ detach_calls running_cluster base)
        (cluster_lookup running_cluster) = Ok (cluster_group :: others')
    ∧ [DestroyCheck; SuperDestroy;
       DescribeSecurityGroups "flintrock" "vpc-1";
       ModifyAttribute "i-0" ["sg-flintrock"];
       ModifyAttribute "i-1" ["sg-flintrock"];
       DescribeSecurityGroups "flintrock-test" "vpc-1";
       DeleteSecurityGroup "sg-flintrock-test";
       TerminateInstances ["i-0"; "i-1"]]
      = [DestroyCheck; SuperDestroy; base_lookup running_cluster]
        ++ detach_calls running_cluster base
        ++ [cluster_lookup running_cluster;
            DeleteSecurityGroup (group_id cluster_group);
            TerminateInstances (instance_ids running_cluster)].
Proof.
  exact (proj2 (destroy_success_trace (steady_env "running")
                  (mkFrame running_cluster [])
                  (mkFrame running_cluster
                     [DestroyCheck; SuperDestroy;
                      DescribeSecurityGroups "flintrock" "vpc-1";
                      ModifyAttribute "i-0" ["sg-flintrock"];
                      ModifyAttribute "i-1" ["sg-flintrock"];
                      DescribeSecurityGroups "flintrock-test" "vpc-1";
                      DeleteSecurityGroup "sg-flintrock-test";
                      TerminateInstances ["i-0"; "i-1"]])
                  eq_refl)).
Defined.

(** X9. When a security group is missing, [destroy] stops with
    [IndexError]. If the base group is missing, no instance has been
    touched. If the cluster group is missing (the hooks and detach calls
    having succeeded), every instance has already been detached and
    reattached to the base group, and nothing is deleted or terminated. *)
Theorem destroy_missing_group (env : Environment) (s : Frame EC2Cluster) :
  (∀ h ev, answer_unit env h ev = Ok tt) →
  (answer_groups env (trace s ++ [DestroyCheck; SuperDestroy])
     (base_lookup (vars s)) = Ok [] →
   destroy env s
   = (Raised IndexError,
      mkFrame (vars s)
        (trace s ++ [DestroyCheck; SuperDestroy; base_lookup (vars s)])))
  ∧ ∀ base others,
      answer_groups env (trace s ++ [DestroyCheck; SuperDestroy])
        (base_lookup (vars s)) = Ok (base :: others) →
      answer_groups env
        (trace s ++ [DestroyCheck; SuperDestroy; base_lookup (vars s)]
         ++ detach_calls (vars s) base)
        (cluster_lookup (vars s)) = Ok [] →
      destroy env s
      = (Raised IndexError,
         mkFrame (vars s)
           (trace s ++ [DestroyCheck; SuperDestroy; base_lookup (vars s)]
            ++ detach_calls (vars s) base ++ [cluster_lookup (vars s)])).
Proof.
  intros Hok. split.
  - intros Hb.
    unfold destroy, hook, bind. unfold call at 1. rewrite Hok.
    cbn [vars trace]. unfold call at 1. rewrite Hok. cbn [vars trace].
    unfold get. cbn [vars trace]. unfold call at 1. cbn [vars trace].
    rewrite <- (app_assoc (trace s) [DestroyCheck] [SuperDestroy]).
    cbn [app]. fold (base_lookup (vars s)). rewrite Hb.
    cbn [first_item raise]. by rewrite <- app_assoc.
  - intros base others Hb Hcg.
    unfold destroy, hook, bind. unfold call at 1. rewrite Hok.
    cbn [vars trace]. unfold call at 1. rewrite Hok. cbn [vars trace].
    unfold get. cbn [vars trace]. unfold call at 1. cbn [vars trace].
    rewrite <- (app_assoc (trace s) [DestroyCheck] [SuperDestroy]).
    cbn [app]. fold (base_lookup (vars s)). rewrite Hb.
    cbn [first_item ret]. rewrite (for_each_modify_done env _ _ _ Hok).
    cbn [vars trace]. fold (detach_calls (vars s) base).
    unfold call at 1. cbn [vars trace]. fold (cluster_lookup (vars s)).
    rewrite <- !app_assoc. cbn [app]. cbn [app] in Hcg. rewrite Hcg.
    reflexivity.
Qed.

Lemma destroy_missing_group_witness :
  destroy (one_group_env "flintrock-test") (mkFrame running_cluster [])
  = (Raised IndexError,
     mkFrame running_cluster
       [DestroyCheck; SuperDestroy;
        DescribeSecurityGroups "flintrock" "vpc-1"])
  ∧ destroy (one_group_env "flintrock") (mkFrame running_cluster [])
    = (Raised IndexError,
       mkFrame running_cluster
         [DestroyCheck; SuperDestroy;
          DescribeSecurityGroups "flintrock" "vpc-1";
          ModifyAttribute "i-0" ["sg-flintrock"];
          ModifyAttribute "i-1" ["sg-flintrock"];
          DescribeSecurityGroups "flintrock-test" "vpc-1"]).
Proof.
  split.
  - apply (proj1 (destroy_missing_group (one_group_env "flintrock-test")
                    (mkFrame running_cluster []) (λ _ _, eq_refl))).
    reflexivity.
  - apply (proj2 (destroy_missing_group (one_group_env "flintrock")
                    (mkFrame running_cluster []) (λ _ _, eq_refl))
             (mkGroup "sg-flintrock" "flintrock") []).
    + reflexivity.
    + reflexivity.
Defined.

(** ** Launch: acquisition, tagging and rollback, call by call *)

Lemma launch_rollback_halves env args :
  launch_rollback env args
  = bind (rollback_requests env) (λ _, rollback_instances env args).
Proof. reflexivity. Qed.

Lemma wait_for_state_identity env fuel target s out s' :
  wait_for_state env fuel target s = (out, s') →
  name (vars s') = name (vars s)
  ∧ region (vars s') = region (vars s)
  ∧ vpc_id (vars s') = vpc_id (vars s).
Proof.
  revert s. induction fuel as [|fuel IH]; intros s;
    rewrite wait_for_state_unfold;
    destruct (existsb _ (instances (vars s))) eqn:E.
  1,2,4: by intros [= <- <-].
  destruct (answer_instances env (trace s) _) as [l0|e0];
    [|by intros [= <- <-]].
  destruct (_get_cluster_master_slaves l0) as [[m ss]|e0];
    [|by intros [= <- <-]].
  cbv zeta. destruct (answer_unit env _ (Sleep 3)) as [u|e0];
    [|by intros [= <- <-]].
  intros (Hn & Hr & Hv)%IH. cbn [vars name region vpc_id] in *. done.
Qed.

(** A run of the rest of the [try] body that returns: the converger was
    run on the cluster built from the first instance and the others,
    right after the key-pair call, and returned. *)
Lemma tag_and_provision_converged env args fuel s s' :
  tag_and_provision env args fuel s = (Done tt, s') →
  vars s' = vars s
  ∧ ∃ master slaves polls cluster,
      cluster_instances (vars s) = master :: slaves
      ∧ wait_for_state env fuel "running"
          (mkFrame (mkCluster (cluster_name args) (launch_region args)
                      (launch_vpc_id args) master slaves)
             (trace s ++ settle_and_tag_calls args master slaves))
        = (Done tt,
           mkFrame cluster
             (trace s ++ settle_and_tag_calls args master slaves ++ polls))
      ∧ trace s'
        = trace s ++ settle_and_tag_calls args master slaves ++ polls
          ++ [provision_call args].
Proof.
  unfold tag_and_provision, hook, bind. unfold call at 1. cbn [vars trace].
  destruct (answer_unit env (trace s) (Sleep 10)) as [u|e]; [|done].
  unfold get. cbn [vars trace].
  destruct (cluster_instances (vars s)) as [|master slaves];
    cbn [first_item ret raise tail]; [done|].
  unfold call at 1. cbn [vars trace].
  destruct (answer_unit env _ (CreateTags _ "master" _)) as [u1|e]; [|done].
  unfold call at 1. cbn [vars trace].
  destruct (answer_unit env _ (CreateTags _ "slave" _)) as [u2|e]; [|done].
  unfold call at 1. cbn [vars trace].
  destruct (answer_unit env _ GenerateSshKeyPair) as [u3|e]; [|done].
  unfold run_on. cbn [vars trace].
  assert ((((trace s ++ [Sleep 10])
            ++ [CreateTags [instance_id master] "master"
                  (cluster_name args +:+ "-master")])
           ++ [CreateTags (instance_id <$> slaves) "slave"
                 (cluster_name args +:+ "-slave")])
          ++ [GenerateSshKeyPair]
          = trace s ++ settle_and_tag_calls args master slaves) as ->
    by (unfold settle_and_tag_calls; by rewrite <- !app_assoc).
  destruct (wait_for_state env fuel "running" _) as [o s1] eqn:W.
  pose proof (wait_for_state_run _ _ _ _ _ _ W) as (w & Hw & _ & _).
  cbn [trace] in Hw.
  destruct o as [[]|e|]; [|done|done].
  unfold call. cbn [vars trace].
  destruct (answer_unit env (trace s1) _) as [[]|e]; [|done].
  intros [= <-]. cbn [vars trace]. split; [done|].
  exists master, slaves, w, (vars s1).
  split; [done|]. split.
  - destruct s1 as [c t]. cbn [vars trace] in *. subst t.
    rewrite W. by rewrite <- app_assoc.
  - rewrite Hw. unfold provision_call. by rewrite <- !app_assoc.
Qed.

Lemma tag_and_provision_done env args fuel s s' :
  tag_and_provision env args fuel s = (Done tt, s') →
  vars s' = vars s
  ∧ ∃ master slaves polls cluster,
      cluster_instances (vars s) = master :: slaves
      ∧ Forall poll_event polls
      ∧ converged "running" cluster
      ∧ name cluster = cluster_name args
      ∧ trace s'
        = trace s ++ settle_and_tag_calls args master slaves ++ polls
          ++ [provision_call args].
Proof.
  intros (Hv & master & slaves & polls & cluster & Hci & W & Ht)
    %tag_and_provision_converged.
  split; [done|]. exists master, slaves, polls, cluster.
  pose proof (wait_for_state_identity _ _ _ _ _ _ W) as (Hn & _).
  pose proof (wait_for_state_run _ _ _ _ _ _ W) as (w & Hw & Hp & Hc).
  cbn [vars trace name] in *.
  rewrite <- app_assoc in Hw. apply app_inv_head, app_inv_head in Hw.
  subst w. split; [done|]. split; [done|]. split; [auto|]. done.
Qed.

Lemma launch_try_except_done env args fuel s s' :
  launch_try_except env args fuel s = (Done tt, s') →
  launch_try env args fuel s = (Done tt, s').
Proof.
  intros Hrun. destruct (launch_try env args fuel s) as [[[]|e|] s1] eqn:T.
  - unfold launch_try_except in Hrun. by rewrite T in Hrun.
  - by destruct (launch_never_returns_after_failure env args fuel s e s1 T
                   tt s').
  - unfold launch_try_except in Hrun. by rewrite T in Hrun.
Qed.

(** X10. An on-demand launch that returns has made one bulk create call
    for N+1 instances, then the settle delay, one tagging call for the
    first instance created (the master) and one for all the others (the
    workers), the key-pair call, the polls of the converger, and last,
    exactly once, the provisioning call. The converger was run on the
    cluster built from the master and the workers under the launch's
    name, region and network; the polls are the calls of that run, and
    the cluster it left, which carries the launch's name, had converged
    to running when provisioning was called. *)
Theorem on_demand_launch_trace (env : Environment) (args : LaunchArgs)
    (fuel : nat) (s s' : Frame LaunchVars) :
  spot_price args = None →
  launch_try_except env args fuel s = (Done tt, s') →
  ∃ master slaves polls cluster,
    answer_instances env (trace s) (CreateInstances (num_slaves args + 1))
    = Ok (master :: slaves)
    ∧ vars s' = mkLaunchVars (spot_requests (vars s)) (master :: slaves)
    ∧ wait_for_state env fuel "running"
        (mkFrame (mkCluster (cluster_name args) (launch_region args)
                    (launch_vpc_id args) master slaves)
           (trace s ++ [CreateInstances (num_slaves args + 1)]
            ++ settle_and_tag_calls args master slaves))
      = (Done tt,
         mkFrame cluster
           (trace s ++ [CreateInstances (num_slaves args + 1)]
            ++ settle_and_tag_calls args master slaves ++ polls))
    ∧ Forall poll_event polls
    ∧ Forall (λ e, e ≠ provision_call args) polls
    ∧ converged "running" cluster
    ∧ name cluster = cluster_name args
    ∧ trace s'
      = trace s ++ [CreateInstances (num_slaves args + 1)]
        ++ settle_and_tag_calls args master slaves ++ polls
        ++ [provision_call args].
Proof.
  intros Hspot Hrun%launch_try_except_done. revert Hrun.
  unfold launch_try, bind. rewrite Hspot.
  unfold acquire_on_demand, bind, call at 1, num_instances. cbn [vars trace].
  destruct (answer_instances env (trace s) _) as [l|e]; [|done].
  unfold set_cluster_instances, bind, get, put. cbn [vars trace].
  intros (Hv & master & slaves & polls & cluster & Hci & W & Ht)
    %tag_and_provision_converged.
  cbn [vars trace cluster_instances] in *. subst l.
  rewrite <- !app_assoc in W.
  pose proof (wait_for_state_identity _ _ _ _ _ _ W) as (Hn & _).
  pose proof (wait_for_state_run _ _ _ _ _ _ W) as (w & Hw & Hp & Hc).
  cbn [vars trace name] in *.
  assert (w = polls) as ->.
  { rewrite <- !app_assoc in Hw. cbn [app] in Hw.
    by repeat (apply app_inv_head in Hw || injection Hw as Hw). }
  exists master, slaves, polls, cluster.
  split; [done|]. split; [done|]. split; [done|]. split; [done|].
  split.
  { eapply Forall_impl; [exact Hp|]. unfold provision_call.
    by intros e [[ids ->] | ->]. }
  split; [auto|]. split; [done|]. rewrite Ht. by rewrite <- !app_assoc.
Qed.

Lemma on_demand_launch_trace_witness :
  ∃ master slaves polls cluster,
    answer_instances smooth_env [] (CreateInstances (1 + 1))
    = Ok (master :: slaves)
    ∧ mkLaunchVars [] fresh_instances
      = mkLaunchVars [] (master :: slaves)
    ∧ wait_for_state smooth_env 4 "running"
        (mkFrame (mkCluster "test" "us-east-1" "vpc-1" master slaves)
           ([] ++ [CreateInstances (1 + 1)]
            ++ settle_and_tag_calls on_demand_args master slaves))
      = (Done tt,
         mkFrame cluster
           ([] ++ [CreateInstances (1 + 1)]
            ++ settle_and_tag_calls on_demand_args master slaves ++ polls))
    ∧ Forall poll_event polls
    ∧ Forall (λ e, e ≠ provision_call on_demand_args) polls
    ∧ converged "running" cluster
    ∧ name cluster = "test"
    ∧ [CreateInstances 2; Sleep 10;
       CreateTags ["i-0"] "master" "test-master";
       CreateTags ["i-1"] "slave" "test-slave";
       GenerateSshKeyPair; DescribeInstances ["i-0"; "i-1"]; Sleep 3;
       ProvisionCluster "ec2-user" "key.pem"]
      = [] ++ [CreateInstances (1 + 1)]
        ++ settle_and_tag_calls on_demand_args master slaves ++ polls
        ++ [provision_call on_demand_args].
Proof.
  exact (on_demand_launch_trace smooth_env on_demand_args 4
           (mkFrame (mkLaunchVars [] []) [])
           (mkFrame (mkLaunchVars [] fresh_instances)
              [CreateInstances 2; Sleep 10;
               CreateTags ["i-0"] "master" "test-master";
               CreateTags ["i-1"] "slave" "test-slave";
               GenerateSshKeyPair; DescribeInstances ["i-0"; "i-1"]; Sleep 3;
               ProvisionCluster "ec2-user" "key.pem"])
           eq_refl eq_refl).
Defined.

(** X11. When the acquisition call itself is refused (the bulk create of
    an on-demand launch, or the bid of a spot launch), there is nothing to
    clean up: the handler makes no call at all and [launch] ends with that
    very exception. *)
Theorem refused_acquisition_reraised (env : Environment) (args : LaunchArgs)
    (fuel : nat) (history : list Event) (e : Exn) :
  Exception_or_KeyboardInterrupt e = true →
  (spot_price args = None →
   answer_instances env history (CreateInstances (num_slaves args + 1))
   = Raise e →
   launch_acquire env args fuel history
   = (Raised e,
      mkFrame (mkLaunchVars [] [])
        (history ++ [CreateInstances (num_slaves args + 1)])))
  ∧ (∀ price,
       spot_price args = Some price →
       answer_spot env history
         (RequestSpotInstances price (num_slaves args + 1)) = Raise e →
       launch_acquire env args fuel history
       = (Raised e,
          mkFrame (mkLaunchVars [] [])
            (history ++ [RequestSpotInstances price (num_slaves args + 1)]))).
Proof.
  intros Hcaught. split.
  - intros Hspot Hans.
    unfold launch_acquire, launch_try_except, launch_try, bind.
    rewrite Hspot. unfold acquire_on_demand, bind, call, num_instances.
    cbn [vars trace]. rewrite Hans, Hcaught. reflexivity.
  - intros price Hspot Hans.
    unfold launch_acquire, launch_try_except, launch_try, bind.
    rewrite Hspot. unfold acquire_spot, bind, num_instances.
    unfold call at 1. cbn [vars trace]. rewrite Hans, Hcaught. reflexivity.
Qed.

Lemma refused_acquisition_reraised_witness :
  launch_acquire
    (mkEnv (λ _ _, Ok tt) (λ _ _, Raise (ClientError "InstanceLimitExceeded"))
       (λ _ _, Ok []) (λ _ _, Ok []) (λ _ _, Ok []) (λ _ _, Ok true))
    on_demand_args 3 []
  = (Raised (ClientError "InstanceLimitExceeded"),
     mkFrame (mkLaunchVars [] []) [CreateInstances 2]).
Proof.
  apply (proj1 (refused_acquisition_reraised
                  (mkEnv (λ _ _, Ok tt)
                     (λ _ _, Raise (ClientError "InstanceLimitExceeded"))
                     (λ _ _, Ok []) (λ _ _, Ok []) (λ _ _, Ok [])
                     (λ _ _, Ok true))
                  on_demand_args 3 [] (ClientError "InstanceLimitExceeded")
                  eq_refl)).
  - reflexivity.
  - reflexivity.
Defined.

Lemma split_in_suffix {A} (P : A → Prop) (l1 l2 pre post : list A) (x : A) :
  l1 ++ l2 = pre ++ x :: post →
  P x → Forall (λ a, ¬ P a) l1 →
  ∃ k, pre = l1 ++ k ∧ l2 = k ++ x :: post.
Proof.
  intros Heq Hx Hl1. rewrite Forall_forall in Hl1.
  apply app_eq_inv in Heq as [(k & -> & Hk) | (k & -> & Hk)].
  - destruct k as [|y k]; simpl in Hk.
    + exists []. split; [by rewrite !app_nil_r | done].
    + injection Hk as <- _. exfalso. apply (Hl1 x); [|done].
      apply elem_of_app. right. left.
  - eauto.
Qed.

Lemma rollback_refresh_run env ids s out s1 :
  rollback_refresh env ids s = (out, s1) →
  ∃ t, trace s1 = trace s ++ t
       ∧ Forall (λ e, consent_free e ∧ bid_free e) t.
Proof.
  unfold rollback_refresh, bind. unfold call at 1. cbn [vars trace].
  destruct (answer_spot env (trace s) _) as [a|e]; cycle 1.
  { intros [= <- <-]. eexists [_]. split; [done|]. by apply Forall_cons_2. }
  unfold set_spot_requests, bind, get, put. cbn [vars trace].
  destruct (omap InstanceId a) as [|i more].
  { intros [= <- <-]. eexists [_]. split; [done|]. by apply Forall_cons_2. }
  unfold call. cbn [vars trace].
  destruct (answer_instances env _ _) as [l|e].
  - unfold set_cluster_instances, bind, get, put. cbn [vars trace].
    intros [= <- <-]. cbn [trace].
    exists [DescribeSpotInstanceRequests ids; DescribeInstances (i :: more)].
    split; [by rewrite <- app_assoc|]. by repeat apply Forall_cons_2.
  - intros [= <- <-]. cbn [trace].
    exists [DescribeSpotInstanceRequests ids; DescribeInstances (i :: more)].
    split; [by rewrite <- app_assoc|]. by repeat apply Forall_cons_2.
Qed.

Lemma rollback_requests_run env s out s1 :
  rollback_requests env s = (out, s1) →
  ∃ t, trace s1 = trace s ++ t
       ∧ Forall (λ e, consent_free e ∧ bid_free e) t
       ∧ (spot_requests (vars s) = [] → s1 = s ∧ out = Done tt).
Proof.
  unfold rollback_requests, bind, get. cbn [vars].
  destruct (spot_requests (vars s)) as [|r rs] eqn:Hsr.
  { intros [= <- <-]. exists []. rewrite app_nil_r. done. }
  destruct (existsb _ (r :: rs)).
  - unfold call at 1. cbn [vars trace].
    destruct (answer_unit env (trace s) _) as [u|e].
    + intros (t & Ht & Hall)%rollback_refresh_run. cbn [trace] in Ht.
      exists (CancelSpotInstanceRequests (SpotInstanceRequestId <$> r :: rs)
              :: t).
      split; [rewrite Ht; by rewrite <- app_assoc|].
      split; [|done]. by apply Forall_cons_2.
    + intros [= <- <-]. eexists [_]. split; [done|].
      split; [|done]. by apply Forall_cons_2.
  - unfold ret at 1. intros (t & Ht & Hall)%rollback_refresh_run.
    exists t. done.
Qed.

Lemma rollback_instances_run env args s out s' :
  rollback_instances env args s = (out, s') →
  vars s' = vars s
  ∧ ∃ t, trace s' = trace s ++ t
    ∧ (t = []
       ∨ (assume_yes args = true
          ∧ t = [TerminateInstances
                   (instance_id <$> cluster_instances (vars s))])
       ∨ (assume_yes args = false
          ∧ t = [Confirm (length (cluster_instances (vars s)))]
          ∧ answer_bool env (trace s)
              (Confirm (length (cluster_instances (vars s)))) ≠ Ok true)
       ∨ (assume_yes args = false
          ∧ t = [Confirm (length (cluster_instances (vars s)));
                 TerminateInstances
                   (instance_id <$> cluster_instances (vars s))]
          ∧ answer_bool env (trace s)
              (Confirm (length (cluster_instances (vars s)))) = Ok true)).
Proof.
  unfold rollback_instances, bind, get. cbn [vars].
  destruct (cluster_instances (vars s)) as [|i l] eqn:Hci.
  { intros [= <- <-]. split; [done|]. exists []. rewrite app_nil_r. auto. }
  destruct (assume_yes args) eqn:Hyes; cbn [negb orb].
  - unfold ret at 1. unfold call. cbn [vars trace].
    destruct (answer_unit env (trace s) _) as [u|e];
      intros [= <- <-]; (split; [done|]); eexists; (split; [done|]);
      right; left; done.
  - unfold call at 1. cbn [vars trace].
    destruct (answer_bool env (trace s) _) as [[|]|e] eqn:Hb.
    + unfold call. cbn [vars trace].
      destruct (answer_unit env _ (TerminateInstances _)) as [u|e];
        intros [= <- <-]; (split; [done|]); cbn [trace];
        (eexists [_; _]; split; [by rewrite <- app_assoc|]);
        right; right; right; done.
    + intros [= <- <-]. split; [done|]. eexists [_]. split; [done|].
      right; right; left. done.
    + intros [= <- <-]. split; [done|]. eexists [_]. split; [done|].
      right; right; left. done.
Qed.

Lemma consent_free_no_terminate (t pre post : list Event) (ids : list string) :
  Forall (λ e, consent_free e ∧ bid_free e) t →
  t ≠ pre ++ TerminateInstances ids :: post.
Proof.
  intros Hq ->. by apply Forall_app in Hq as [_ [[? _] _]%Forall_cons].
Qed.

Lemma consent_free_no_confirm (t : list Event) (n : nat) :
  Forall (λ e, consent_free e ∧ bid_free e) t → Confirm n ∉ t.
Proof.
  intros Hq Hin. rewrite Forall_forall in Hq. by destruct (Hq _ Hin).
Qed.

(** X12. The rollback handler terminates instances at most once, as its
    last call and for all instances it then knows of. With [assume_yes] it
    never prompts. Without it, a terminate call is immediately preceded by
    the prompt, and the prompt was answered yes: when the user declines (or
    the prompt fails), nothing is terminated. *)
Theorem rollback_needs_consent (env : Environment) (args : LaunchArgs)
    (s s' : Frame LaunchVars) (out : Outcome unit) :
  launch_rollback env args s = (out, s') →
  ∃ t, trace s' = trace s ++ t
    ∧ (assume_yes args = true → ∀ n, Confirm n ∉ t)
    ∧ ∀ pre ids post,
        t = pre ++ TerminateInstances ids :: post →
        post = []
        ∧ ids = instance_id <$> cluster_instances (vars s')
        ∧ (assume_yes args = false →
           ∃ pre', pre = pre' ++ [Confirm (length ids)]
                   ∧ answer_bool env (trace s ++ pre')
                       (Confirm (length ids)) = Ok true).
Proof.
  rewrite launch_rollback_halves. unfold bind.
  destruct (rollback_requests env s) as [o1 s1] eqn:R1.
  apply rollback_requests_run in R1 as (t1 & Ht1 & Hq1 & _).
  destruct o1 as [[]|e|]; cycle 1.
  { intros [= <- <-]. exists t1. split; [done|]. split.
    - intros _ n. by apply consent_free_no_confirm.
    - intros pre ids post Heq. by destruct (consent_free_no_terminate t1 pre
                                              post ids Hq1). }
  { intros [= <- <-]. exists t1. split; [done|]. split.
    - intros _ n. by apply consent_free_no_confirm.
    - intros pre ids post Heq. by destruct (consent_free_no_terminate t1 pre
                                              post ids Hq1). }
  intros (Hv & t2 & Ht2 & Hcases)%rollback_instances_run.
  exists (t1 ++ t2). split; [rewrite Ht2, Ht1; by rewrite app_assoc|].
  rewrite Hv.
  assert (Forall (λ e, ¬ ∃ ids, e = TerminateInstances ids) t1) as Hnt.
  { eapply Forall_impl; [exact Hq1|]. intros e [Hc _] [ids ->]. done. }
  split.
  - intros Hyes n [Hin | Hin]%elem_of_app.
    + by apply (consent_free_no_confirm t1 n).
    + destruct Hcases as [-> | [[_ ->] | [[Hno _] | [Hno _]]]];
        try congruence.
      * by apply elem_of_nil in Hin.
      * apply list_elem_of_singleton in Hin. discriminate.
  - intros pre ids post Heq.
    apply (split_in_suffix (λ e, ∃ ids, e = TerminateInstances ids))
      in Heq as (k & -> & Hk); [|eauto|done].
    destruct Hcases as [-> | [[Hyes ->] | [(Hno & -> & _) | (Hno & -> & Hb)]]].
    + by destruct k.
    + destruct k as [|a [|b k]]; try discriminate.
      injection Hk as <- <-. split; [done|]. split; [done|]. congruence.
    + destruct k as [|a [|b k]]; discriminate.
    + destruct k as [|a [|b [|c k]]]; try discriminate.
      injection Hk as <- <- <-. split; [done|]. split; [done|].
      intros _. exists t1. rewrite length_fmap. split; [done|].
      by rewrite <- Ht1.
Qed.

Lemma rollback_needs_consent_witness :
  launch_acquire declining_env cautious_args 3 []
  = (Raised KeyboardInterrupt,
     mkFrame (mkLaunchVars [] fresh_instances)
       [CreateInstances 2; Sleep 10; Confirm 2])
  ∧ ∃ t, [CreateInstances 2; Sleep 10; Confirm 2]
         = [CreateInstances 2; Sleep 10] ++ t
    ∧ (assume_yes cautious_args = true → ∀ n, Confirm n ∉ t)
    ∧ ∀ pre ids post,
        t = pre ++ TerminateInstances ids :: post →
        post = []
        ∧ ids = instance_id <$> fresh_instances
        ∧ (assume_yes cautious_args = false →
           ∃ pre', pre = pre' ++ [Confirm (length ids)]
                   ∧ answer_bool declining_env
                       ([CreateInstances 2; Sleep 10] ++ pre')
                       (Confirm (length ids)) = Ok true).
Proof.
  split; [reflexivity|].
  exact (rollback_needs_consent declining_env cautious_args
           (mkFrame (mkLaunchVars [] fresh_instances)
              [CreateInstances 2; Sleep 10])
           (mkFrame (mkLaunchVars [] fresh_instances)
              [CreateInstances 2; Sleep 10; Confirm 2])
           (Done tt) eq_refl).
Defined.

Lemma poll_spot_requests_calls env fuel ids pending s out s' :
  poll_spot_requests env fuel ids pending s = (out, s') →
  cluster_instances (vars s') = cluster_instances (vars s)
  ∧ ∃ t, trace s' = trace s ++ t ∧ Forall spot_poll_call t.
Proof.
  assert (spot_poll_call (Sleep 30)) as Hs by (by left).
  assert (spot_poll_call (DescribeSpotInstanceRequests ids)) as Hd
    by (right; eauto).
  revert pending s. induction fuel as [|fuel IH]; intros pending s;
    rewrite poll_spot_requests_unfold; destruct pending as [|p pending].
  1-3: intros [= <- <-]; (split; [done|]); exists []; by rewrite app_nil_r.
  destruct (answer_unit env (trace s) (Sleep 30)) as [u|e]; cycle 1.
  { intros [= <- <-]. split; [done|]. exists [Sleep 30]. split; [done|].
    by apply Forall_cons_2. }
  cbv zeta.
  destruct (answer_spot env (trace s ++ [Sleep 30]) _) as [rs|e]; cycle 1.
  { intros [= <- <-]. split; [done|].
    exists [Sleep 30; DescribeSpotInstanceRequests ids].
    split; [by rewrite <- app_assoc|]. by repeat apply Forall_cons_2. }
  destruct (failed_requests rs) as [|f fs].
  - intros (Hci & t & Ht & Hall)%IH. cbn [vars trace cluster_instances] in *.
    split; [done|].
    exists (Sleep 30 :: DescribeSpotInstanceRequests ids :: t).
    split; [rewrite Ht; by rewrite <- !app_assoc|].
    by repeat apply Forall_cons_2.
  - intros [= <- <-]. split; [done|].
    exists [Sleep 30; DescribeSpotInstanceRequests ids].
    split; [by rewrite <- app_assoc|]. by repeat apply Forall_cons_2.
Qed.

Lemma granted_instance_ids_ok (rs : list SpotRequest) (ids : list string) :
  granted_instance_ids rs = Ok ids →
  ids = omap InstanceId rs
  ∧ length ids = length rs
  ∧ Forall (λ r, is_Some (InstanceId r)) rs.
Proof.
  revert ids. induction rs as [|r rs IH]; intros ids; cbn [granted_instance_ids].
  - intros [= <-]. done.
  - destruct (InstanceId r) as [i|] eqn:Hi; [|done].
    destruct (granted_instance_ids rs) as [l|e]; [|done].
    intros [= <-]. destruct (IH l eq_refl) as (-> & Hlen & Hall).
    cbn [omap list_omap]. rewrite Hi. cbn [length].
    split; [done|]. split; [by rewrite Hlen|].
    apply Forall_cons_2; [by rewrite Hi | done].
Qed.

Lemma acquire_spot_calls env args fuel price s out s' :
  acquire_spot env args fuel price s = (out, s') →
  ∃ polls last,
    trace s'
    = trace s ++ RequestSpotInstances price (num_slaves args + 1)
                 :: polls ++ last
    ∧ Forall spot_poll_call polls
    ∧ (last = [] ∧ out ≠ Done tt
       ∨ ∃ ids, last = [DescribeInstances ids]
                ∧ granted_instance_ids (spot_requests (vars s')) = Ok ids
                ∧ (out = Done tt →
                   answer_instances env
                     (trace s ++ RequestSpotInstances price
                                   (num_slaves args + 1) :: polls)
                     (DescribeInstances ids)
                   = Ok (cluster_instances (vars s')))).
Proof.
  unfold acquire_spot, bind, num_instances. unfold call at 1.
  cbn [vars trace].
  destruct (answer_spot env (trace s) _) as [rs0|e]; cycle 1.
  { intros [= <- <-]. exists [], []. split; [done|]. split; [done|].
    by left. }
  unfold set_spot_requests at 1. unfold bind, get, put. cbn [vars trace].
  destruct (poll_spot_requests env fuel _ _ _) as [o s1] eqn:P.
  apply poll_spot_requests_calls in P as (_ & t & Ht & Hall).
  cbn [vars trace] in Ht.
  assert (trace s1 = trace s ++ RequestSpotInstances price
                                  (num_slaves args + 1) :: t) as Ht'
    by (rewrite Ht; by rewrite <- app_assoc).
  clear Ht.
  destruct o as [[]|e|]; cycle 1.
  { intros [= <- <-]. exists t, []. rewrite app_nil_r. split; [done|].
    split; [done|]. by left. }
  { intros [= <- <-]. exists t, []. rewrite app_nil_r. split; [done|].
    split; [done|]. by left. }
  destruct (granted_instance_ids (spot_requests (vars s1))) as [l|e] eqn:G;
    cbn [lift_result ret raise]; cycle 1.
  { intros [= <- <-]. exists t, []. rewrite app_nil_r. split; [done|].
    split; [done|]. by left. }
  unfold call. cbn [vars trace].
  destruct (answer_instances env (trace s1) _) as [insts|e] eqn:Hans.
  - unfold set_cluster_instances, bind, get, put. cbn [vars trace].
    intros [= <- <-]. cbn [vars trace spot_requests cluster_instances].
    exists t, [DescribeInstances l].
    split; [rewrite Ht'; by rewrite <- app_assoc|]. split; [done|].
    right. exists l. split; [done|]. split; [done|].
    intros _. by rewrite <- Ht'.
  - intros [= <- <-]. cbn [vars trace].
    exists t, [DescribeInstances l].
    split; [rewrite Ht'; by rewrite <- app_assoc|]. split; [done|].
    right. exists l. split; [done|]. split; [done|]. done.
Qed.

(** X13. A spot launch that returns has placed one bid for N+1 instances
    as its first call, polled, and then looked up the granted instances in
    one describe call; every request it last saw is neither open nor
    failed and carries an instance id, so a request that left the open
    state without an instance (cancelled, closed) never leads to a
    successful launch. The cluster is built from what that describe call
    answered. *)
Theorem spot_launch_granted (env : Environment) (args : LaunchArgs)
    (fuel : nat) (price : string) (s s' : Frame LaunchVars) :
  spot_price args = Some price →
  launch_try_except env args fuel s = (Done tt, s') →
  ∃ polls rest,
    Forall (λ r, State r ≠ "open" ∧ State r ≠ "failed"
                 ∧ is_Some (InstanceId r)) (spot_requests (vars s'))
    ∧ trace s'
      = trace s ++ RequestSpotInstances price (num_slaves args + 1)
                   :: polls
                   ++ DescribeInstances
                        (omap InstanceId (spot_requests (vars s')))
                   :: rest
    ∧ Forall spot_poll_call polls
    ∧ answer_instances env
        (trace s ++ RequestSpotInstances price (num_slaves args + 1)
                    :: polls)
        (DescribeInstances (omap InstanceId (spot_requests (vars s'))))
      = Ok (cluster_instances (vars s')).
Proof.
  intros Hspot Hrun%launch_try_except_done.
  destruct (launch_try_run env args fuel s _ _ Hrun) as [_ Hopen].
  revert Hrun. unfold launch_try, bind. rewrite Hspot.
  destruct (acquire_spot env args fuel price s) as [o s1] eqn:A.
  pose proof (acquire_spot_run _ _ _ _ _ _ _ A) as (_ & _ & _ & Hclosed).
  apply acquire_spot_calls in A as (polls & last & Ht & Hall & Hlast).
  destruct o as [[]|e|]; [|done|done].
  destruct Hlast as [[_ ?] | (ids & -> & Hg & Hans)]; [done|].
  intros (Hv & master & slaves & w & c & _ & _ & _ & _ & Ht2)
    %tag_and_provision_done.
  rewrite Hv.
  apply granted_instance_ids_ok in Hg as (-> & _ & Hsome).
  exists polls, (settle_and_tag_calls args master slaves ++ w
                 ++ [provision_call args]).
  split; [|split; [|split]].
  - apply Forall_forall. intros r Hr.
    destruct (Hclosed eq_refl r Hr) as [? ?].
    rewrite Forall_forall in Hsome. auto.
  - rewrite Ht2, Ht. rewrite <- !app_assoc. f_equal. cbn [app]. f_equal.
    by rewrite <- !app_assoc.
  - done.
  - by apply Hans.
Qed.

Lemma spot_launch_granted_witness :
  ∃ polls rest,
    Forall (λ r, State r ≠ "open" ∧ State r ≠ "failed"
                 ∧ is_Some (InstanceId r)) granted_answer
    ∧ [RequestSpotInstances "0.05" 2; Sleep 30;
       DescribeSpotInstanceRequests ["sir-0"; "sir-1"];
       DescribeInstances ["i-0"; "i-1"]; Sleep 10;
       CreateTags ["i-0"] "master" "test-master";
       CreateTags ["i-1"] "slave" "test-slave";
       GenerateSshKeyPair; ProvisionCluster "ec2-user" "key.pem"]
      = [] ++ RequestSpotInstances "0.05" (1 + 1)
              :: polls ++ DescribeInstances (omap InstanceId granted_answer)
              :: rest
    ∧ Forall spot_poll_call polls
    ∧ answer_instances granting_env
        ([] ++ RequestSpotInstances "0.05" (1 + 1) :: polls)
        (DescribeInstances (omap InstanceId granted_answer))
      = Ok [running_master; running_slave].
Proof.
  exact (spot_launch_granted granting_env small_spot_args 4 "0.05"
           (mkFrame (mkLaunchVars [] []) [])
           (mkFrame (mkLaunchVars granted_answer
                       [running_master; running_slave])
              [RequestSpotInstances "0.05" 2; Sleep 30;
               DescribeSpotInstanceRequests ["sir-0"; "sir-1"];
               DescribeInstances ["i-0"; "i-1"]; Sleep 10;
               CreateTags ["i-0"] "master" "test-master";
               CreateTags ["i-1"] "slave" "test-slave";
               GenerateSshKeyPair; ProvisionCluster "ec2-user" "key.pem"])
           eq_refl eq_refl).
Defined.

Lemma poll_event_acquisition_free (e : Event) :
  poll_event e → acquisition_free e.
Proof. by intros [[? ->] | ->]. Qed.

Lemma tag_and_provision_calls env args fuel s out s' :
  tag_and_provision env args fuel s = (out, s') →
  vars s' = vars s
  ∧ ∃ t, trace s' = trace s ++ t ∧ Forall acquisition_free t.
Proof.
  unfold tag_and_provision, hook, bind. unfold call at 1. cbn [vars trace].
  destruct (answer_unit env (trace s) (Sleep 10)) as [u|e]; cycle 1.
  { intros [= <- <-]. split; [done|]. exists [Sleep 10]. split; [done|].
    by apply Forall_cons_2. }
  unfold get. cbn [vars trace].
  destruct (cluster_instances (vars s)) as [|master slaves];
    cbn [first_item ret raise tail].
  { intros [= <- <-]. split; [done|]. exists [Sleep 10]. split; [done|].
    by apply Forall_cons_2. }
  set (c1 := CreateTags [instance_id master] "master"
               (cluster_name args +:+ "-master")).
  set (c2 := CreateTags (instance_id <$> slaves) "slave"
               (cluster_name args +:+ "-slave")).
  assert (acquisition_free c1 ∧ acquisition_free c2) as [Hc1 Hc2] by done.
  clearbody c1 c2.
  unfold call at 1. cbn [vars trace].
  destruct (answer_unit env _ c1) as [u1|e]; cycle 1.
  { intros [= <- <-]. split; [done|]. exists [Sleep 10; c1].
    split; [by rewrite <- !app_assoc|]. by repeat apply Forall_cons_2. }
  unfold call at 1. cbn [vars trace].
  destruct (answer_unit env _ c2) as [u2|e]; cycle 1.
  { intros [= <- <-]. split; [done|]. exists [Sleep 10; c1; c2].
    split; [by rewrite <- !app_assoc|]. by repeat apply Forall_cons_2. }
  unfold call at 1. cbn [vars trace].
  destruct (answer_unit env _ GenerateSshKeyPair) as [u3|e]; cycle 1.
  { intros [= <- <-]. split; [done|].
    exists [Sleep 10; c1; c2; GenerateSshKeyPair].
    split; [by rewrite <- !app_assoc|]. by repeat apply Forall_cons_2. }
  unfold run_on. cbn [vars trace].
  destruct (wait_for_state env fuel "running" _) as [o s1] eqn:W.
  apply wait_for_state_run in W as (w & Hw & Hp & _). cbn [trace] in Hw.
  assert (trace s1 = trace s ++ [Sleep 10; c1; c2; GenerateSshKeyPair] ++ w)
    as Hs1 by (rewrite Hw; by rewrite <- !app_assoc).
  assert (Forall acquisition_free
            ([Sleep 10; c1; c2; GenerateSshKeyPair] ++ w)) as Hall.
  { apply Forall_app. split; [by repeat apply Forall_cons_2|].
    eapply Forall_impl; [exact Hp|]. apply poll_event_acquisition_free. }
  clear Hw.
  destruct o as [[]|e|].
  - unfold call. cbn [vars trace].
    destruct (answer_unit env (trace s1) _) as [u4|e];
      intros [= <- <-]; (split; [done|]); cbn [trace];
      (exists (([Sleep 10; c1; c2; GenerateSshKeyPair] ++ w)
               ++ [ProvisionCluster (launch_user args)
                     (launch_identity_file args)]);
       split; [rewrite Hs1; by rewrite !app_assoc|];
       apply Forall_app; split; [done|]; by apply Forall_cons_2).
  - intros [= <- <-]. split; [done|]. eauto.
  - intros [= <- <-]. split; [done|]. eauto.
Qed.

Lemma acquisition_free_bid_free (t : list Event) :
  Forall acquisition_free t → Forall bid_free t.
Proof. intros H. eapply Forall_impl; [exact H|]. by intros []. Qed.

Lemma launch_try_calls env args fuel s out s' :
  launch_try env args fuel s = (out, s') →
  match spot_price args with
  | None =>
      spot_requests (vars s') = spot_requests (vars s)
      ∧ ∃ rest, trace s' = trace s ++ CreateInstances (num_slaves args + 1)
                                      :: rest
                ∧ Forall acquisition_free rest
  | Some price =>
      ∃ rest, trace s' = trace s ++ RequestSpotInstances price
                                      (num_slaves args + 1) :: rest
              ∧ Forall bid_free rest
  end.
Proof.
  unfold launch_try, bind. destruct (spot_price args) as [price|].
  - destruct (acquire_spot env args fuel price s) as [o s1] eqn:A.
    apply acquire_spot_calls in A as (polls & last & Ht & Hall & Hlast).
    assert (Forall bid_free (polls ++ last)) as Hbf.
    { apply Forall_app. split.
      - eapply Forall_impl; [exact Hall|]. by intros e [-> | [? ->]].
      - destruct Hlast as [[-> _] | (ids & -> & _)]; [done|].
        by apply Forall_cons_2. }
    destruct o as [[]|e|].
    + intros (_ & t & Ht2 & Hq)%tag_and_provision_calls.
      exists ((polls ++ last) ++ t). split.
      * rewrite Ht2, Ht. rewrite <- !app_assoc. f_equal. cbn [app].
        f_equal. by rewrite <- !app_assoc.
      * apply Forall_app. split; [done|]. by apply acquisition_free_bid_free.
    + intros [= <- <-]. eauto.
    + intros [= <- <-]. eauto.
  - unfold acquire_on_demand, bind, call at 1, num_instances.
    cbn [vars trace].
    destruct (answer_instances env (trace s) _) as [l|e].
    + unfold set_cluster_instances, bind, get, put. cbn [vars trace].
      intros (Hv & t & Ht & Hq)%tag_and_provision_calls.
      cbn [vars trace] in *. split; [by rewrite Hv|].
      exists t. split; [rewrite Ht; by rewrite <- app_assoc | done].
    + intros [= <- <-]. split; [done|]. exists []. done.
Qed.

Lemma launch_rollback_calls env args s out s' :
  launch_rollback env args s = (out, s') →
  ∃ t, trace s' = trace s ++ t
       ∧ Forall bid_free t
       ∧ (spot_requests (vars s) = [] → Forall acquisition_free t).
Proof.
  rewrite launch_rollback_halves. unfold bind.
  destruct (rollback_requests env s) as [o1 s1] eqn:R1.
  apply rollback_requests_run in R1 as (t1 & Ht1 & Hq1 & Hnone).
  assert (Forall bid_free t1) as Hb1
    by (eapply Forall_impl; [exact Hq1|]; by intros e [_ ?]).
  assert (spot_requests (vars s) = [] → t1 = []) as Hempty.
  { intros [-> _]%Hnone. rewrite <- (app_nil_r (trace s)) in Ht1 at 1.
    by apply app_inv_head in Ht1. }
  destruct o1 as [[]|e|]; cycle 1.
  { intros [= <- <-]. exists t1. split; [done|]. split; [done|].
    intros ->%Hempty. done. }
  { intros [= <- <-]. exists t1. split; [done|]. split; [done|].
    intros ->%Hempty. done. }
  intros (_ & t2 & Ht2 & Hcases)%rollback_instances_run.
  assert (Forall acquisition_free t2) as Hq2.
  { destruct Hcases as [-> | [[_ ->] | [(_ & -> & _) | (_ & -> & _)]]];
      by repeat apply Forall_cons_2. }
  exists (t1 ++ t2). split; [rewrite Ht2, Ht1; by rewrite app_assoc|].
  split.
  - apply Forall_app. split; [done|]. by apply acquisition_free_bid_free.
  - intros ->%Hempty. done.
Qed.

(** X14. A launch makes exactly one acquisition request, as the first
    call of the acquisition phase and for N+1 instances: one bulk create
    when no spot price is given, one spot bid otherwise. An on-demand
    launch makes no spot call whatever, rollback included; a spot launch
    never bulk-creates, and neither bids twice. *)
Theorem acquisition_strategies_exclusive (env : Environment)
    (args : LaunchArgs) (fuel : nat) (history : list Event)
    (s' : Frame LaunchVars) (out : Outcome unit) :
  launch_acquire env args fuel history = (out, s') →
  ∃ rest,
    match spot_price args with
    | None =>
        trace s' = history ++ CreateInstances (num_slaves args + 1) :: rest
        ∧ Forall acquisition_free rest
    | Some price =>
        trace s' = history ++ RequestSpotInstances price
                                (num_slaves args + 1) :: rest
        ∧ Forall bid_free rest
    end.
Proof.
  unfold launch_acquire, launch_try_except.
  destruct (launch_try env args fuel _) as [o s1] eqn:T.
  pose proof (launch_try_calls _ _ _ _ _ _ T) as Htry.
  cbn [vars trace spot_requests] in Htry.
  assert (∀ o2 s2,
            bind (launch_rollback env args) (λ _, raise (A:=unit) o2) s1
            = (out, s2) →
            ∃ t, trace s2 = trace s1 ++ t
                 ∧ Forall bid_free t
                 ∧ (spot_requests (vars s1) = [] →
                    Forall acquisition_free t)) as Hroll.
  { intros e s2. unfold bind, raise.
    destruct (launch_rollback env args s1) as [o2 s3] eqn:R.
    apply launch_rollback_calls in R.
    destruct o2 as [[]|?|]; intros [= <- <-]; exact R. }
  assert ((o, s1) = (out, s') →
          ∃ rest,
            match spot_price args with
            | None =>
                trace s' = history ++ CreateInstances (num_slaves args + 1)
                                      :: rest
                ∧ Forall acquisition_free rest
            | Some price =>
                trace s' = history ++ RequestSpotInstances price
                                        (num_slaves args + 1) :: rest
                ∧ Forall bid_free rest
            end) as Hsame.
  { intros [= <- <-]. destruct (spot_price args); [done|].
    by destruct Htry as [_ ?]. }
  destruct o as [[]|e|]; [exact Hsame| |exact Hsame].
  destruct (Exception_or_KeyboardInterrupt e); [|exact Hsame].
  intros (t & Ht & Hb & Hq)%Hroll.
  destruct (spot_price args) as [price|].
  - destruct Htry as (rest & Hrest & Hrb).
    exists (rest ++ t). split.
    + rewrite Ht, Hrest. by rewrite <- app_assoc.
    + apply Forall_app. done.
  - destruct Htry as (Hsr & rest & Hrest & Hrq).
    exists (rest ++ t). split.
    + rewrite Ht, Hrest. by rewrite <- app_assoc.
    + apply Forall_app. split; [done|]. by apply Hq.
Qed.

Lemma acquisition_strategies_exclusive_witness :
  ∃ rest,
    trace spot_rollback_frame
    = [] ++ RequestSpotInstances "0.05" (2 + 1) :: rest
    ∧ Forall bid_free rest.
Proof.
  exact (acquisition_strategies_exclusive spot_env spot_args 3 []
           spot_rollback_frame (Raised spot_failure) eq_refl).
Defined.

(** * Discovery *)

Lemma prefix_append (p n : string) : String.prefix p (p +:+ n) = true.
Proof.
  induction p as [|c p IH]; simpl.
  - by destruct n.
  - destruct (Ascii.ascii_dec c c); [exact IH | done].
Qed.

Lemma drop_chars_append (p n : string) :
  drop_chars (String.length p) (p +:+ n) = n.
Proof. induction p as [|c p IH]; [by destruct n | exact IH]. Qed.

Lemma replace_first_prefix (p new n : string) :
  replace_first p new (p +:+ n) = new +:+ n.
Proof.
  destruct (p +:+ n) as [|c s] eqn:E; cbn [replace_first].
  - pose proof (prefix_append p n) as H. rewrite E in H. rewrite H.
    rewrite <- E. by rewrite drop_chars_append.
  - pose proof (prefix_append p n) as H. rewrite E in H. rewrite H.
    rewrite <- E. by rewrite drop_chars_append.
Qed.

Lemma first_cluster_group_skip (before rest : list SecurityGroup) :
  Forall unprefixed before →
  first_cluster_group (before ++ rest) = first_cluster_group rest.
Proof.
  induction before as [|g before IH]; [done|].
  intros [Hg Hb]%Forall_cons. cbn [app first_cluster_group].
  unfold unprefixed in Hg. rewrite Hg. by apply IH.
Qed.

(** X15. The cluster name is recovered from the naming convention of the
    cluster group: for an instance whose first group carrying the prefix
    "flintrock-" is named "flintrock-" followed by [n], whatever groups
    without the prefix (the base group "flintrock" among them) come before
    and whatever groups come after, [_get_cluster_name] answers exactly
    [n], also when [n] itself contains the prefix. An instance none of
    whose groups carries the prefix makes it raise. *)
Theorem cluster_name_round_trip (i : Instance)
    (before after : list SecurityGroup) (g : SecurityGroup) (n : string) :
  Forall unprefixed before →
  (group_name g = "flintrock-" +:+ n →
   _get_cluster_name (mkRaw i (before ++ g :: after)) = Ok n)
  ∧ _get_cluster_name (mkRaw i before)
    = Raise (Exception ("Could not extract cluster name from instance: "
                        +:+ instance_id i)).
Proof.
  intros Hb. split.
  - intros Hg. unfold _get_cluster_name. cbn [security_groups].
    rewrite first_cluster_group_skip by done. cbn [first_cluster_group].
    rewrite Hg, prefix_append, replace_first_prefix. reflexivity.
  - unfold _get_cluster_name. cbn [security_groups raw].
    rewrite <- (app_nil_r before), first_cluster_group_skip by done.
    reflexivity.
Qed.

Lemma cluster_name_round_trip_witness :
  _get_cluster_name
    (mkRaw running_master
       ([base_group; mkGroup "sg-9" "default"]
        ++ mkGroup "sg-1" "flintrock-my-flintrock-cluster"
           :: [mkGroup "sg-2" "flintrock-other"]))
  = Ok "my-flintrock-cluster"
  ∧ _get_cluster_name
      (mkRaw running_master [base_group; mkGroup "sg-9" "default"])
    = Raise (Exception "Could not extract cluster name from instance: i-0").
Proof.
  assert (Forall unprefixed [base_group; mkGroup "sg-9" "default"]) as Hb
    by (repeat apply Forall_cons_2; done).
  destruct (cluster_name_round_trip running_master
              [base_group; mkGroup "sg-9" "default"]
              [mkGroup "sg-2" "flintrock-other"]
              (mkGroup "sg-1" "flintrock-my-flintrock-cluster")
              "my-flintrock-cluster" Hb) as [H1 H2].
  split; [apply H1; reflexivity | exact H2].
Defined.

Lemma cluster_names_of_ok (all : list RawInstance) (ns : list string) :
  cluster_names_of all = Ok ns →
  (∀ n, n ∈ ns ↔ ∃ x, x ∈ all ∧ _get_cluster_name x = Ok n)
  ∧ ∀ x, x ∈ all → ∃ n, _get_cluster_name x = Ok n.
Proof.
  revert ns. induction all as [|x all IH]; intros ns; cbn [cluster_names_of].
  - intros [= <-]. split.
    + intros n. split; [by intros ?%elem_of_nil|].
      by intros (? & ?%elem_of_nil & _).
    + by intros ? ?%elem_of_nil.
  - destruct (_get_cluster_name x) as [n0|e] eqn:Hx; [|done].
    destruct (cluster_names_of all) as [ns0|e]; [|done].
    intros [= <-]. destruct (IH ns0 eq_refl) as [IH1 IH2]. split.
    + intros n. rewrite elem_of_cons, IH1. split.
      * intros [-> | (y & Hy & Hn)].
        -- exists x. split; [left | done].
        -- exists y. split; [by right | done].
      * intros (y & [-> | Hy]%elem_of_cons & Hn).
        -- left. congruence.
        -- right. eauto.
    + intros y [-> | Hy]%elem_of_cons; eauto.
Qed.

Lemma compose_each_ok (names : list string) (r v : string)
    (all : list RawInstance) (cs : list EC2Cluster) :
  compose_each names r v all = Ok cs →
  name <$> cs = names
  ∧ Forall (λ c, region c = r ∧ vpc_id c = v ∧ role_consistent c
                 ∧ drawn_from all c) cs.
Proof.
  revert cs. induction names as [|n names IH]; intros cs;
    cbn [compose_each].
  - intros [= <-]. done.
  - destruct (_compose_cluster n r v _) as [c|e] eqn:Hc; [|done].
    destruct (compose_each names r v all) as [cs0|e]; [|done].
    intros [= <-]. destruct (IH cs0 eq_refl) as [IH1 IH2].
    unfold _compose_cluster in Hc.
    destruct (_get_cluster_master_slaves _) as [[m ss]|e] eqn:Hms; [|done].
    injection Hc as <-. cbn [fmap list_fmap name]. split; [by rewrite IH1|].
    apply Forall_cons_2; [|done]. cbn [region vpc_id].
    split; [done|]. split; [done|].
    split; [by apply (classified_role_consistent _ _ _ n r v Hms)|].
    apply get_cluster_master_slaves_ok in Hms as (Hm & _ & Hss).
    assert (∀ i, i ∈ raw <$> filter (λ x, _get_cluster_name x = Ok n) all →
                 ∃ x, x ∈ all ∧ raw x = i ∧ _get_cluster_name x = Ok n)
      as Hin.
    { intros i (x & -> & [Hx Hall]%list_elem_of_filter)%list_elem_of_fmap.
      eauto. }
    intros i Hi. unfold instances in Hi. cbn [master_instance slave_instances
      app] in Hi. cbn [name]. apply elem_of_cons in Hi as [-> | Hi].
    + apply Hin.
      assert (m ∈ masters (raw <$> filter (λ x, _get_cluster_name x = Ok n)
                             all)) as Hmm by (rewrite Hm; left).
      by apply list_elem_of_filter in Hmm as [_ ?].
    + rewrite Forall_forall in Hss. by apply Hin, Hss.
Qed.

(** [get_clusters] on a given VPC, as one case analysis on what the
    provider lists. *)
Lemma get_clusters_unfold {V} (world : World) (names : list string)
    (r v : string) (s : Scene V) :
  v ≠ "" →
  get_clusters world names r v s =
  let q := DescribeInstancesInGroups (group_name_filter names) v in
  let s1 := mkScene (locals s) (calls s ++ [q]) in
  match world_listing world (calls s) q with
  | Raise e => (Failed (Plain e), s1)
  | Ok all =>
      match cluster_names_of all with
      | Raise e => (Failed (Plain e), s1)
      | Ok ns =>
          match names,
                elements ((list_to_set names : gset string) ∖ list_to_set ns)
          with
          | _ :: _, c :: _ =>
              (Failed (ClusterNotFound
                         ("No cluster " +:+ c +:+ " in region " +:+ r
                          +:+ ".")), s1)
          | _, _ =>
              match compose_each (elements (list_to_set ns : gset string))
                      r v all with
              | Ok cs => (Returned cs, s1)
              | Raise e => (Failed (Plain e), s1)
              end
          end
      end
  end.
Proof.
  intros Hv. unfold get_clusters, w_bind. destruct (decide (v = "")); [done|].
  cbn [w_ret]. unfold ask. cbn [locals calls].
  destruct (world_listing world (calls s) _) as [all|e]; [|done].
  cbn zeta. destruct (cluster_names_of all) as [ns|e]; [|done].
  cbn [w_result w_ret].
  destruct names as [|cn names].
  - cbn [w_ret]. by destruct (compose_each _ r v all).
  - destruct (elements (_ ∖ _)) as [|c l]; [|done].
    cbn [w_ret]. by destruct (compose_each _ r v all).
Qed.

Lemma filter_all {A} (P : A → Prop) `{∀ x, Decision (P x)} (l : list A) :
  Forall P l → filter P l = l.
Proof.
  induction 1 as [|x l Hx _ IH]; [done|].
  by rewrite filter_cons_True, IH.
Qed.

Lemma cluster_names_of_total (all : list RawInstance) :
  (∀ x, x ∈ all → ∃ n, _get_cluster_name x = Ok n) →
  ∃ ns, cluster_names_of all = Ok ns.
Proof.
  induction all as [|x all IH]; intros H; cbn [cluster_names_of]; [by eexists|].
  destruct (H x) as [n ->]; [left|].
  destruct IH as [ns ->]; [|by eexists].
  intros y Hy. apply H. by right.
Qed.

(** Nothing is missing: every requested name was found. *)
Lemma nothing_missing (names ns : list string) :
  elements ((list_to_set names : gset string) ∖ list_to_set ns) = [] →
  ∀ n, n ∈ names → n ∈ ns.
Proof.
  intros Hmiss%elements_empty_inv n Hin.
  destruct (decide (n ∈ ns)) as [|Hno]; [done|]. exfalso.
  assert (n ∈ (list_to_set names : gset string) ∖ list_to_set ns) as Hbad.
  { apply elem_of_difference. rewrite !elem_of_list_to_set. done. }
  rewrite Hmiss in Hbad. by apply elem_of_empty in Hbad.
Qed.

(** The first missing name is requested and carried by no instance. *)
Lemma first_missing (names ns : list string) (c : string) (l : list string) :
  elements ((list_to_set names : gset string) ∖ list_to_set ns) = c :: l →
  c ∈ names ∧ c ∉ ns.
Proof.
  intros Hmiss.
  assert (c ∈ (list_to_set names : gset string) ∖ list_to_set ns) as Hc.
  { apply elem_of_elements. rewrite Hmiss. left. }
  apply elem_of_difference in Hc. by rewrite !elem_of_list_to_set in Hc.
Qed.

Lemma compose_found (names ns : list string) (r v : string)
    (all : list RawInstance) (cs : list EC2Cluster) :
  cluster_names_of all = Ok ns →
  compose_each (elements (list_to_set ns : gset string)) r v all = Ok cs →
  (∀ n, n ∈ names → n ∈ ns) →
  NoDup (name <$> cs)
  ∧ (∀ n, n ∈ name <$> cs ↔ ∃ x, x ∈ all ∧ _get_cluster_name x = Ok n)
  ∧ (∀ n, n ∈ names → n ∈ name <$> cs)
  ∧ Forall (λ c, region c = r ∧ vpc_id c = v ∧ role_consistent c
                 ∧ drawn_from all c) cs.
Proof.
  intros [Hnames _]%cluster_names_of_ok [Hn Hcs]%compose_each_ok Hreq.
  assert (∀ n, n ∈ name <$> cs ↔ n ∈ ns) as Hmem.
  { intros n. rewrite Hn, elem_of_elements, elem_of_list_to_set. done. }
  split; [rewrite Hn; apply NoDup_elements|].
  split; [intros n; by rewrite Hmem, Hnames|].
  split; [intros n Hin; by apply Hmem, Hreq | done].
Qed.

(** X16. Discovery partitions one listing into clusters. When
    [get_clusters] returns on a given VPC, it has made exactly one call,
    the listing of the instances in the requested groups; the clusters it
    returns have pairwise distinct names; the names are exactly the names
    extracted from the listed instances; every requested name is among
    them; and every cluster carries the region and the VPC asked for, has
    one master-tagged master and slave-tagged slaves only, all of them
    listed instances that carry the cluster's name. *)
Theorem get_clusters_partition {V} (world : World) (names : list string)
    (r v : string) (s s' : Scene V) (all : list RawInstance)
    (cs : list EC2Cluster) :
  v ≠ "" →
  world_listing world (calls s)
    (DescribeInstancesInGroups (group_name_filter names) v) = Ok all →
  get_clusters world names r v s = (Returned cs, s') →
  calls s' = calls s ++ [DescribeInstancesInGroups (group_name_filter names) v]
  ∧ NoDup (name <$> cs)
  ∧ (∀ n, n ∈ name <$> cs ↔ ∃ x, x ∈ all ∧ _get_cluster_name x = Ok n)
  ∧ (∀ n, n ∈ names → n ∈ name <$> cs)
  ∧ Forall (λ c, region c = r ∧ vpc_id c = v ∧ role_consistent c
                 ∧ drawn_from all c) cs.
Proof.
  intros Hv Hall. rewrite get_clusters_unfold by done. cbn zeta.
  rewrite Hall. destruct (cluster_names_of all) as [ns|e] eqn:Hns; [|done].
  destruct names as [|cn names].
  - destruct (compose_each _ r v all) as [cs0|e] eqn:Hc; [|done].
    intros [= <- <-]. split; [done|].
    apply (compose_found [] ns); [done..|]. by intros n ?%elem_of_nil.
  - destruct (elements (_ ∖ _)) as [|c l] eqn:Hmiss; [|done].
    destruct (compose_each _ r v all) as [cs0|e] eqn:Hc; [|done].
    intros [= <- <-]. split; [done|].
    apply (compose_found (cn :: names) ns); [done..|].
    by apply nothing_missing.
Qed.

Lemma get_clusters_partition_witness :
  ∃ cs s',
    get_clusters (sample_world sample_listing) [] "us-east-1" "vpc-1"
      (mkScene tt []) = (Returned cs, s')
    ∧ calls s' = [] ++ [DescribeInstancesInGroups ["flintrock"] "vpc-1"]
    ∧ NoDup (name <$> cs)
    ∧ (∀ n, n ∈ name <$> cs ↔
            ∃ x, x ∈ sample_listing ∧ _get_cluster_name x = Ok n)
    ∧ (∀ n, n ∈ [] → n ∈ name <$> cs)
    ∧ Forall (λ c, region c = "us-east-1" ∧ vpc_id c = "vpc-1"
                   ∧ role_consistent c ∧ drawn_from sample_listing c) cs.
Proof.
  destruct (get_clusters (sample_world sample_listing) [] "us-east-1" "vpc-1"
              (mkScene tt [])) as [[cs| |] s'] eqn:Hrun;
    [|by vm_compute in Hrun..].
  exists cs, s'. split; [done|].
  exact (get_clusters_partition (sample_world sample_listing) []
           "us-east-1" "vpc-1" (mkScene tt []) s' sample_listing cs
           ltac:(done) eq_refl Hrun).
Defined.

(** X17. A requested name that no listed instance carries ends discovery
    with [ClusterNotFound] after the one listing call. The check comes
    before any cluster is composed, so it is raised also when the clusters
    that were found could not be composed; the name in the message is one
    of the requested names that no listed instance carries. *)
Theorem get_clusters_missing_name {V} (world : World) (names : list string)
    (r v : string) (s : Scene V) (all : list RawInstance) (c0 : string) :
  v ≠ "" →
  world_listing world (calls s)
    (DescribeInstancesInGroups (group_name_filter names) v) = Ok all →
  (∀ x, x ∈ all → ∃ n, _get_cluster_name x = Ok n) →
  c0 ∈ names →
  (∀ x, x ∈ all → _get_cluster_name x ≠ Ok c0) →
  ∃ c, c ∈ names
       ∧ (∀ x, x ∈ all → _get_cluster_name x ≠ Ok c)
       ∧ get_clusters world names r v s
         = (Failed (ClusterNotFound
                      ("No cluster " +:+ c +:+ " in region " +:+ r +:+ ".")),
            mkScene (locals s)
              (calls s ++ [DescribeInstancesInGroups
                             (group_name_filter names) v])).
Proof.
  intros Hv Hall Hnamed Hreq Habsent.
  destruct (cluster_names_of_total all Hnamed) as [ns Hns].
  pose proof (cluster_names_of_ok _ _ Hns) as [Hnames _].
  rewrite get_clusters_unfold by done. cbn zeta. rewrite Hall, Hns.
  destruct names as [|cn names]; [by apply elem_of_nil in Hreq|].
  destruct (elements (_ ∖ _)) as [|c l] eqn:Hmiss.
  - exfalso. apply (nothing_missing _ _ Hmiss), Hnames in Hreq
      as (x & Hx & Hc). by apply (Habsent x).
  - apply first_missing in Hmiss as [Hc Hno]. exists c.
    split; [done|]. split; [|done].
    intros x Hx Hn. apply Hno, Hnames. eauto.
Qed.

Lemma get_clusters_missing_name_witness :
  ∃ c, c ∈ ["test"; "absent"]
       ∧ (∀ x, x ∈ [listed running_master "test"] →
               _get_cluster_name x ≠ Ok c)
       ∧ get_clusters (sample_world [listed running_master "test"])
           ["test"; "absent"] "us-east-1" "vpc-1" (mkScene tt [])
         = (Failed (ClusterNotFound
                      ("No cluster " +:+ c +:+ " in region " +:+ "us-east-1"
                       +:+ ".")),
            mkScene tt
              ([] ++ [DescribeInstancesInGroups
                        (group_name_filter ["test"; "absent"]) "vpc-1"])).
Proof.
  apply (get_clusters_missing_name (sample_world [listed running_master "test"])
           ["test"; "absent"] "us-east-1" "vpc-1" (mkScene tt [])
           [listed running_master "test"] "absent");
    [done | reflexivity | | by right; left | ].
  - intros x ->%list_elem_of_singleton. by eexists.
  - by intros x ->%list_elem_of_singleton.
Defined.

(** X18. Without a VPC id discovery first resolves the default VPC of the
    region and then behaves as on that VPC: when the region has no default
    VPC it ends with [NoDefaultVPC] for the region after that single call,
    and nothing is listed. *)
Theorem get_clusters_default_vpc {V} (world : World) (names : list string)
    (r : string) (s : Scene V) (vs : list string) :
  world_vpcs world (calls s) DescribeDefaultVpcs = Ok vs →
  Forall (λ v, v ≠ "") vs →
  get_clusters world names r "" s
  = match vs with
    | [] => (Failed (NoDefaultVPC r),
             mkScene (locals s) (calls s ++ [DescribeDefaultVpcs]))
    | v :: _ =>
        get_clusters world names r v
          (mkScene (locals s) (calls s ++ [DescribeDefaultVpcs]))
    end.
Proof.
  intros Hvs Hne. unfold get_clusters at 1. unfold w_bind at 1.
  cbn [decide]. destruct (decide ("" = "")) as [_|]; [|done].
  unfold get_default_vpc, w_bind at 1, ask. rewrite Hvs.
  destruct vs as [|v vs]; [done|].
  apply Forall_cons in Hne as [Hv _].
  cbn [w_ret]. unfold get_clusters, w_bind at 1.
  destruct (decide (v = "")); done.
Qed.

Lemma get_clusters_default_vpc_witness :
  get_clusters (sample_world sample_listing) ["test"] "us-east-1" ""
    (mkScene tt [])
  = get_clusters (sample_world sample_listing) ["test"] "us-east-1"
      "vpc-default" (mkScene tt ([] ++ [DescribeDefaultVpcs])).
Proof.
  apply (get_clusters_default_vpc (sample_world sample_listing) ["test"]
           "us-east-1" (mkScene tt []) ["vpc-default"] eq_refl).
  by apply Forall_cons_2.
Defined.

(** X19. [get_cluster] never fails on its own: a failure of [get_cluster]
    is the failure of the lookup of the one name, so indexing the result
    cannot raise, because a lookup that returns has found the name. When
    every listed instance carries the requested name, the cluster it
    returns has that name, the region and VPC asked for, and the master
    and slaves that the role classifier finds among all listed
    instances. *)
Theorem get_cluster_unique {V} (world : World) (cn r v : string)
    (s s' : Scene V) :
  v ≠ "" →
  (∀ f, get_cluster world cn r v s = (Failed f, s') →
        get_clusters world [cn] r v s = (Failed f, s'))
  ∧ ∀ c all,
      get_cluster world cn r v s = (Returned c, s') →
      world_listing world (calls s)
        (DescribeInstancesInGroups ["flintrock-" +:+ cn] v) = Ok all →
      Forall (λ x, _get_cluster_name x = Ok cn) all →
      name c = cn ∧ region c = r ∧ vpc_id c = v
      ∧ _get_cluster_master_slaves (raw <$> all)
        = Ok (master_instance c, slave_instances c).
Proof.
  intros Hv.
  assert (∀ cs s1, get_clusters world [cn] r v s = (Returned cs, s1) →
                   ∃ all, world_listing world (calls s)
                            (DescribeInstancesInGroups ["flintrock-" +:+ cn] v)
                          = Ok all
                          ∧ cn ∈ name <$> cs
                          ∧ Forall (λ c, ∃ x, x ∈ all
                                      ∧ _get_cluster_name x = Ok (name c)) cs
                          ∧ compose_each (name <$> cs) r v all = Ok cs)
    as Hfound.
  { intros cs s1. rewrite get_clusters_unfold by done. cbn zeta.
    cbn [group_name_filter fmap list_fmap].
    destruct (world_listing world (calls s) _) as [all|e]; [|done].
    destruct (cluster_names_of all) as [ns|e] eqn:Hns; [|done].
    destruct (elements (_ ∖ _)) as [|c l] eqn:Hmiss; [|done].
    destruct (compose_each _ r v all) as [cs0|e] eqn:Hc; [|done].
    intros [= <- <-]. exists all. split; [done|].
    destruct (compose_found [cn] ns r v all cs0 Hns Hc
                (nothing_missing _ _ Hmiss)) as (_ & Hiff & Hreq & _).
    split; [apply Hreq; left|]. split.
    - apply Forall_forall. intros c Hin. apply Hiff.
      by apply list_elem_of_fmap_2.
    - by rewrite (proj1 (compose_each_ok _ _ _ _ _ Hc)). }
  unfold get_cluster, w_bind.
  destruct (get_clusters world [cn] r v s) as [[cs|f|] s1] eqn:Hrun.
  - destruct (Hfound cs s1 eq_refl) as (all & Hall & Hcn & Hcarry & Hc).
    destruct cs as [|c cs]; [by apply elem_of_nil in Hcn|].
    cbn [w_ret]. split; [done|].
    intros c' all' [= <- <-] Hall' Hsame.
    rewrite Hall in Hall'. injection Hall' as <-.
    apply Forall_cons in Hcarry as [(x & Hx & Hn) _].
    rewrite Forall_forall in Hsame. rewrite (Hsame x Hx) in Hn.
    injection Hn as Hn.
    cbn [fmap list_fmap compose_each] in Hc.
    destruct (_compose_cluster (name c) r v _) as [c1|e] eqn:Hc1; [|done].
    destruct (compose_each _ r v all) as [cs1|e]; [|done].
    injection Hc as <- _. unfold _compose_cluster in Hc1.
    destruct (_get_cluster_master_slaves _) as [[m ss]|e] eqn:Hms; [|done].
    injection Hc1 as Hc1. rewrite <- Hc1 in *. cbn [name] in *.
    cbn [region vpc_id master_instance slave_instances].
    split; [done|]. split; [done|]. split; [done|].
    rewrite <- Hms. f_equal. f_equal. symmetry.
    apply filter_all. rewrite Forall_forall. intros y Hy.
    rewrite <- Hn. by apply Hsame.
  - split; [by intros f' [= <- <-]|]. by intros.
  - split; by intros.
Qed.

Lemma get_cluster_unique_witness :
  get_cluster (sample_world [listed running_master "test";
                              listed running_slave "test"])
    "test" "us-east-1" "vpc-1" (mkScene tt [])
  = (Returned running_cluster,
     mkScene tt [DescribeInstancesInGroups ["flintrock-test"] "vpc-1"])
  ∧ name running_cluster = "test" ∧ region running_cluster = "us-east-1"
  ∧ vpc_id running_cluster = "vpc-1"
  ∧ _get_cluster_master_slaves
      (raw <$> [listed running_master "test"; listed running_slave "test"])
    = Ok (master_instance running_cluster, slave_instances running_cluster).
Proof.
  assert (get_cluster (sample_world [listed running_master "test";
                                     listed running_slave "test"])
            "test" "us-east-1" "vpc-1" (mkScene tt [])
          = (Returned running_cluster,
             mkScene tt [DescribeInstancesInGroups ["flintrock-test"] "vpc-1"]))
    as Hrun by (vm_compute; reflexivity).
  split; [exact Hrun|].
  apply (proj2 (get_cluster_unique
                  (sample_world [listed running_master "test";
                                 listed running_slave "test"])
                  "test" "us-east-1" "vpc-1" (mkScene tt []) _ ltac:(done))
           running_cluster _ Hrun eq_refl).
  by repeat apply Forall_cons_2.
Defined.

(** * Network access *)

(** An authorization under the duplicate-tolerant handler: it returns when
    the answer is a success or a duplicate, and is [rejected] otherwise. *)
Lemma authorize_run {V} (world : World) (q : Request) (msg : string)
    (s : Scene V) :
  let s1 := mkScene (locals s) (calls s ++ [q]) in
  (granted_or_duplicate (world_unit world (calls s) q)
   ∧ w_try (ask (world_unit world) q) (unless_duplicate msg) s
     = (Returned tt, s1))
  ∨ (∃ f, rejected world (calls s) q msg f
          ∧ w_try (ask (world_unit world) q) (unless_duplicate msg) s
            = (Failed f, s1)).
Proof.
  cbn zeta. unfold w_try, ask, rejected, granted_or_duplicate.
  destruct (world_unit world (calls s) q) as [[]|e] eqn:Hq; [left; eauto|].
  destruct e; cbn [unless_duplicate];
    try (right; eexists; split; [eexists; split; [reflexivity|]; reflexivity
                                | reflexivity]).
  destruct (decide (code ≠ "InvalidPermission.Duplicate")) as [Hc|Hc].
  - right. eexists. split; [|reflexivity]. eexists. split; [reflexivity|].
    done.
  - left. apply dec_stable in Hc. subst code. eauto.
Qed.

(** The loop over the client rules: either every rule was requested, in
    order, and answered by a success or a duplicate, or the first rule
    that was rejected ended the loop. *)
Lemma authorize_rules_run {V} (world : World)
    (rule_repr : SecurityGroupRule → string) (g : SecurityGroup)
    (rules : list SecurityGroupRule) (s : Scene V) :
  w_for_each rules (authorize_client_rule world rule_repr g) s
  = (Returned tt,
     mkScene (locals s) (calls s ++ (AuthorizeIngress (group_id g) <$> rules)))
  ∨ ∃ rules_done rule rest f,
      rules = rules_done ++ rule :: rest
      ∧ rejected world
          (calls s ++ (AuthorizeIngress (group_id g) <$> rules_done))
          (AuthorizeIngress (group_id g) rule)
          ("Error adding rule: " +:+ rule_repr rule) f
      ∧ w_for_each rules (authorize_client_rule world rule_repr g) s
        = (Failed f,
           mkScene (locals s)
             (calls s ++ (AuthorizeIngress (group_id g) <$> rules_done)
              ++ [AuthorizeIngress (group_id g) rule])).
Proof.
  revert s. induction rules as [|rule rules IH]; intros s.
  - left. cbn [w_for_each w_ret fmap list_fmap]. rewrite app_nil_r.
    by destruct s.
  - cbn [w_for_each]. unfold w_bind.
    pose proof (authorize_run world (AuthorizeIngress (group_id g) rule)
                  ("Error adding rule: " +:+ rule_repr rule) s) as Hstep.
    cbn zeta in Hstep.
    change (w_try _ _ s)
      with (authorize_client_rule world rule_repr g rule s) in Hstep.
    destruct Hstep as [[_ ->] | (f & Hf & ->)].
    + destruct (IH (mkScene (locals s)
                      (calls s ++ [AuthorizeIngress (group_id g) rule])))
        as [-> | (rd & r1 & rest & f & -> & Hf & ->)]; cbn [locals calls].
      * left. cbn [fmap list_fmap]. by rewrite <- app_assoc.
      * right. exists (rule :: rd), r1, rest, f. split; [done|].
        cbn [fmap list_fmap]. cbn [calls] in Hf.
        rewrite <- !app_assoc in *. cbn [app] in *. done.
    + right. exists [], rule, rules, f. cbn [fmap list_fmap].
      rewrite !app_nil_r. done.
Qed.

Lemma ask_bind {V A B} (answer : list Request → Request → result A)
    (q : Request) (k : A → W V B) (s : Scene V) :
  w_bind (ask answer q) k s
  = match answer (calls s) q with
    | Ok a => k a (mkScene (locals s) (calls s ++ [q]))
    | Raise e => (Failed (Plain e), mkScene (locals s) (calls s ++ [q]))
    end.
Proof. unfold w_bind, ask. by destruct (answer (calls s) q). Qed.

Lemma found_or_created_run {V} (world : World) (found : list SecurityGroup)
    (create : Request) (s : Scene V) :
  (∃ g, first_found found g
        ∧ found_or_created world found create s
          = (Returned g,
             mkScene (locals s) (calls s ++ creation found create)))
  ∨ (∃ e, world_group world (calls s) create = Raise e
          ∧ found_or_created world found create s
            = (Failed (Plain e), mkScene (locals s) (calls s ++ [create]))).
Proof.
  destruct found as [|g found]; cbn [found_or_created creation first_found].
  - unfold ask. destruct (world_group world (calls s) create) as [g|e];
      [left | right]; eauto.
  - left. exists g. rewrite app_nil_r. by destruct s.
Qed.

(** Every run of [get_or_create_ec2_security_groups]: it returns the two
    groups after the calls listed, or it fails on its last call. *)
Lemma security_groups_run {V} (world : World)
    (rule_repr : SecurityGroupRule → string) (cn v r : string)
    (s : Scene V) :
  let qb := Core (DescribeSecurityGroups "flintrock" v) in
  let qc := Core (DescribeSecurityGroups ("flintrock-" +:+ cn) v) in
  let cb := CreateSecurityGroup "flintrock" "Flintrock base group" v in
  let cc := CreateSecurityGroup ("flintrock-" +:+ cn)
              "Flintrock cluster group" v in
  match get_or_create_ec2_security_groups world rule_repr cn v r s with
  | (Returned gs, s') =>
      ∃ bl cl base cluster host public,
        world_groups world (calls s) qb = Ok bl
        ∧ world_groups world (calls s ++ [qb]) qc = Ok cl
        ∧ first_found bl base ∧ first_found cl cluster
        ∧ gs = [base; cluster]
        ∧ s' = mkScene (locals s)
                 (calls s ++ [qb; qc] ++ creation bl cb
                  ++ [GetHostByName; UrlOpen "http://checkip.amazonaws.com/"]
                  ++ (AuthorizeIngress (group_id base)
                        <$> client_rules [host +:+ "/32"; public +:+ "/32"])
                  ++ creation cl cc
                  ++ [AuthorizeIngressFromGroup (group_id cluster)
                        (group_id cluster)])
  | (Failed f, s') =>
      ∃ pre q,
        s' = mkScene (locals s) (calls s ++ pre ++ [q])
        ∧ if is_authorization q
          then rejected world (calls s ++ pre) q
                 (authorization_message rule_repr q) f
          else ∃ e, f = Plain e ∧ refused world (calls s ++ pre) q e
  | (Unfinished, _) => False
  end.
Proof.
  cbn zeta. unfold get_or_create_ec2_security_groups. cbn zeta.
  set (qb := Core (DescribeSecurityGroups "flintrock" v)).
  set (qc := Core (DescribeSecurityGroups ("flintrock-" +:+ cn) v)).
  set (cb := CreateSecurityGroup "flintrock" "Flintrock base group" v).
  set (cc := CreateSecurityGroup ("flintrock-" +:+ cn)
               "Flintrock cluster group" v).
  rewrite ask_bind.
  destruct (world_groups world (calls s) qb) as [bl|e] eqn:Hbl.
  2:{ exists [], qb. split; [done|]. cbn [is_authorization qb].
      exists e. rewrite app_nil_r. split; [done|]. by left. }
  rewrite ask_bind. cbn [locals calls].
  destruct (world_groups world (calls s ++ [qb]) qc) as [cl|e] eqn:Hcl.
  2:{ exists [qb], qc. split; [by rewrite <- app_assoc|].
      exists e. split; [done|]. by left. }
  unfold w_bind at 1.
  destruct (found_or_created_run world bl cb
              (mkScene (locals s) ((calls s ++ [qb]) ++ [qc])))
    as [(base & Hbase & ->) | (e & He & ->)]; cbn [locals calls] in *.
  2:{ exists [qb; qc], cb. split; [by rewrite <- ?app_assoc|].
      exists e. split; [done|]. right. left.
      by rewrite <- ?app_assoc in *. }
  rewrite ask_bind. cbn [locals calls].
  set (h3 := ((calls s ++ [qb]) ++ [qc]) ++ creation bl cb).
  assert (h3 = calls s ++ [qb; qc] ++ creation bl cb) as Hh3
    by (unfold h3; by rewrite <- !app_assoc).
  destruct (world_text world h3 GetHostByName) as [host|e] eqn:Hhost.
  2:{ exists ([qb; qc] ++ creation bl cb), GetHostByName.
      rewrite Hh3 in *. split; [by rewrite <- ?app_assoc|].
      exists e. split; [done|]. right. right. by rewrite <- ?app_assoc in *. }
  rewrite ask_bind. cbn [locals calls].
  set (url := UrlOpen "http://checkip.amazonaws.com/").
  destruct (world_text world (h3 ++ [GetHostByName]) url)
    as [public|e] eqn:Hpublic.
  2:{ exists ([qb; qc] ++ creation bl cb ++ [GetHostByName]), url.
      rewrite Hh3 in *. split; [by rewrite <- ?app_assoc|].
      exists e. split; [done|]. right. right. by rewrite <- ?app_assoc in *. }
  set (h5 := (h3 ++ [GetHostByName]) ++ [url]).
  assert (h5 = calls s ++ [qb; qc] ++ creation bl cb ++ [GetHostByName; url])
    as Hh5 by (unfold h5; rewrite Hh3; by rewrite <- !app_assoc).
  set (rules := client_rules ((λ fcip, fcip +:+ "/32") <$> [host; public])).
  unfold w_bind at 1.
  destruct (authorize_rules_run world rule_repr base rules
              (mkScene (locals s) h5))
    as [-> | (rd & rule & rest & f & Hrules & Hf & ->)];
    cbn [locals calls] in *.
  2:{ exists ([qb; qc] ++ creation bl cb ++ [GetHostByName; url]
              ++ (AuthorizeIngress (group_id base) <$> rd)),
             (AuthorizeIngress (group_id base) rule).
      rewrite Hh5 in *. split; [by rewrite <- ?app_assoc|].
      cbn [is_authorization authorization_message].
      by rewrite <- ?app_assoc in *. }
  set (h6 := h5 ++ (AuthorizeIngress (group_id base) <$> rules)).
  assert (h6 = calls s ++ [qb; qc] ++ creation bl cb ++ [GetHostByName; url]
               ++ (AuthorizeIngress (group_id base) <$> rules)) as Hh6
    by (unfold h6; rewrite Hh5; by rewrite <- !app_assoc).
  unfold w_bind at 1.
  destruct (found_or_created_run world cl cc (mkScene (locals s) h6))
    as [(cluster & Hcluster & ->) | (e & He & ->)]; cbn [locals calls] in *.
  2:{ exists ([qb; qc] ++ creation bl cb ++ [GetHostByName; url]
              ++ (AuthorizeIngress (group_id base) <$> rules)), cc.
      rewrite Hh6 in *. split; [by rewrite <- ?app_assoc|].
      exists e. split; [done|]. right. left. by rewrite <- ?app_assoc in *. }
  set (h7 := h6 ++ creation cl cc).
  assert (h7 = calls s ++ [qb; qc] ++ creation bl cb ++ [GetHostByName; url]
               ++ (AuthorizeIngress (group_id base) <$> rules)
               ++ creation cl cc) as Hh7
    by (unfold h7; rewrite Hh6; by rewrite <- !app_assoc).
  set (qs := AuthorizeIngressFromGroup (group_id cluster) (group_id cluster)).
  unfold w_bind at 1.
  destruct (authorize_run world qs
              "Error authorizing cluster ingress to self."
              (mkScene (locals s) h7))
    as [[_ ->] | (f & Hf & ->)]; cbn [locals calls] in *.
  - exists bl, cl, base, cluster, host, public.
    split; [done|]. split; [done|]. split; [done|]. split; [done|].
    split; [done|]. rewrite Hh7. by rewrite <- !app_assoc.
  - exists ([qb; qc] ++ creation bl cb ++ [GetHostByName; url]
            ++ (AuthorizeIngress (group_id base) <$> rules)
            ++ creation cl cc), qs.
    rewrite Hh7 in *. split; [by rewrite <- ?app_assoc|].
    cbn [is_authorization qs authorization_message].
    by rewrite <- ?app_assoc in *.
Qed.



(** X21. A run of [get_or_create_ec2_security_groups] that fails has
    failed on its last call. When that call is an authorization, the
    provider answered it with an exception: a [ClientError] other than a
    duplicate permission, which is replaced by an [Exception] naming the
    rule (or the cluster group's rule to itself), or an exception that is
    not a [ClientError], which is passed on. So a [ClientError] that
    leaves the function was raised by a lookup or by the creation of a
    group, never by an authorization. *)
Theorem security_groups_failure {V} (world : World)
    (rule_repr : SecurityGroupRule → string) (cn v r : string)
    (s s' : Scene V) (f : Failure) :
  get_or_create_ec2_security_groups world rule_repr cn v r s
  = (Failed f, s') →
  ∃ pre q,
    calls s' = calls s ++ pre ++ [q]
    ∧ locals s' = locals s
    ∧ (is_authorization q = true →
       rejected world (calls s ++ pre) q (authorization_message rule_repr q) f)
    ∧ ∀ code, f = Plain (ClientError code) →
              is_authorization q = false
              ∧ refused world (calls s ++ pre) q (ClientError code).
Proof.
  intros Hrun. pose proof (security_groups_run world rule_repr cn v r s) as H.
  cbn zeta in H. rewrite Hrun in H. destruct H as (pre & q & -> & H).
  exists pre, q. split; [done|]. split; [done|].
  destruct (is_authorization q).
  - split; [done|]. intros code ->. exfalso.
    destruct H as (e & _ & He). destruct e; try done.
    by destruct He.
  - split; [done|]. intros code ->. split; [done|].
    by destruct H as (e & [= <-] & He).
Qed.

Lemma security_groups_failure_witness :
  ∃ pre q,
    [Core (DescribeSecurityGroups "flintrock" "vpc-1");
     Core (DescribeSecurityGroups "flintrock-test" "vpc-1");
     CreateSecurityGroup "flintrock" "Flintrock base group" "vpc-1";
     GetHostByName; UrlOpen "http://checkip.amazonaws.com/";
     AuthorizeIngress "sg-flintrock" (mkRule "tcp" 22 22 None "203.0.113.7/32");
     AuthorizeIngress "sg-flintrock"
       (mkRule "tcp" 50070 50070 None "203.0.113.7/32");
     AuthorizeIngress "sg-flintrock"
       (mkRule "tcp" 8080 8081 None "203.0.113.7/32");
     AuthorizeIngress "sg-flintrock"
       (mkRule "tcp" 4040 4040 None "203.0.113.7/32")]
    = [] ++ pre ++ [q]
    ∧ tt = tt
    ∧ (is_authorization q = true →
       rejected strict_world ([] ++ pre) q
         (authorization_message rule_name q)
         (Plain (Exception "Error adding rule: tcp 4040-4040 203.0.113.7/32")))
    ∧ ∀ code,
        Plain (Exception "Error adding rule: tcp 4040-4040 203.0.113.7/32")
        = Plain (ClientError code) →
        is_authorization q = false
        ∧ refused strict_world ([] ++ pre) q (ClientError code).
Proof.
  exact (security_groups_failure strict_world rule_name "test" "vpc-1"
           "us-east-1" (mkScene tt [])
           (mkScene tt
              [Core (DescribeSecurityGroups "flintrock" "vpc-1");
               Core (DescribeSecurityGroups "flintrock-test" "vpc-1");
               CreateSecurityGroup "flintrock" "Flintrock base group" "vpc-1";
               GetHostByName; UrlOpen "http://checkip.amazonaws.com/";
               AuthorizeIngress "sg-flintrock"
                 (mkRule "tcp" 22 22 None "203.0.113.7/32");
               AuthorizeIngress "sg-flintrock"
                 (mkRule "tcp" 50070 50070 None "203.0.113.7/32");
               AuthorizeIngress "sg-flintrock"
                 (mkRule "tcp" 8080 8081 None "203.0.113.7/32");
               AuthorizeIngress "sg-flintrock"
                 (mkRule "tcp" 4040 4040 None "203.0.113.7/32")])
           (Plain (Exception
                     "Error adding rule: tcp 4040-4040 203.0.113.7/32"))
           eq_refl).
Defined.

(** X22. Provisioning is idempotent. When both groups already exist, every
    authorization is answered by a success or by a duplicate-permission
    error, and no other request is refused, the function returns the two
    existing groups (the first of each lookup) and creates no group: its
    calls are the two lookups, the two address lookups, the twelve client
    rules on the existing base group and the rule of the existing cluster
    group to itself. *)
Theorem security_groups_idempotent {V} (world : World)
    (rule_repr : SecurityGroupRule → string) (cn v r : string)
    (s : Scene V) (b c : SecurityGroup) (bl cl : list SecurityGroup) :
  (∀ h q, is_authorization q = true →
          granted_or_duplicate (world_unit world h q)) →
  (∀ h q e, ¬ refused world h q e) →
  world_groups world (calls s) (Core (DescribeSecurityGroups "flintrock" v))
  = Ok (b :: bl) →
  world_groups world
    (calls s ++ [Core (DescribeSecurityGroups "flintrock" v)])
    (Core (DescribeSecurityGroups ("flintrock-" +:+ cn) v)) = Ok (c :: cl) →
  ∃ host public,
    get_or_create_ec2_security_groups world rule_repr cn v r s
    = (Returned [b; c],
       mkScene (locals s)
         (calls s
          ++ [Core (DescribeSecurityGroups "flintrock" v);
              Core (DescribeSecurityGroups ("flintrock-" +:+ cn) v);
              GetHostByName; UrlOpen "http://checkip.amazonaws.com/"]
          ++ (AuthorizeIngress (group_id b)
                <$> client_rules [host +:+ "/32"; public +:+ "/32"])
          ++ [AuthorizeIngressFromGroup (group_id c) (group_id c)])).
Proof.
  intros Hauth Hother Hb Hc.
  pose proof (security_groups_run world rule_repr cn v r s) as H.
  cbn zeta in H.
  destruct (get_or_create_ec2_security_groups world rule_repr cn v r s)
    as [[gs|f|] s'].
  - destruct H as (bl' & cl' & base & cluster & host & public
                   & Hbl & Hcl & Hfb & Hfc & -> & ->).
    rewrite Hb in Hbl. rewrite Hc in Hcl.
    injection Hbl as <-. injection Hcl as <-.
    cbn [first_found creation] in *. subst base cluster.
    exists host, public. by rewrite !app_nil_l.
  - exfalso. destruct H as (pre & q & _ & H).
    destruct (is_authorization q) eqn:Hq.
    + destruct H as (e & He & Hf).
      destruct (Hauth (calls s ++ pre) q Hq) as [Hok | Hdup];
        [congruence|].
      rewrite Hdup in He. injection He as <-. by destruct Hf.
    + destruct H as (e & _ & He). by apply (Hother _ _ _ He).
  - done.
Qed.

Lemma security_groups_idempotent_witness :
  ∃ host public,
    get_or_create_ec2_security_groups settled_world rule_name "test" "vpc-1"
      "us-east-1" (mkScene tt [])
    = (Returned [mkGroup "sg-flintrock" "flintrock";
                 mkGroup "sg-flintrock-test" "flintrock-test"],
       mkScene tt
         ([]
          ++ [Core (DescribeSecurityGroups "flintrock" "vpc-1");
              Core (DescribeSecurityGroups ("flintrock-" +:+ "test") "vpc-1");
              GetHostByName; UrlOpen "http://checkip.amazonaws.com/"]
          ++ (AuthorizeIngress "sg-flintrock"
                <$> client_rules [host +:+ "/32"; public +:+ "/32"])
          ++ [AuthorizeIngressFromGroup "sg-flintrock-test"
                "sg-flintrock-test"])).
Proof.
  apply (security_groups_idempotent settled_world rule_name "test" "vpc-1"
           "us-east-1" (mkScene tt [])
           (mkGroup "sg-flintrock" "flintrock")
           (mkGroup "sg-flintrock-test" "flintrock-test") [] []).
  - intros h [] Hq; try done; by right.
  - intros h q e [H | [H | H]]; [|done..].
    destruct q as [[]| | | | | | | | | |]; done.
  - reflexivity.
  - reflexivity.
Defined.

(** * Remote operations *)

(** X23. [run_command] and [copy_file] are guarded by the aggregate state.
    On a cluster whose state is not 'running' (a stopped cluster
    included) they end with [ClusterInvalidState], carrying the command
    name 'run-command' or 'copy-file' and the observed state, before any
    call is made. On a running cluster they make exactly one call, the
    generic operation with the arguments they were given, and end as it
    does. The cluster is left as it was in all cases. *)
Theorem remote_operations_guarded (world : World) (self : EC2Cluster)
    (h : list Request) (master_only : bool)
    (command user identity_file local_path remote_path : string) :
  let run := SuperRunCommand master_only command user identity_file in
  let copy :=
    SuperCopyFile local_path remote_path master_only user identity_file in
  (state self ≠ "running" →
   run_command world master_only command user identity_file (mkScene self h)
   = (Failed (Plain (ClusterInvalidState "run-command" (state self))),
      mkScene self h)
   ∧ copy_file world local_path remote_path master_only user identity_file
       (mkScene self h)
     = (Failed (Plain (ClusterInvalidState "copy-file" (state self))),
        mkScene self h))
  ∧ (state self = "running" →
     run_command world master_only command user identity_file (mkScene self h)
     = (match world_unit world h run with
        | Ok _ => Returned tt
        | Raise e => Failed (Plain e)
        end, mkScene self (h ++ [run]))
     ∧ copy_file world local_path remote_path master_only user identity_file
         (mkScene self h)
       = (match world_unit world h copy with
          | Ok _ => Returned tt
          | Raise e => Failed (Plain e)
          end, mkScene self (h ++ [copy]))).
Proof.
  cbn zeta. unfold run_command, copy_file, run_command_check, copy_file_check,
    super_hook, w_bind, w_get, ask. cbn [locals calls].
  split; intros Hstate.
  - destruct (decide (state self ≠ "running")); done.
  - destruct (decide (state self ≠ "running")); [done|]. cbn [w_ret].
    cbn [locals calls].
    split.
    + by destruct (world_unit world h _) as [[]|e].
    + by destruct (world_unit world h _) as [[]|e].
Qed.

Lemma remote_operations_guarded_witness :
  (run_command (sample_world []) true "uptime" "ec2-user" "key.pem"
     (mkScene stopped_cluster [])
   = (Failed (Plain (ClusterInvalidState "run-command" "stopped")),
      mkScene stopped_cluster [])
   ∧ copy_file (sample_world []) "a.txt" "/tmp/a.txt" true "ec2-user" "key.pem"
       (mkScene stopped_cluster [])
     = (Failed (Plain (ClusterInvalidState "copy-file" "stopped")),
        mkScene stopped_cluster []))
  ∧ run_command (sample_world []) true "uptime" "ec2-user" "key.pem"
      (mkScene running_cluster [])
    = (Returned tt,
       mkScene running_cluster
         [SuperRunCommand true "uptime" "ec2-user" "key.pem"])
  ∧ copy_file (sample_world []) "a.txt" "/tmp/a.txt" true "ec2-user" "key.pem"
      (mkScene running_cluster [])
    = (Returned tt,
       mkScene running_cluster
         [SuperCopyFile "a.txt" "/tmp/a.txt" true "ec2-user" "key.pem"]).
Proof.
  split.
  - apply (proj1 (remote_operations_guarded (sample_world []) stopped_cluster
                    [] true "uptime" "ec2-user" "key.pem" "a.txt"
                    "/tmp/a.txt")).
    by vm_compute.
  - apply (proj2 (remote_operations_guarded (sample_world []) running_cluster
                    [] true "uptime" "ec2-user" "key.pem" "a.txt"
                    "/tmp/a.txt")).
    by vm_compute.
Defined.

(** * The head of [launch] *)

(** ** Programs confined to a class of requests *)

Lemma confined_ret {V A} (P : Request → Prop) (a : A) :
  confined (V:=V) P (w_ret a).
Proof.
  intros s o s' [= <- <-]. split; [done|]. exists []. by rewrite app_nil_r.
Qed.

Lemma confined_fail {V A} (P : Request → Prop) (f : Failure) :
  confined (V:=V) (A:=A) P (w_fail f).
Proof.
  intros s o s' [= <- <-]. split; [done|]. exists []. by rewrite app_nil_r.
Qed.

Lemma confined_result {V A} (P : Request → Prop) (r : result A) :
  confined (V:=V) P (w_result r).
Proof. destruct r; [apply confined_ret | apply confined_fail]. Qed.

Lemma confined_ask {V A} (P : Request → Prop)
    (answer : list Request → Request → result A) (q : Request) :
  P q → confined (V:=V) P (ask answer q).
Proof.
  intros Hq s o s'. unfold ask.
  destruct (answer (calls s) q); intros [= <- <-]; (split; [done|]);
    exists [q]; (split; [done|]); by apply Forall_cons_2.
Qed.

Lemma confined_bind {V A B} (P : Request → Prop) (m : W V A)
    (k : A → W V B) :
  confined P m → (∀ a, confined P (k a)) → confined P (w_bind m k).
Proof.
  intros Hm Hk s o s'. unfold w_bind.
  destruct (m s) as [o1 s1] eqn:M.
  destruct (Hm _ _ _ M) as (Hl & t & Ht & HP).
  destruct o1 as [a|f|].
  - intros K. destruct (Hk a _ _ _ K) as (Hl' & t' & Ht' & HP').
    split; [congruence|]. exists (t ++ t').
    split; [by rewrite Ht', Ht, <- app_assoc|]. by apply Forall_app.
  - intros [= <- <-]. eauto.
  - intros [= <- <-]. eauto.
Qed.

Lemma confined_try {V A} (P : Request → Prop) (m : W V A)
    (handler : Failure → option (W V A)) :
  confined P m → (∀ f h, handler f = Some h → confined P h) →
  confined P (w_try m handler).
Proof.
  intros Hm Hh s o s'. unfold w_try.
  destruct (m s) as [o1 s1] eqn:M.
  destruct (Hm _ _ _ M) as (Hl & t & Ht & HP).
  destruct o1 as [a|f|]; [intros [= <- <-]; eauto| |intros [= <- <-]; eauto].
  destruct (handler f) as [h|] eqn:Hf; [|intros [= <- <-]; eauto].
  intros K. destruct (Hh f h Hf _ _ _ K) as (Hl' & t' & Ht' & HP').
  split; [congruence|]. exists (t ++ t').
  split; [by rewrite Ht', Ht, <- app_assoc|]. by apply Forall_app.
Qed.

Lemma confined_for_each {V A} (P : Request → Prop) (l : list A)
    (body : A → W V unit) :
  (∀ x, confined P (body x)) → confined P (w_for_each l body).
Proof.
  intros Hbody. induction l as [|x l IH]; cbn [w_for_each].
  - apply confined_ret.
  - apply confined_bind; [apply Hbody | intros _; exact IH].
Qed.

Lemma confined_run_core {V V' A} (P : Request → Prop) (world : World)
    (v : V') (m : Environment → M V' A) :
  (∀ e, P (Core e)) → confined (V:=V) P (run_core world v m).
Proof.
  intros HP s o s'. unfold run_core.
  destruct (m (environment_after world (calls s)) (mkFrame v [])) as [o1 f].
  intros [= <- <-]. split; [done|]. eexists. split; [done|].
  apply Forall_fmap, Forall_forall. intros e _. apply HP.
Qed.

Lemma confined_unless_duplicate {V} (P : Request → Prop) (msg : string)
    (f : Failure) (h : W V unit) :
  unless_duplicate msg f = Some h → confined P h.
Proof.
  destruct f as [[]| | | |]; try done. cbn [unless_duplicate].
  intros [= <-]. destruct (decide _); [apply confined_fail|apply confined_ret].
Qed.

Lemma confined_security_groups {V} (P : Request → Prop) (world : World)
    (rule_repr : SecurityGroupRule → string) (cn v r : string) :
  (∀ g v', P (Core (DescribeSecurityGroups g v'))) →
  (∀ g d v', P (CreateSecurityGroup g d v')) →
  P GetHostByName → (∀ u, P (UrlOpen u)) →
  (∀ q, is_authorization q = true → P q) →
  confined (V:=V) P
    (get_or_create_ec2_security_groups world rule_repr cn v r).
Proof.
  intros Hcore Hcreate Hhost Hurl Hauth.
  assert (∀ found create, (∀ g d v', create = CreateSecurityGroup g d v' →
                                     True) →
          P create →
          confined (V:=V) P (found_or_created world found create)) as Hfc.
  { intros [|g found] create _ Hc; cbn [found_or_created];
      [by apply confined_ask | apply confined_ret]. }
  unfold get_or_create_ec2_security_groups.
  apply confined_bind; [by apply confined_ask|intros bl].
  apply confined_bind; [by apply confined_ask|intros cl].
  apply confined_bind; [by apply Hfc|intros base].
  apply confined_bind; [by apply confined_ask|intros host].
  apply confined_bind; [by apply confined_ask|intros public].
  apply confined_bind.
  { apply confined_for_each. intros rule. unfold authorize_client_rule.
    apply confined_try; [by apply confined_ask, Hauth|].
    apply confined_unless_duplicate. }
  intros _. apply confined_bind; [by apply Hfc|intros cluster].
  apply confined_bind; [|intros _; apply confined_ret].
  apply confined_try; [by apply confined_ask, Hauth|].
  apply confined_unless_duplicate.
Qed.

Lemma confined_get_clusters {V} (P : Request → Prop) (world : World)
    (names : list string) (r v : string) :
  P DescribeDefaultVpcs → (∀ gs v', P (DescribeInstancesInGroups gs v')) →
  confined (V:=V) P (get_clusters world names r v).
Proof.
  intros Hd Hl. unfold get_clusters.
  apply confined_bind.
  { destruct (decide (v = "")); [|apply confined_ret].
    unfold get_default_vpc. apply confined_bind; [by apply confined_ask|].
    intros [|v0 vs]; [apply confined_fail | apply confined_ret]. }
  intros v0. apply confined_bind; [by apply confined_ask|intros all].
  apply confined_bind; [apply confined_result|intros ns].
  apply confined_bind; [|intros _; apply confined_result].
  destruct names as [|n names]; [apply confined_ret|].
  destruct (elements _); [apply confined_ret | apply confined_fail].
Qed.

Lemma confined_get_cluster {V} (P : Request → Prop) (world : World)
    (cn r v : string) :
  P DescribeDefaultVpcs → (∀ gs v', P (DescribeInstancesInGroups gs v')) →
  confined (V:=V) P (get_cluster world cn r v).
Proof.
  intros Hd Hl. unfold get_cluster.
  apply confined_bind; [by apply confined_get_clusters|].
  intros [|c cs]; [apply confined_fail | apply confined_ret].
Qed.

Lemma confined_resolve_vpc {V} (P : Request → Prop) (world : World)
    (args : LaunchArgs) (subnet_id : string) :
  P DescribeDefaultVpcs → (∀ v a, P (DescribeVpcAttribute v a)) →
  confined (V:=V) P (launch_resolve_vpc world args subnet_id).
Proof.
  intros Hd Ha. unfold launch_resolve_vpc.
  destruct (decide (launch_vpc_id args = "")).
  - unfold get_default_vpc. apply confined_bind; [by apply confined_ask|].
    intros [|v0 vs]; [apply confined_fail | apply confined_ret].
  - apply confined_bind; [|intros _; apply confined_ret].
    unfold check_network_config.
    apply confined_bind; [by apply confined_ask|].
    intros []; [apply confined_ret | apply confined_fail].
Qed.

Lemma confined_check_absent {V} (P : Request → Prop) (world : World)
    (args : LaunchArgs) (v : string) :
  P DescribeDefaultVpcs → (∀ gs v', P (DescribeInstancesInGroups gs v')) →
  confined (V:=V) P (launch_check_absent world args v).
Proof.
  intros Hd Hl s o s'. unfold launch_check_absent.
  destruct (get_cluster world _ _ v s) as [o1 s1] eqn:G.
  apply (confined_get_cluster P world _ _ _ Hd Hl) in G.
  destruct o1 as [c|[]|]; by intros [= <- <-].
Qed.

(** The planner makes one call, the image lookup, whatever it answers. *)
Lemma block_device_mappings_frame {V} (env : Environment) (ami : string)
    (s : Frame V) :
  snd (get_ec2_block_device_mappings env ami s) = after_image_lookup ami s.
Proof.
  unfold get_ec2_block_device_mappings, bind, call, after_image_lookup.
  destruct (answer_images env (trace s) (DescribeImages ami))
    as [[|image images]|e]; cbn [first_item raise ret]; try done.
  destruct (root_device_entries image); cbn [lift_result ret raise]; done.
Qed.

Lemma confined_prepare {V} (P : Request → Prop) (world : World)
    (rule_repr : SecurityGroupRule → string) (args : LaunchArgs)
    (v ami : string) :
  (∀ g v', P (Core (DescribeSecurityGroups g v'))) →
  P (Core (DescribeImages ami)) →
  (∀ g d v', P (CreateSecurityGroup g d v')) →
  P GetHostByName → (∀ u, P (UrlOpen u)) →
  (∀ q, is_authorization q = true → P q) →
  confined (V:=V) P (launch_prepare world rule_repr args v ami).
Proof.
  intros Hcore Himage Hcreate Hhost Hurl Hauth. unfold launch_prepare.
  apply confined_try.
  - apply confined_bind; [by apply confined_security_groups|intros gs].
    apply confined_bind; [|intros bdm; apply confined_ret].
    intros s o s'. unfold run_core.
    pose proof (block_device_mappings_frame
                  (environment_after world (calls s)) ami (mkFrame tt []))
      as Hframe.
    destruct (get_ec2_block_device_mappings _ ami (mkFrame tt []))
      as [o1 f]. cbn [snd] in Hframe. subst f.
    intros [= <- <-]. split; [done|]. eexists. split; [done|].
    cbn. by apply Forall_cons_2.
  - intros [[]| | | |] h; try done. cbn [image_not_found]. intros [= <-].
    destruct (decide _); apply confined_fail.
Qed.

(** The acquisition and rollback statement: its first call is the
    acquisition request, and it makes no other. *)
Lemma launch_try_except_calls (env : Environment) (args : LaunchArgs)
    (fuel : nat) (s s' : Frame LaunchVars) (out : Outcome unit) :
  launch_try_except env args fuel s = (out, s') →
  ∃ rest,
    trace s'
    = trace s
      ++ match spot_price args with
         | None => CreateInstances (num_slaves args + 1)
         | Some price => RequestSpotInstances price (num_slaves args + 1)
         end :: rest
    ∧ Forall bid_free rest.
Proof.
  unfold launch_try_except.
  destruct (launch_try env args fuel s) as [o s1] eqn:T.
  pose proof (launch_try_calls _ _ _ _ _ _ T) as Htry.
  assert (∃ rest,
            trace s1
            = trace s
              ++ match spot_price args with
                 | None => CreateInstances (num_slaves args + 1)
                 | Some price =>
                     RequestSpotInstances price (num_slaves args + 1)
                 end :: rest
            ∧ Forall bid_free rest) as (rest & Hrest & Hrb).
  { destruct (spot_price args); [done|].
    destruct Htry as (_ & rest & H1 & H2). exists rest. split; [done|].
    eapply Forall_impl; [exact H2|]. intros e. by destruct e. }
  destruct o as [[]|e|]; [intros [= <- <-]; eauto| |intros [= <- <-]; eauto].
  destruct (Exception_or_KeyboardInterrupt e); [|intros [= <- <-]; eauto].
  unfold bind, raise.
  destruct (launch_rollback env args s1) as [o2 s3] eqn:R.
  apply launch_rollback_calls in R as (t & Ht & Hb & _).
  assert (trace s3
          = trace s
            ++ match spot_price args with
               | None => CreateInstances (num_slaves args + 1)
               | Some price =>
                   RequestSpotInstances price (num_slaves args + 1)
               end :: rest ++ t) as Hall
    by (rewrite Ht, Hrest; by rewrite <- app_assoc).
  assert (Forall bid_free (rest ++ t)) as Hbf by (by apply Forall_app).
  destruct o2 as [[]|?|]; intros [= <- <-]; eauto.
Qed.

Lemma no_acquisition_among (h t pre post : list Request) (q : Request) :
  h ++ t = h ++ pre ++ q :: post →
  Forall (λ q', is_acquisition q' = false) t →
  is_acquisition q = true → False.
Proof.
  intros ->%app_inv_head Hall Hq. rewrite Forall_forall in Hall.
  rewrite (Hall q) in Hq; [done|]. apply elem_of_app. right. left.
Qed.

(** X24. [launch] fails fast on the network scope. With a VPC given whose
    DNS hostnames are not enabled it ends with [ConfigurationNotSupported]
    after that one attribute lookup; without a VPC, in a region that has
    no default VPC, it ends with [NoDefaultVPC] for the region after that
    one lookup. Nothing else has been requested in either case. *)
Theorem launch_network_scope {V} (world : World)
    (rule_repr : SecurityGroupRule → string) (fuel : nat)
    (args : LaunchArgs) (subnet_id ami : string) (s : Scene V) :
  (launch_vpc_id args ≠ "" →
   world_flag world (calls s)
     (DescribeVpcAttribute (launch_vpc_id args) "enableDnsHostnames")
   = Ok false →
   launch world rule_repr fuel args subnet_id ami s
   = (Failed (ConfigurationNotSupported
                (launch_vpc_id args
                 +:+ " does not have DNS hostnames enabled. "
                 +:+ "Flintrock requires DNS hostnames to be enabled."
                 +:+ newline
                 +:+ "See: https://github.com/nchammas/flintrock/issues/43")),
      mkScene (locals s)
        (calls s ++ [DescribeVpcAttribute (launch_vpc_id args)
                       "enableDnsHostnames"])))
  ∧ (launch_vpc_id args = "" →
     world_vpcs world (calls s) DescribeDefaultVpcs = Ok [] →
     launch world rule_repr fuel args subnet_id ami s
     = (Failed (NoDefaultVPC (launch_region args)),
        mkScene (locals s) (calls s ++ [DescribeDefaultVpcs]))).
Proof.
  split; intros Hv Hanswer.
  - unfold launch, w_bind at 1, launch_resolve_vpc.
    destruct (decide (launch_vpc_id args = "")); [done|].
    unfold w_bind at 1, check_network_config, w_bind at 1, ask.
    by rewrite Hanswer.
  - unfold launch, w_bind at 1, launch_resolve_vpc.
    destruct (decide (launch_vpc_id args = "")); [|done].
    unfold get_default_vpc, w_bind at 1, ask. by rewrite Hanswer.
Qed.

Lemma launch_network_scope_witness :
  launch (mkWorld (λ _ _, Ok tt) (λ _ _, Ok false) (λ _ _, Ok "") (λ _ _, Ok [])
            (λ _ _, Ok base_group) (λ _ _, Ok []) (λ _ _, Ok [])
            (λ _ _, Ok []) (λ _ _, Ok []) (λ _ _, Ok []))
    rule_name 3 on_demand_args "subnet-1" "ami-1" (mkScene tt [])
  = (Failed (ConfigurationNotSupported
               (launch_vpc_id on_demand_args
                +:+ " does not have DNS hostnames enabled. "
                +:+ "Flintrock requires DNS hostnames to be enabled."
                +:+ newline
                +:+ "See: https://github.com/nchammas/flintrock/issues/43")),
     mkScene tt
       ([] ++ [DescribeVpcAttribute (launch_vpc_id on_demand_args)
                 "enableDnsHostnames"]))
  ∧ launch (mkWorld (λ _ _, Ok tt) (λ _ _, Ok false) (λ _ _, Ok "")
              (λ _ _, Ok []) (λ _ _, Ok base_group) (λ _ _, Ok [])
              (λ _ _, Ok []) (λ _ _, Ok []) (λ _ _, Ok []) (λ _ _, Ok []))
      rule_name 3 (with_vpc on_demand_args "") "subnet-1" "ami-1"
      (mkScene tt [])
    = (Failed (NoDefaultVPC (launch_region (with_vpc on_demand_args ""))),
       mkScene tt ([] ++ [DescribeDefaultVpcs])).
Proof.
  split.
  - apply (proj1 (launch_network_scope _ rule_name 3 on_demand_args
                    "subnet-1" "ami-1" (mkScene tt []))); [done|reflexivity].
  - apply (proj2 (launch_network_scope _ rule_name 3
                    (with_vpc on_demand_args "") "subnet-1" "ami-1"
                    (mkScene tt []))); reflexivity.
Defined.

(** X25. The pre-existence check of [launch]. Once the network scope is
    resolved, [launch] looks the cluster name up; up to the end of that
    lookup it has made lookups only. If the lookup returns a cluster,
    [launch] ends with [ClusterAlreadyExists] naming the cluster, the
    region and the VPC; if it fails with anything but [ClusterNotFound]
    (a cluster of that name without a master, say), [launch] ends with
    that failure; only on [ClusterNotFound] does it go on to prepare the
    security groups and the block devices. *)
Theorem launch_pre_existence {V} (world : World)
    (rule_repr : SecurityGroupRule → string) (fuel : nat)
    (args : LaunchArgs) (subnet_id ami : string) (s s1 s2 : Scene V)
    (v : string) (o : Ending EC2Cluster) :
  launch_resolve_vpc world args subnet_id s = (Returned v, s1) →
  get_cluster world (cluster_name args) (launch_region args) v s1 = (o, s2) →
  (∃ t, calls s2 = calls s ++ t ∧ Forall lookup_only t)
  ∧ launch world rule_repr fuel args subnet_id ami s
    = match o with
      | Returned _ =>
          (Failed (ClusterAlreadyExists
                     ("Cluster " +:+ cluster_name args
                      +:+ " already exists in region " +:+ launch_region args
                      +:+ ", VPC " +:+ v +:+ ".")), s2)
      | Failed (ClusterNotFound _) =>
          (launch_prepare world rule_repr args v ami;;;
           run_core world (mkLaunchVars [] [])
             (λ env, launch_try_except env (with_vpc args v) fuel);;;
           w_ret tt)%wide s2
      | Failed f => (Failed f, s2)
      | Unfinished => (Unfinished, s2)
      end.
Proof.
  intros Hresolve Hcluster. split.
  - destruct (confined_resolve_vpc lookup_only world args subnet_id I
                (λ _ _, I) _ _ _ Hresolve) as (_ & t1 & Ht1 & Hl1).
    destruct (confined_get_cluster lookup_only world _ _ _ I (λ _ _, I)
                _ _ _ Hcluster) as (_ & t2 & Ht2 & Hl2).
    exists (t1 ++ t2). split; [by rewrite Ht2, Ht1, <- app_assoc|].
    by apply Forall_app.
  - unfold launch, w_bind at 1. rewrite Hresolve.
    unfold w_bind at 1, launch_check_absent. rewrite Hcluster.
    by destruct o as [c|[]|].
Qed.

Lemma launch_pre_existence_witness :
  (∃ t, [DescribeVpcAttribute "vpc-1" "enableDnsHostnames";
         DescribeInstancesInGroups ["flintrock-test"] "vpc-1"] = [] ++ t
        ∧ Forall lookup_only t)
  ∧ launch (launch_world [listed running_master "test";
                          listed running_slave "test"])
      rule_name 3 on_demand_args "subnet-1" "ami-1" (mkScene tt [])
    = (Failed (ClusterAlreadyExists
                 ("Cluster " +:+ cluster_name on_demand_args
                  +:+ " already exists in region "
                  +:+ launch_region on_demand_args
                  +:+ ", VPC " +:+ "vpc-1" +:+ ".")),
       mkScene tt [DescribeVpcAttribute "vpc-1" "enableDnsHostnames";
                   DescribeInstancesInGroups ["flintrock-test"] "vpc-1"]).
Proof.
  exact (launch_pre_existence
           (launch_world [listed running_master "test";
                          listed running_slave "test"])
           rule_name 3 on_demand_args "subnet-1" "ami-1" (mkScene tt [])
           (mkScene tt [DescribeVpcAttribute "vpc-1" "enableDnsHostnames"])
           (mkScene tt [DescribeVpcAttribute "vpc-1" "enableDnsHostnames";
                        DescribeInstancesInGroups ["flintrock-test"] "vpc-1"])
           "vpc-1" (Returned running_cluster) eq_refl eq_refl).
Defined.

(** X26. An unknown image is reported by an [Error]. When the security
    groups are in place and the image lookup is answered by a
    [ClientError], the preparation step of [launch] ends right after that
    lookup: with [Error] 'Error: Could not find <ami> in region <region>.'
    when the code is 'InvalidAMIID.NotFound', and with the [ClientError]
    itself for every other code. *)
Theorem launch_image_not_found {V} (world : World)
    (rule_repr : SecurityGroupRule → string) (args : LaunchArgs)
    (v ami : string) (s s1 : Scene V) (gs : list SecurityGroup)
    (code : string) :
  get_or_create_ec2_security_groups world rule_repr (cluster_name args) v
    (launch_region args) s = (Returned gs, s1) →
  world_images world (calls s1) (Core (DescribeImages ami))
  = Raise (ClientError code) →
  launch_prepare world rule_repr args v ami s
  = (Failed (Plain
               (if decide (code = "InvalidAMIID.NotFound")
                then Error ("Error: Could not find " +:+ ami +:+ " in region "
                            +:+ launch_region args +:+ ".")
                else ClientError code)),
     mkScene (locals s1) (calls s1 ++ [Core (DescribeImages ami)])).
Proof.
  intros Hgroups Himage. unfold launch_prepare, w_try, w_bind at 1.
  rewrite Hgroups. unfold w_bind at 1, run_core.
  unfold get_ec2_block_device_mappings, bind at 1, call.
  cbn [trace vars environment_after answer_images fmap list_fmap].
  rewrite app_nil_r, Himage. cbn [ending_of image_not_found trace].
  destruct (decide (code = "InvalidAMIID.NotFound")); done.
Qed.

Lemma launch_image_not_found_witness :
  launch_prepare settled_world rule_name on_demand_args "vpc-1" "ami-404"
    (mkScene tt [])
  = (Failed (Plain (Error "Error: Could not find ami-404 in region us-east-1.")),
     mkScene tt
       (([Core (DescribeSecurityGroups "flintrock" "vpc-1");
          Core (DescribeSecurityGroups "flintrock-test" "vpc-1");
          GetHostByName; UrlOpen "http://checkip.amazonaws.com/"]
         ++ (AuthorizeIngress "sg-flintrock"
               <$> client_rules ["203.0.113.7/32"; "203.0.113.7/32"])
         ++ [AuthorizeIngressFromGroup "sg-flintrock-test"
               "sg-flintrock-test"])
        ++ [Core (DescribeImages "ami-404")])).
Proof.
  exact (launch_image_not_found settled_world rule_name on_demand_args
           "vpc-1" "ami-404" (mkScene tt [])
           (mkScene tt
              ([Core (DescribeSecurityGroups "flintrock" "vpc-1");
                Core (DescribeSecurityGroups "flintrock-test" "vpc-1");
                GetHostByName; UrlOpen "http://checkip.amazonaws.com/"]
               ++ (AuthorizeIngress "sg-flintrock"
                     <$> client_rules ["203.0.113.7/32"; "203.0.113.7/32"])
               ++ [AuthorizeIngressFromGroup "sg-flintrock-test"
                     "sg-flintrock-test"]))
           [mkGroup "sg-flintrock" "flintrock";
            mkGroup "sg-flintrock-test" "flintrock-test"]
           "InvalidAMIID.NotFound" eq_refl eq_refl).
Defined.

(** X27. [launch] acquires instances once, and only after its checks have
    passed. In any run of [launch], whatever its outcome, a request that
    acquires instances (a bulk create or a spot bid) was made right after
    the three steps before it returned: the resolution of the network
    scope, the pre-existence check, and the preparation of the security
    groups and block devices. It is the acquisition request for
    num_slaves + 1 instances of the launch, and no request after it
    acquires instances again, rollback included. *)
Theorem launch_acquires_after_checks {V} (world : World)
    (rule_repr : SecurityGroupRule → string) (fuel : nat)
    (args : LaunchArgs) (subnet_id ami : string) (s s' : Scene V)
    (o : Ending unit) (pre post : list Request) (q : Request) :
  launch world rule_repr fuel args subnet_id ami s = (o, s') →
  calls s' = calls s ++ pre ++ q :: post →
  is_acquisition q = true →
  ∃ v s1 s2 s3 gs,
    launch_resolve_vpc world args subnet_id s = (Returned v, s1)
    ∧ launch_check_absent world args v s1 = (Returned tt, s2)
    ∧ launch_prepare world rule_repr args v ami s2 = (Returned gs, s3)
    ∧ calls s3 = calls s ++ pre
    ∧ q = acquisition_request args
    ∧ Forall (λ q', is_acquisition q' = false) post.
Proof.
  set (calm := λ q' : Request, is_acquisition q' = false).
  intros Hrun Hsplit Hq. unfold launch, w_bind at 1 in Hrun.
  destruct (launch_resolve_vpc world args subnet_id s) as [o1 s1] eqn:R1.
  destruct (confined_resolve_vpc calm world args subnet_id eq_refl
              (λ _ _, eq_refl) _ _ _ R1) as (L1 & t1 & T1 & C1).
  destruct o1 as [v|f|]; cycle 1.
  { injection Hrun as <- <-. rewrite T1 in Hsplit.
    destruct (no_acquisition_among _ _ _ _ _ Hsplit C1 Hq). }
  { injection Hrun as <- <-. rewrite T1 in Hsplit.
    destruct (no_acquisition_among _ _ _ _ _ Hsplit C1 Hq). }
  unfold w_bind at 1 in Hrun.
  destruct (launch_check_absent world args v s1) as [o2 s2] eqn:R2.
  destruct (confined_check_absent calm world args v eq_refl
              (λ _ _, eq_refl) _ _ _ R2) as (L2 & t2 & T2 & C2).
  assert (calls s2 = calls s ++ t1 ++ t2 ∧ Forall calm (t1 ++ t2))
    as [T12 C12].
  { split; [by rewrite T2, T1, <- app_assoc | by apply Forall_app]. }
  destruct o2 as [[]|f|]; cycle 1.
  { injection Hrun as <- <-. rewrite T12 in Hsplit.
    destruct (no_acquisition_among _ _ _ _ _ Hsplit C12 Hq). }
  { injection Hrun as <- <-. rewrite T12 in Hsplit.
    destruct (no_acquisition_among _ _ _ _ _ Hsplit C12 Hq). }
  unfold w_bind at 1 in Hrun.
  destruct (launch_prepare world rule_repr args v ami s2) as [o3 s3] eqn:R3.
  assert (∀ q', is_authorization q' = true → calm q') as Hauth
    by (by intros []).
  destruct (confined_prepare calm world rule_repr args v ami
              (λ _ _, eq_refl) eq_refl (λ _ _ _, eq_refl) eq_refl
              (λ _, eq_refl) Hauth _ _ _ R3) as (L3 & t3 & T3 & C3).
  assert (calls s3 = calls s ++ (t1 ++ t2) ++ t3
          ∧ Forall calm ((t1 ++ t2) ++ t3)) as [T123 C123].
  { split; [by rewrite T3, T12, <- !app_assoc | by apply Forall_app]. }
  destruct o3 as [gs|f|]; cycle 1.
  { injection Hrun as <- <-. rewrite T123 in Hsplit.
    destruct (no_acquisition_among _ _ _ _ _ Hsplit C123 Hq). }
  { injection Hrun as <- <-. rewrite T123 in Hsplit.
    destruct (no_acquisition_among _ _ _ _ _ Hsplit C123 Hq). }
  unfold w_bind at 1, run_core in Hrun.
  destruct (launch_try_except (environment_after world (calls s3))
              (with_vpc args v) fuel (mkFrame (mkLaunchVars [] []) []))
    as [o4 f4] eqn:R4.
  apply launch_try_except_calls in R4 as (rest & Htrace & Hbid).
  cbn [trace app with_vpc spot_price num_slaves] in Htrace.
  assert (calls s' = calls s3 ++ (Core <$> trace f4)) as Hcalls.
  { destruct o4 as [[]|e|]; cbn [ending_of w_ret] in Hrun;
      by injection Hrun as <- <-. }
  rewrite Htrace, T123 in Hcalls. cbn [fmap list_fmap] in Hcalls.
  change (Core (match spot_price args with
                | Some price =>
                    RequestSpotInstances price (num_slaves args + 1)
                | None => CreateInstances (num_slaves args + 1)
                end)) with (acquisition_request args) in Hcalls.
  rewrite Hcalls, <- app_assoc in Hsplit. apply app_inv_head in Hsplit.
  assert (Forall calm (Core <$> rest)) as Crest.
  { apply Forall_fmap. eapply Forall_impl; [exact Hbid|].
    intros e. by destruct e. }
  assert (∀ l, Forall calm l → Forall (λ a, ¬ is_acquisition a = true) l)
    as Hnot.
  { intros l Hl. eapply Forall_impl; [exact Hl|]. unfold calm.
    intros a ->. done. }
  destruct (split_unique (λ a, is_acquisition a = true) _ _ _ _ _ _ Hsplit
              Hq (Hnot _ C123) (Hnot _ Crest)) as (-> & -> & ->).
  exists v, s1, s2, s3, gs. done.
Qed.

Lemma launch_acquires_after_checks_witness :
  ∃ v s1 s2 s3 gs,
    launch_resolve_vpc (launch_world []) on_demand_args "subnet-1"
      (mkScene tt []) = (Returned v, s1)
    ∧ launch_check_absent (launch_world []) on_demand_args v s1
      = (Returned tt, s2)
    ∧ launch_prepare (launch_world []) rule_name on_demand_args v "ami-1" s2
      = (Returned gs, s3)
    ∧ calls s3 = [] ++ take 22 launch_world_calls
    ∧ Core (CreateInstances 2) = acquisition_request on_demand_args
    ∧ Forall (λ q', is_acquisition q' = false) (drop 23 launch_world_calls).
Proof.
  exact (launch_acquires_after_checks (launch_world []) rule_name 3
           on_demand_args "subnet-1" "ami-1" (mkScene tt [])
           (mkScene tt launch_world_calls) (Returned tt)
           (take 22 launch_world_calls) (drop 23 launch_world_calls)
           (Core (CreateInstances 2)) eq_refl eq_refl eq_refl).
Defined.
